(** * LogicLayer website script: a shallow embedding of [script.js]

    The page controller [App] of [script.js] is embedded as state-passing
    functions over an explicit model of the page (document nodes, timer
    queue, console).  Strings are sequences of UTF-16 code units, the
    object built by [Object.fromEntries] is a finite map, exceptions are
    results of an error monad, and the asynchronous parts ([setTimeout],
    [await]) are tasks in a timer queue that an event loop fires.  The
    contact-form handler of the older standalone script is embedded next to
    it, for comparison. *)

From Stdlib Require Import ZArith NArith Lia Ascii String.
From stdpp Require Import gmap strings list.

Open Scope Z_scope.

(** ** JavaScript strings

    A JavaScript string is a sequence of UTF-16 code units.  The literals of
    the script are ASCII, so [js] reads them from a Rocq string byte by
    byte. *)

Definition js (s : string) : list N :=
  N_of_ascii <$> list_ascii_of_string s.

(** ** Regular expressions

    The fragment of the regular-expression syntax that the script uses:
    literal characters, (negated) character classes whose members are
    literals or the escape [\s], sequencing and the quantifiers [*] and
    [+].  [test] is matching by derivatives; the literal of the script is
    anchored at both ends ([^] ... [$], no [m] flag), so [test] is a match of
    the whole input. *)

Module RegExp.

(** The code units matched by [\s]: WhiteSpace and LineTerminator. *)
Definition is_space (c : N) : bool :=
  ((c =? 9) || (c =? 10) || (c =? 11) || (c =? 12) || (c =? 13)
   || (c =? 32) || (c =? 160) || (c =? 5760)
   || ((8192 <=? c) && (c <=? 8202))
   || (c =? 8232) || (c =? 8233) || (c =? 8239) || (c =? 8287)
   || (c =? 12288) || (c =? 65279))%N.

Inductive class_item :=
| CChar (c : N)     (* a literal member *)
| CSpace.           (* the escape \s *)

Definition item_mem (c : N) (i : class_item) : bool :=
  match i with
  | CChar d => (c =? d)%N
  | CSpace => is_space c
  end.

Definition class_mem (c : N) (items : list class_item) : bool :=
  existsb (item_mem c) items.

Inductive re :=
| Never                               (* matches nothing *)
| Empty                               (* matches the empty string *)
| Chr (c : N)                         (* a literal character *)
| NotIn (items : list class_item)     (* [^...] *)
| Seq (r1 r2 : re)
| Star (r : re).

Definition Plus (r : re) : re := Seq r (Star r).

Fixpoint nullable (r : re) : bool :=
  match r with
  | Never => false
  | Empty => true
  | Chr _ => false
  | NotIn _ => false
  | Seq r1 r2 => nullable r1 && nullable r2
  | Star _ => true
  end.

(** [Alt] only arises in derivatives of a sequence, so it is kept out of
    the source syntax and represented by a list of alternatives. *)
Fixpoint deriv (c : N) (r : re) : list re :=
  match r with
  | Never => []
  | Empty => []
  | Chr d => if (c =? d)%N then [Empty] else []
  | NotIn items => if class_mem c items then [] else [Empty]
  | Seq r1 r2 =>
      ((fun r1' => Seq r1' r2) <$> deriv c r1)
        ++ (if nullable r1 then deriv c r2 else [])
  | Star r1 => (fun r1' => Seq r1' (Star r1)) <$> deriv c r1
  end.

(** The matcher runs a set of alternatives over the input. *)
Fixpoint run (rs : list re) (s : list N) : bool :=
  match s with
  | [] => existsb nullable rs
  | c :: s' => run (rs ≫= deriv c) s'
  end.

Definition test (r : re) (s : list N) : bool := run [r] s.

(** The language of a regular expression, as a relation. *)
Inductive lang : re → list N → Prop :=
| L_Empty : lang Empty []
| L_Chr c : lang (Chr c) [c]
| L_NotIn items c : class_mem c items = false → lang (NotIn items) [c]
| L_Seq r1 r2 s1 s2 : lang r1 s1 → lang r2 s2 → lang (Seq r1 r2) (s1 ++ s2)
| L_Star_nil r : lang (Star r) []
| L_Star_cons r s1 s2 :
    lang r s1 → lang (Star r) s2 → lang (Star r) (s1 ++ s2).

End RegExp.

(** The email pattern of [handleFormSubmit]:
    [/^[^\s@]+@[^\s@]+\.[^\s@]+$/]. *)

Definition at_sign : N := 64.
Definition full_stop : N := 46.

Definition not_space_at : RegExp.re :=
  RegExp.NotIn [RegExp.CSpace; RegExp.CChar at_sign].

Definition email_re : RegExp.re :=
  RegExp.Seq (RegExp.Plus not_space_at)
    (RegExp.Seq (RegExp.Chr at_sign)
       (RegExp.Seq (RegExp.Plus not_space_at)
          (RegExp.Seq (RegExp.Chr full_stop)
             (RegExp.Plus not_space_at)))).

Definition email_test (s : list N) : bool := RegExp.test email_re s.

(** ** Exceptions and the state monad of the script *)

Inductive exn :=
| TypeError (what : string).   (* a property read or written on null/undefined *)

Inductive result (A : Type) :=
| Ok (a : A)
| Throw (e : exn).
Arguments Ok {A} a.
Arguments Throw {A} e.

(** ** The page

    Only the nodes and properties the script touches are kept.  A node that
    [getElementById] or [querySelector] would not find is [None] (or
    [false] for a node without state of its own). *)

Record HeaderEl := mkHeader {
  scrolled : bool                        (* classList contains 'scrolled' *)
}.

Record ToastEl := mkToast {
  toast_title : option (list N);         (* textContent of .toast-title, if that child exists *)
  toast_description : option (list N);   (* textContent of .toast-description, if it exists *)
  toastType : option (list N);           (* dataset.toastType *)
  show : bool                            (* classList contains 'show' *)
}.

Record IconEl := mkIcon {
  className : list N;
  color : list N                         (* style.color *)
}.

Record ButtonEl := mkButton {
  textContent : list N;
  disabled : bool
}.

(** A successful form control: its name, its current value and the value
    [form.reset()] gives it back (the markup's default). *)
Record Control := mkControl {
  ctl_name : string;
  ctl_value : list N;
  ctl_default : list N
}.

Record FormEl := mkForm {
  controls : list Control;
  submitButton : option ButtonEl         (* form.querySelector('button[type="submit"]') *)
}.

Record HeroEl := mkHero {
  (* style.transform is `translateY(${scrollY * 0.4}px)`; the field keeps
     the scrollY it was computed from, the product is a double and is not
     evaluated here *)
  parallax_of : option Z
}.

(** Handles that the element registry holds. *)
Inductive node :=
| NHeader | NMobileMenuToggle | NMobileMenuOverlay | NMobileMenuClose
| NContactForm | NToast | NHeroBackground.

(** [App.elements]: every entry is [undefined] before [cacheDOMElements],
    and [null] or a node after it; both absent values are [None], since
    reading a property of either throws the same [TypeError]. *)
Record Elements := mkElements {
  header : option node;
  mobileMenuToggle : option node;
  mobileMenuOverlay : option node;
  mobileMenuClose : option node;
  contactForm : option node;
  toast : option node;
  heroBackground : option node;
  navLinks : option (list nat);          (* a NodeList, by index of the anchor *)
  mobileNavLinks : option (list nat);
  animatedElements : option (list nat)
}.

(** Event targets, event types and the listeners [bindEvents] registers. *)
Inductive target :=
| TToggle | TClose | TOverlay | TMobileNavLink (i : nat) | TNavLink (i : nat)
| TForm | TWindow | TDocument.

Inductive event_type := EvClick | EvSubmit | EvScroll | EvKeydown.

Inductive handler :=
| OnToggleClick          (* () => this.toggleMobileMenu(true) *)
| OnCloseClick           (* () => this.toggleMobileMenu(false) *)
| OnOverlayClick         (* closes the menu when e.target is the overlay itself *)
| OnMobileNavLinkClick   (* () => this.toggleMobileMenu(false) *)
| OnAnchorClick          (* this.handleSmoothScroll *)
| OnFormSubmit           (* (e) => this.handleFormSubmit(e) *)
| OnScroll               (* throttledScrollHandler *)
| OnKeydown.             (* this.handleKeyboard.bind(this) *)

(** What a timer or an animation frame runs when it fires. *)
Inductive task :=
| HideToast              (* () => this.elements.toast.classList.remove('show') *)
| ThrottleOff            (* () => inThrottle = false *)
| ResumeSubmit (data : gmap string (list N)) (originalButtonText : list N)
                         (* the rest of handleFormSubmit after its await *)
| FadeIn                 (* the requestAnimationFrame callback of pageLoadAnimation *)
| LegacySettle (data : gmap string (list N)) (originalText : list N)
                         (* the timeout callback of the standalone submit handler *)
| LegacyHideToast.       (* () => toast.classList.remove('show'), standalone script *)

(** The values of an object handed to the console: a string, or the
    string that [new Date(ms).toISOString()] gives, kept by its time. *)
Inductive jsvalue :=
| Str (s : list N)
| IsoDate (ms : Z).

Inductive log_entry :=
| ConsoleLog (label : list N) (payload : gmap string jsvalue)
| ConsoleError (label : list N) (error : exn).

Record State := mkState {
  (* the document *)
  doc_header : option HeaderEl;
  doc_mobileMenuToggle : bool;
  doc_mobileMenuOverlay : bool;
  doc_mobileMenuClose : bool;
  doc_contactForm : option FormEl;
  doc_toast : option ToastEl;
  doc_toastIcon : option IconEl;         (* the node '.toast-icon i' inside the toast *)
  doc_heroBackground : option HeroEl;
  doc_anchors : list (list N * bool);    (* a[href^="#"]: the href, and whether its target exists *)
  doc_mobileNavLinks : nat;              (* how many .mobile-nav-link there are *)
  doc_cards : list bool;                 (* the animated cards: classList contains 'is-visible' *)
  menu_open : bool;                      (* body.classList contains 'menu-open' *)
  body_opacity : option (list N);
  body_transition : option (list N);
  scrollY : Z;                           (* window.scrollY *)
  scrolled_into_view : list (list N);    (* the fragments scrollIntoView was called for *)
  scroll_handled : list (Z * Z);         (* history: time and scrollY of every run of handleScroll *)
  (* the controller *)
  elements : Elements;
  inThrottle : bool;                     (* the variable the throttle closure captures *)
  listeners : list (target * event_type * handler);
  observed : list nat;                   (* cards the IntersectionObserver watches *)
  preloaded : list (list N);             (* src of the Image objects created *)
  (* the runtime *)
  now : Z;                               (* milliseconds *)
  timers : list (Z * task);              (* pending setTimeout callbacks with their due time *)
  frames : list task;                    (* pending requestAnimationFrame callbacks *)
  console : list log_entry;
  uncaught : list exn                    (* exceptions that left a handler or an async function *)
}.

Definition M (A : Type) : Type := State → result A * State.

#[export] Instance M_ret : MRet M := λ A a st, (Ok a, st).
#[export] Instance M_bind : MBind M := λ A B f m st,
  match m st with
  | (Ok a, st') => f a st'
  | (Throw e, st') => (Throw e, st')
  end.

Definition throw {A} (e : exn) : M A := λ st, (Throw e, st).
Definition gets {A} (f : State → A) : M A := λ st, (Ok (f st), st).
Definition modify (f : State → State) : M unit := λ st, (Ok tt, f st).

(** [try { body } catch (error) { handle } finally { fin }]: [fin] runs
    whatever happens; an exception of [fin] replaces the pending outcome. *)
Definition try_catch_finally (body : M unit) (handle : exn → M unit)
    (fin : M unit) : M unit := λ st,
  let '(r, st1) :=
    match body st with
    | (Ok a, st') => (Ok a, st')
    | (Throw e, st') => handle e st'
    end in
  match fin st1 with
  | (Ok _, st2) => (r, st2)
  | (Throw e, st2) => (Throw e, st2)
  end.

(** Reading a property of a registry entry: [null] and [undefined] throw. *)
Definition deref {A} (what : string) (o : option A) : M A :=
  match o with
  | Some a => mret a
  | None => throw (TypeError what)
  end.

(** Field updates of the state. *)

Definition set_doc_header (st : State) (v : option HeaderEl) : State :=
  mkState v (doc_mobileMenuToggle st) (doc_mobileMenuOverlay st)
    (doc_mobileMenuClose st) (doc_contactForm st) (doc_toast st)
    (doc_toastIcon st) (doc_heroBackground st) (doc_anchors st)
    (doc_mobileNavLinks st) (doc_cards st) (menu_open st) (body_opacity st)
    (body_transition st) (scrollY st) (scrolled_into_view st)
    (scroll_handled st) (elements st) (inThrottle st) (listeners st)
    (observed st) (preloaded st) (now st) (timers st) (frames st)
    (console st) (uncaught st).

Definition set_doc_mobileMenuToggle (st : State) (v : bool) : State :=
  mkState (doc_header st) v (doc_mobileMenuOverlay st)
    (doc_mobileMenuClose st) (doc_contactForm st) (doc_toast st)
    (doc_toastIcon st) (doc_heroBackground st) (doc_anchors st)
    (doc_mobileNavLinks st) (doc_cards st) (menu_open st) (body_opacity st)
    (body_transition st) (scrollY st) (scrolled_into_view st)
    (scroll_handled st) (elements st) (inThrottle st) (listeners st)
    (observed st) (preloaded st) (now st) (timers st) (frames st)
    (console st) (uncaught st).

Definition set_doc_mobileMenuOverlay (st : State) (v : bool) : State :=
  mkState (doc_header st) (doc_mobileMenuToggle st) v
    (doc_mobileMenuClose st) (doc_contactForm st) (doc_toast st)
    (doc_toastIcon st) (doc_heroBackground st) (doc_anchors st)
    (doc_mobileNavLinks st) (doc_cards st) (menu_open st) (body_opacity st)
    (body_transition st) (scrollY st) (scrolled_into_view st)
    (scroll_handled st) (elements st) (inThrottle st) (listeners st)
    (observed st) (preloaded st) (now st) (timers st) (frames st)
    (console st) (uncaught st).

Definition set_doc_mobileMenuClose (st : State) (v : bool) : State :=
  mkState (doc_header st) (doc_mobileMenuToggle st)
    (doc_mobileMenuOverlay st) v (doc_contactForm st) (doc_toast st)
    (doc_toastIcon st) (doc_heroBackground st) (doc_anchors st)
    (doc_mobileNavLinks st) (doc_cards st) (menu_open st) (body_opacity st)
    (body_transition st) (scrollY st) (scrolled_into_view st)
    (scroll_handled st) (elements st) (inThrottle st) (listeners st)
    (observed st) (preloaded st) (now st) (timers st) (frames st)
    (console st) (uncaught st).

Definition set_doc_contactForm (st : State) (v : option FormEl) : State :=
  mkState (doc_header st) (doc_mobileMenuToggle st)
    (doc_mobileMenuOverlay st) (doc_mobileMenuClose st) v (doc_toast st)
    (doc_toastIcon st) (doc_heroBackground st) (doc_anchors st)
    (doc_mobileNavLinks st) (doc_cards st) (menu_open st) (body_opacity st)
    (body_transition st) (scrollY st) (scrolled_into_view st)
    (scroll_handled st) (elements st) (inThrottle st) (listeners st)
    (observed st) (preloaded st) (now st) (timers st) (frames st)
    (console st) (uncaught st).

Definition set_doc_toast (st : State) (v : option ToastEl) : State :=
  mkState (doc_header st) (doc_mobileMenuToggle st)
    (doc_mobileMenuOverlay st) (doc_mobileMenuClose st) (doc_contactForm st)
    v (doc_toastIcon st) (doc_heroBackground st) (doc_anchors st)
    (doc_mobileNavLinks st) (doc_cards st) (menu_open st) (body_opacity st)
    (body_transition st) (scrollY st) (scrolled_into_view st)
    (scroll_handled st) (elements st) (inThrottle st) (listeners st)
    (observed st) (preloaded st) (now st) (timers st) (frames st)
    (console st) (uncaught st).

Definition set_doc_toastIcon (st : State) (v : option IconEl) : State :=
  mkState (doc_header st) (doc_mobileMenuToggle st)
    (doc_mobileMenuOverlay st) (doc_mobileMenuClose st) (doc_contactForm st)
    (doc_toast st) v (doc_heroBackground st) (doc_anchors st)
    (doc_mobileNavLinks st) (doc_cards st) (menu_open st) (body_opacity st)
    (body_transition st) (scrollY st) (scrolled_into_view st)
    (scroll_handled st) (elements st) (inThrottle st) (listeners st)
    (observed st) (preloaded st) (now st) (timers st) (frames st)
    (console st) (uncaught st).

Definition set_doc_heroBackground (st : State) (v : option HeroEl) : State :=
  mkState (doc_header st) (doc_mobileMenuToggle st)
    (doc_mobileMenuOverlay st) (doc_mobileMenuClose st) (doc_contactForm st)
    (doc_toast st) (doc_toastIcon st) v (doc_anchors st)
    (doc_mobileNavLinks st) (doc_cards st) (menu_open st) (body_opacity st)
    (body_transition st) (scrollY st) (scrolled_into_view st)
    (scroll_handled st) (elements st) (inThrottle st) (listeners st)
    (observed st) (preloaded st) (now st) (timers st) (frames st)
    (console st) (uncaught st).

Definition set_doc_anchors (st : State) (v : list (list N * bool)) : State :=
  mkState (doc_header st) (doc_mobileMenuToggle st)
    (doc_mobileMenuOverlay st) (doc_mobileMenuClose st) (doc_contactForm st)
    (doc_toast st) (doc_toastIcon st) (doc_heroBackground st) v
    (doc_mobileNavLinks st) (doc_cards st) (menu_open st) (body_opacity st)
    (body_transition st) (scrollY st) (scrolled_into_view st)
    (scroll_handled st) (elements st) (inThrottle st) (listeners st)
    (observed st) (preloaded st) (now st) (timers st) (frames st)
    (console st) (uncaught st).

Definition set_doc_mobileNavLinks (st : State) (v : nat) : State :=
  mkState (doc_header st) (doc_mobileMenuToggle st)
    (doc_mobileMenuOverlay st) (doc_mobileMenuClose st) (doc_contactForm st)
    (doc_toast st) (doc_toastIcon st) (doc_heroBackground st)
    (doc_anchors st) v (doc_cards st) (menu_open st) (body_opacity st)
    (body_transition st) (scrollY st) (scrolled_into_view st)
    (scroll_handled st) (elements st) (inThrottle st) (listeners st)
    (observed st) (preloaded st) (now st) (timers st) (frames st)
    (console st) (uncaught st).

Definition set_doc_cards (st : State) (v : list bool) : State :=
  mkState (doc_header st) (doc_mobileMenuToggle st)
    (doc_mobileMenuOverlay st) (doc_mobileMenuClose st) (doc_contactForm st)
    (doc_toast st) (doc_toastIcon st) (doc_heroBackground st)
    (doc_anchors st) (doc_mobileNavLinks st) v (menu_open st)
    (body_opacity st) (body_transition st) (scrollY st)
    (scrolled_into_view st) (scroll_handled st) (elements st)
    (inThrottle st) (listeners st) (observed st) (preloaded st) (now st)
    (timers st) (frames st) (console st) (uncaught st).

Definition set_menu_open (st : State) (v : bool) : State :=
  mkState (doc_header st) (doc_mobileMenuToggle st)
    (doc_mobileMenuOverlay st) (doc_mobileMenuClose st) (doc_contactForm st)
    (doc_toast st) (doc_toastIcon st) (doc_heroBackground st)
    (doc_anchors st) (doc_mobileNavLinks st) (doc_cards st) v
    (body_opacity st) (body_transition st) (scrollY st)
    (scrolled_into_view st) (scroll_handled st) (elements st)
    (inThrottle st) (listeners st) (observed st) (preloaded st) (now st)
    (timers st) (frames st) (console st) (uncaught st).

Definition set_body_opacity (st : State) (v : option (list N)) : State :=
  mkState (doc_header st) (doc_mobileMenuToggle st)
    (doc_mobileMenuOverlay st) (doc_mobileMenuClose st) (doc_contactForm st)
    (doc_toast st) (doc_toastIcon st) (doc_heroBackground st)
    (doc_anchors st) (doc_mobileNavLinks st) (doc_cards st) (menu_open st) v
    (body_transition st) (scrollY st) (scrolled_into_view st)
    (scroll_handled st) (elements st) (inThrottle st) (listeners st)
    (observed st) (preloaded st) (now st) (timers st) (frames st)
    (console st) (uncaught st).

Definition set_body_transition (st : State) (v : option (list N)) : State :=
  mkState (doc_header st) (doc_mobileMenuToggle st)
    (doc_mobileMenuOverlay st) (doc_mobileMenuClose st) (doc_contactForm st)
    (doc_toast st) (doc_toastIcon st) (doc_heroBackground st)
    (doc_anchors st) (doc_mobileNavLinks st) (doc_cards st) (menu_open st)
    (body_opacity st) v (scrollY st) (scrolled_into_view st)
    (scroll_handled st) (elements st) (inThrottle st) (listeners st)
    (observed st) (preloaded st) (now st) (timers st) (frames st)
    (console st) (uncaught st).

Definition set_scrollY (st : State) (v : Z) : State :=
  mkState (doc_header st) (doc_mobileMenuToggle st)
    (doc_mobileMenuOverlay st) (doc_mobileMenuClose st) (doc_contactForm st)
    (doc_toast st) (doc_toastIcon st) (doc_heroBackground st)
    (doc_anchors st) (doc_mobileNavLinks st) (doc_cards st) (menu_open st)
    (body_opacity st) (body_transition st) v (scrolled_into_view st)
    (scroll_handled st) (elements st) (inThrottle st) (listeners st)
    (observed st) (preloaded st) (now st) (timers st) (frames st)
    (console st) (uncaught st).

Definition set_scrolled_into_view (st : State) (v : list (list N)) : State :=
  mkState (doc_header st) (doc_mobileMenuToggle st)
    (doc_mobileMenuOverlay st) (doc_mobileMenuClose st) (doc_contactForm st)
    (doc_toast st) (doc_toastIcon st) (doc_heroBackground st)
    (doc_anchors st) (doc_mobileNavLinks st) (doc_cards st) (menu_open st)
    (body_opacity st) (body_transition st) (scrollY st) v
    (scroll_handled st) (elements st) (inThrottle st) (listeners st)
    (observed st) (preloaded st) (now st) (timers st) (frames st)
    (console st) (uncaught st).

Definition set_scroll_handled (st : State) (v : list (Z * Z)) : State :=
  mkState (doc_header st) (doc_mobileMenuToggle st)
    (doc_mobileMenuOverlay st) (doc_mobileMenuClose st) (doc_contactForm st)
    (doc_toast st) (doc_toastIcon st) (doc_heroBackground st)
    (doc_anchors st) (doc_mobileNavLinks st) (doc_cards st) (menu_open st)
    (body_opacity st) (body_transition st) (scrollY st)
    (scrolled_into_view st) v (elements st) (inThrottle st) (listeners st)
    (observed st) (preloaded st) (now st) (timers st) (frames st)
    (console st) (uncaught st).

Definition set_elements (st : State) (v : Elements) : State :=
  mkState (doc_header st) (doc_mobileMenuToggle st)
    (doc_mobileMenuOverlay st) (doc_mobileMenuClose st) (doc_contactForm st)
    (doc_toast st) (doc_toastIcon st) (doc_heroBackground st)
    (doc_anchors st) (doc_mobileNavLinks st) (doc_cards st) (menu_open st)
    (body_opacity st) (body_transition st) (scrollY st)
    (scrolled_into_view st) (scroll_handled st) v (inThrottle st)
    (listeners st) (observed st) (preloaded st) (now st) (timers st)
    (frames st) (console st) (uncaught st).

Definition set_inThrottle (st : State) (v : bool) : State :=
  mkState (doc_header st) (doc_mobileMenuToggle st)
    (doc_mobileMenuOverlay st) (doc_mobileMenuClose st) (doc_contactForm st)
    (doc_toast st) (doc_toastIcon st) (doc_heroBackground st)
    (doc_anchors st) (doc_mobileNavLinks st) (doc_cards st) (menu_open st)
    (body_opacity st) (body_transition st) (scrollY st)
    (scrolled_into_view st) (scroll_handled st) (elements st) v
    (listeners st) (observed st) (preloaded st) (now st) (timers st)
    (frames st) (console st) (uncaught st).

Definition set_listeners (st : State) (v : list (target * event_type * handler)) : State :=
  mkState (doc_header st) (doc_mobileMenuToggle st)
    (doc_mobileMenuOverlay st) (doc_mobileMenuClose st) (doc_contactForm st)
    (doc_toast st) (doc_toastIcon st) (doc_heroBackground st)
    (doc_anchors st) (doc_mobileNavLinks st) (doc_cards st) (menu_open st)
    (body_opacity st) (body_transition st) (scrollY st)
    (scrolled_into_view st) (scroll_handled st) (elements st)
    (inThrottle st) v (observed st) (preloaded st) (now st) (timers st)
    (frames st) (console st) (uncaught st).

Definition set_observed (st : State) (v : list nat) : State :=
  mkState (doc_header st) (doc_mobileMenuToggle st)
    (doc_mobileMenuOverlay st) (doc_mobileMenuClose st) (doc_contactForm st)
    (doc_toast st) (doc_toastIcon st) (doc_heroBackground st)
    (doc_anchors st) (doc_mobileNavLinks st) (doc_cards st) (menu_open st)
    (body_opacity st) (body_transition st) (scrollY st)
    (scrolled_into_view st) (scroll_handled st) (elements st)
    (inThrottle st) (listeners st) v (preloaded st) (now st) (timers st)
    (frames st) (console st) (uncaught st).

Definition set_preloaded (st : State) (v : list (list N)) : State :=
  mkState (doc_header st) (doc_mobileMenuToggle st)
    (doc_mobileMenuOverlay st) (doc_mobileMenuClose st) (doc_contactForm st)
    (doc_toast st) (doc_toastIcon st) (doc_heroBackground st)
    (doc_anchors st) (doc_mobileNavLinks st) (doc_cards st) (menu_open st)
    (body_opacity st) (body_transition st) (scrollY st)
    (scrolled_into_view st) (scroll_handled st) (elements st)
    (inThrottle st) (listeners st) (observed st) v (now st) (timers st)
    (frames st) (console st) (uncaught st).

Definition set_now (st : State) (v : Z) : State :=
  mkState (doc_header st) (doc_mobileMenuToggle st)
    (doc_mobileMenuOverlay st) (doc_mobileMenuClose st) (doc_contactForm st)
    (doc_toast st) (doc_toastIcon st) (doc_heroBackground st)
    (doc_anchors st) (doc_mobileNavLinks st) (doc_cards st) (menu_open st)
    (body_opacity st) (body_transition st) (scrollY st)
    (scrolled_into_view st) (scroll_handled st) (elements st)
    (inThrottle st) (listeners st) (observed st) (preloaded st) v
    (timers st) (frames st) (console st) (uncaught st).

Definition set_timers (st : State) (v : list (Z * task)) : State :=
  mkState (doc_header st) (doc_mobileMenuToggle st)
    (doc_mobileMenuOverlay st) (doc_mobileMenuClose st) (doc_contactForm st)
    (doc_toast st) (doc_toastIcon st) (doc_heroBackground st)
    (doc_anchors st) (doc_mobileNavLinks st) (doc_cards st) (menu_open st)
    (body_opacity st) (body_transition st) (scrollY st)
    (scrolled_into_view st) (scroll_handled st) (elements st)
    (inThrottle st) (listeners st) (observed st) (preloaded st) (now st) v
    (frames st) (console st) (uncaught st).

Definition set_frames (st : State) (v : list task) : State :=
  mkState (doc_header st) (doc_mobileMenuToggle st)
    (doc_mobileMenuOverlay st) (doc_mobileMenuClose st) (doc_contactForm st)
    (doc_toast st) (doc_toastIcon st) (doc_heroBackground st)
    (doc_anchors st) (doc_mobileNavLinks st) (doc_cards st) (menu_open st)
    (body_opacity st) (body_transition st) (scrollY st)
    (scrolled_into_view st) (scroll_handled st) (elements st)
    (inThrottle st) (listeners st) (observed st) (preloaded st) (now st)
    (timers st) v (console st) (uncaught st).

Definition set_console (st : State) (v : list log_entry) : State :=
  mkState (doc_header st) (doc_mobileMenuToggle st)
    (doc_mobileMenuOverlay st) (doc_mobileMenuClose st) (doc_contactForm st)
    (doc_toast st) (doc_toastIcon st) (doc_heroBackground st)
    (doc_anchors st) (doc_mobileNavLinks st) (doc_cards st) (menu_open st)
    (body_opacity st) (body_transition st) (scrollY st)
    (scrolled_into_view st) (scroll_handled st) (elements st)
    (inThrottle st) (listeners st) (observed st) (preloaded st) (now st)
    (timers st) (frames st) v (uncaught st).

Definition set_uncaught (st : State) (v : list exn) : State :=
  mkState (doc_header st) (doc_mobileMenuToggle st)
    (doc_mobileMenuOverlay st) (doc_mobileMenuClose st) (doc_contactForm st)
    (doc_toast st) (doc_toastIcon st) (doc_heroBackground st)
    (doc_anchors st) (doc_mobileNavLinks st) (doc_cards st) (menu_open st)
    (body_opacity st) (body_transition st) (scrollY st)
    (scrolled_into_view st) (scroll_handled st) (elements st)
    (inThrottle st) (listeners st) (observed st) (preloaded st) (now st)
    (timers st) (frames st) (console st) v.

(** ** Runtime services *)

(** [setTimeout(callback, delay)]: the callback is queued with its due
    time.  The script never keeps the handle and never clears a timer. *)
Definition setTimeout (t : task) (delay : Z) : M unit :=
  modify (λ st, set_timers st (timers st ++ [(now st + delay, t)])).

Definition requestAnimationFrame (t : task) : M unit :=
  modify (λ st, set_frames st (frames st ++ [t])).

Definition console_log (label : list N) (payload : gmap string jsvalue) : M unit :=
  modify (λ st, set_console st (console st ++ [ConsoleLog label payload])).

Definition console_error (label : list N) (error : exn) : M unit :=
  modify (λ st, set_console st (console st ++ [ConsoleError label error])).

Fixpoint forEach {A} (l : list A) (f : A → M unit) : M unit :=
  match l with
  | [] => mret tt
  | x :: l' => f x ;; forEach l' f
  end.

(** [new FormData(form)]: the entries of the successful controls, in
    document order. *)
Definition FormData (f : FormEl) : list (string * list N) :=
  (λ c, (ctl_name c, ctl_value c)) <$> controls f.

(** [Object.fromEntries]: a later entry of the same name wins. *)
Definition fromEntries (entries : list (string * list N)) : gmap string (list N) :=
  foldl (λ o kv, <[kv.1 := kv.2]> o) ∅ entries.

(** [!v] for a property that is a string or missing. *)
Definition falsy (v : option (list N)) : bool :=
  match v with
  | None => true
  | Some [] => true
  | Some (_ :: _) => false
  end.

(** ToString of a property that is a string or missing. *)
Definition to_string (v : option (list N)) : list N :=
  default (js "undefined") v.

(** [form.reset()]: every control goes back to its default value. *)
Definition reset (f : FormEl) : FormEl :=
  mkForm ((λ c, mkControl (ctl_name c) (ctl_default c) (ctl_default c)) <$> controls f)
         (submitButton f).

(** The argument object of [showToast]; [type] may be left out. *)
Record ToastArgs := mkToastArgs {
  title : list N;
  message : list N;
  type : option (list N)
}.

(** ** The controller *)

Module App.

(** [config]; [animationThreshold] (0.1) is only handed to the
    IntersectionObserver and is not needed below. *)
Definition headerScrollThreshold : Z := 50.
Definition scrollThrottleLimit : Z := 16.

Definition getElementById (id : string) : M (option node) :=
  gets (λ st,
    if decide (id = "header") then (λ _, NHeader) <$> doc_header st
    else if decide (id = "mobile-menu-toggle") then
      if doc_mobileMenuToggle st then Some NMobileMenuToggle else None
    else if decide (id = "mobile-menu-overlay") then
      if doc_mobileMenuOverlay st then Some NMobileMenuOverlay else None
    else if decide (id = "mobile-menu-close") then
      if doc_mobileMenuClose st then Some NMobileMenuClose else None
    else if decide (id = "contact-form") then (λ _, NContactForm) <$> doc_contactForm st
    else if decide (id = "toast") then (λ _, NToast) <$> doc_toast st
    else None).

Definition cacheDOMElements : M unit :=
  header ← getElementById "header";
  mobileMenuToggle ← getElementById "mobile-menu-toggle";
  mobileMenuOverlay ← getElementById "mobile-menu-overlay";
  mobileMenuClose ← getElementById "mobile-menu-close";
  contactForm ← getElementById "contact-form";
  toast ← getElementById "toast";
  heroBackground ← gets (λ st, (λ _, NHeroBackground) <$> doc_heroBackground st);
  navLinks ← gets (λ st, seq 0 (length (doc_anchors st)));
  mobileNavLinks ← gets (λ st, seq 0 (doc_mobileNavLinks st));
  animatedElements ← gets (λ st, seq 0 (length (doc_cards st)));
  modify (λ st, set_elements st
    (mkElements header mobileMenuToggle mobileMenuOverlay mobileMenuClose
       contactForm toast heroBackground
       (Some navLinks) (Some mobileNavLinks) (Some animatedElements))).

Definition addEventListener (t : target) (ty : event_type) (h : handler) : M unit :=
  modify (λ st, set_listeners st (listeners st ++ [(t, ty, h)])).

Definition bindEvents : M unit :=
  (* Mobile Menu *)
  e ← gets elements;
  _ ← deref "this.elements.mobileMenuToggle" (mobileMenuToggle e);
  addEventListener TToggle EvClick OnToggleClick ;;
  _ ← deref "this.elements.mobileMenuClose" (mobileMenuClose e);
  addEventListener TClose EvClick OnCloseClick ;;
  _ ← deref "this.elements.mobileMenuOverlay" (mobileMenuOverlay e);
  addEventListener TOverlay EvClick OnOverlayClick ;;
  links ← deref "this.elements.mobileNavLinks" (mobileNavLinks e);
  forEach links (λ i, addEventListener (TMobileNavLink i) EvClick OnMobileNavLinkClick) ;;
  (* Smooth Scrolling *)
  anchors ← deref "this.elements.navLinks" (navLinks e);
  forEach anchors (λ i, addEventListener (TNavLink i) EvClick OnAnchorClick) ;;
  (* Form Submission *)
  match contactForm e with
  | Some _ => addEventListener TForm EvSubmit OnFormSubmit
  | None => mret tt
  end ;;
  (* Scroll Events: throttle(...) makes the closure, its inThrottle is
     still undefined, which the condition reads as false *)
  modify (λ st, set_inThrottle st false) ;;
  addEventListener TWindow EvScroll OnScroll ;;
  (* Keyboard Navigation *)
  addEventListener TDocument EvKeydown OnKeydown.

Definition toggleMobileMenu (show : bool) : M unit :=
  modify (λ st, set_menu_open st show).

(** [e.currentTarget] is the anchor with index [i]. *)
Definition handleSmoothScroll (i : nat) : M unit :=
  a ← gets (λ st, doc_anchors st !! i);
  match a with
  | Some (targetId, true) =>
      modify (λ st, set_scrolled_into_view st (scrolled_into_view st ++ [targetId]))
  | _ => mret tt
  end.

Definition handleScroll : M unit :=
  y ← gets scrollY;
  modify (λ st, set_scroll_handled st (scroll_handled st ++ [(now st, y)])) ;;
  e ← gets elements;
  (* Header background effect *)
  _ ← deref "this.elements.header" (header e);
  modify (λ st, set_doc_header st
    ((λ _, mkHeader (bool_decide (y > headerScrollThreshold))) <$> doc_header st)) ;;
  (* Parallax effect for hero background *)
  match heroBackground e with
  | Some _ =>
      modify (λ st, set_doc_heroBackground st
        ((λ _, mkHero (Some y)) <$> doc_heroBackground st))
  | None => mret tt
  end.

(** [this.elements.toast], read for one of its properties. *)
Definition the_toast : M ToastEl :=
  e ← gets elements;
  _ ← deref "this.elements.toast" (toast e);
  d ← gets doc_toast;
  deref "this.elements.toast" d.

Definition put_toast (t : ToastEl) : M unit :=
  modify (λ st, set_doc_toast st (Some t)).

Definition showToast (a : ToastArgs) : M unit :=
  t ← the_toast;
  _ ← deref ".toast-title" (toast_title t);
  put_toast (mkToast (Some (title a)) (toast_description t) (toastType t) (show t)) ;;
  t ← the_toast;
  _ ← deref ".toast-description" (toast_description t);
  put_toast (mkToast (toast_title t) (Some (message a)) (toastType t) (show t)) ;;
  t ← the_toast;
  put_toast (mkToast (toast_title t) (toast_description t)
               (Some (default (js "success") (type a))) (show t)) ;;
  t ← the_toast;
  put_toast (mkToast (toast_title t) (toast_description t) (toastType t) true) ;;
  setTimeout HideToast 5000.

(** [e.currentTarget] of a submit event is the contact form. *)
Definition the_form : M FormEl :=
  d ← gets doc_contactForm;
  deref "e.currentTarget" d.

Definition put_form (f : FormEl) : M unit :=
  modify (λ st, set_doc_contactForm st (Some f)).

(** The submit button, read or written through [submitButton]. *)
Definition the_button : M ButtonEl :=
  f ← the_form;
  deref "submitButton" (submitButton f).

Definition put_button (b : ButtonEl) : M unit :=
  f ← the_form;
  put_form (mkForm (controls f) (Some b)).

Definition missing_fields_toast : ToastArgs :=
  mkToastArgs (js "Error") (js "Please fill in all required fields.") (Some (js "error")).
Definition invalid_email_toast : ToastArgs :=
  mkToastArgs (js "Error") (js "Please enter a valid email address.") (Some (js "error")).
Definition success_toast : ToastArgs :=
  mkToastArgs (js "Success") (js "Your message has been sent successfully!") None.
Definition failure_toast : ToastArgs :=
  mkToastArgs (js "Error") (js "Something went wrong. Please try again.") (Some (js "error")).

(** [handleFormSubmit] up to its [await]: the part that runs inside the
    submit event.  [e.preventDefault()] changes nothing that is modelled. *)
Definition handleFormSubmit : M unit :=
  form ← the_form;
  let data := fromEntries (FormData form) in
  (* Validation *)
  if falsy (data !! "firstName") || falsy (data !! "lastName")
     || falsy (data !! "email") || falsy (data !! "message") then
    showToast missing_fields_toast
  else if negb (email_test (to_string (data !! "email"))) then
    showToast invalid_email_toast
  else
    (* UI feedback *)
    b ← the_button;
    let originalButtonText := textContent b in
    put_button (mkButton (js "Sending...") (disabled b)) ;;
    b ← the_button;
    put_button (mkButton (textContent b) true) ;;
    (* await new Promise(resolve => setTimeout(resolve, 1000)) *)
    setTimeout (ResumeSubmit data originalButtonText) 1000.

(** [handleFormSubmit] from the [await] on: what runs when the
    one-second timer resolves the promise. *)
Definition handleFormSubmit_resume (data : gmap string (list N))
    (originalButtonText : list N) : M unit :=
  try_catch_finally
    (console_log (js "Form Submitted:") (Str <$> data) ;;
     showToast success_toast ;;
     f ← the_form;
     put_form (reset f))
    (λ error,
       console_error (js "Form submission error:") error ;;
       showToast failure_toast)
    ((* Restore button *)
     b ← the_button;
     put_button (mkButton originalButtonText (disabled b)) ;;
     b ← the_button;
     put_button (mkButton (textContent b) false)).

Definition handleKeyboard (key : list N) : M unit :=
  if decide (key = js "Escape") then
    menuOpen ← gets menu_open;
    (if (menuOpen : bool) then toggleMobileMenu false else mret tt) ;;
    t ← the_toast;
    if show (t : ToastEl) then
      put_toast (mkToast (toast_title t) (toast_description t) (toastType t) false)
    else mret tt
  else mret tt.

(** [throttle(func, limit)]: the function it returns. *)
Definition throttle (func : M unit) (limit : Z) : M unit :=
  busy ← gets inThrottle;
  if negb busy then
    func ;;
    modify (λ st, set_inThrottle st true) ;;
    setTimeout ThrottleOff limit
  else mret tt.

Definition throttledScrollHandler : M unit :=
  throttle handleScroll scrollThrottleLimit.

Definition setupObservers : M unit :=
  e ← gets elements;
  cards ← deref "this.elements.animatedElements" (animatedElements e);
  forEach cards (λ i, modify (λ st, set_observed st (observed st ++ [i]))).

(** The IntersectionObserver callback for one entry. *)
Definition observerCallback (i : nat) (isIntersecting : bool) : M unit :=
  if isIntersecting then
    modify (λ st, set_doc_cards st (<[i := true]> (doc_cards st))) ;;
    modify (λ st, set_observed st (filter (λ j, j ≠ i) (observed st)))
  else mret tt.

Definition preloadAssets : M unit :=
  forEach
    [ js "https://images.unsplash.com/photo-1522071820081-009f0129c71c?ixlib=rb-4.0.3&auto=format&fit=crop&w=1920&h=1080";
      js "https://images.unsplash.com/photo-1551288049-bebda4e38f71?ixlib=rb-4.0.3&auto=format&fit=crop&w=800&h=600";
      js "https://images.unsplash.com/photo-1512941937669-90a1b58e7e9c?ixlib=rb-4.0.3&auto=format&fit=crop&w=800&h=600";
      js "https://images.unsplash.com/photo-1518186285589-2f7649de83e0?ixlib=rb-4.0.3&auto=format&fit=crop&w=800&h=600" ]
    (λ src, modify (λ st, set_preloaded st (preloaded st ++ [src]))).

Definition pageLoadAnimation : M unit :=
  modify (λ st, set_body_opacity st (Some (js "0"))) ;;
  requestAnimationFrame FadeIn.

Definition init : M unit :=
  cacheDOMElements ;;
  bindEvents ;;
  setupObservers ;;
  preloadAssets ;;
  pageLoadAnimation.

End App.

(** ** The standalone script

    The second script of the repository does the same work with top-level
    functions.  Its contact-form handler and its [showToast] are embedded
    here; its globals ([contactForm], [toast]) are the nodes found when the
    script was loaded. *)

Module Legacy.

Definition the_toast : M ToastEl :=
  d ← gets doc_toast;
  deref "toast" d.

Definition put_toast (t : ToastEl) : M unit :=
  modify (λ st, set_doc_toast st (Some t)).

Definition put_icon (cls col : list N) : M unit :=
  i ← gets doc_toastIcon;
  i ← deref "toastIcon" i;
  modify (λ st, set_doc_toastIcon st (Some (mkIcon cls (color i)))) ;;
  modify (λ st, set_doc_toastIcon st (Some (mkIcon cls col))).

Definition showToast (title message : list N) (type : option (list N)) : M unit :=
  let type := default (js "success") type in
  t ← the_toast;
  (* Set content *)
  _ ← deref "toastTitle" (toast_title t);
  put_toast (mkToast (Some title) (toast_description t) (toastType t) (show t)) ;;
  t ← the_toast;
  _ ← deref "toastDescription" (toast_description t);
  put_toast (mkToast (toast_title t) (Some message) (toastType t) (show t)) ;;
  (* Set icon based on type *)
  (if decide (type = js "success") then
     put_icon (js "fas fa-check-circle") (js "#10b981")
   else if decide (type = js "error") then
     put_icon (js "fas fa-exclamation-circle") (js "#ef4444")
   else mret tt) ;;
  (* Show toast *)
  t ← the_toast;
  put_toast (mkToast (toast_title t) (toast_description t) (toastType t) true) ;;
  (* Hide toast after 5 seconds *)
  setTimeout HideToast 5000.

Definition the_form : M FormEl :=
  d ← gets doc_contactForm;
  deref "contactForm" d.

Definition put_form (f : FormEl) : M unit :=
  modify (λ st, set_doc_contactForm st (Some f)).

Definition the_button : M ButtonEl :=
  f ← the_form;
  deref "submitButton" (submitButton f).

Definition put_button (b : ButtonEl) : M unit :=
  f ← the_form;
  put_form (mkForm (controls f) (Some b)).

(** The submit listener of [contactForm]. *)
Definition onSubmit : M unit :=
  form ← the_form;
  (* Get form data *)
  let data := fromEntries (FormData form) in
  (* Basic validation *)
  if falsy (data !! "firstName") || falsy (data !! "lastName")
     || falsy (data !! "email") || falsy (data !! "message") then
    showToast (js "Error") (js "Please fill in all required fields.") (Some (js "error"))
  else if negb (email_test (to_string (data !! "email"))) then
    showToast (js "Error") (js "Please enter a valid email address.") (Some (js "error"))
  else
    (* Show loading state *)
    b ← the_button;
    let originalText := textContent b in
    put_button (mkButton (js "Sending...") (disabled b)) ;;
    b ← the_button;
    put_button (mkButton (textContent b) true) ;;
    (* Simulate form submission *)
    setTimeout (LegacySettle data originalText) 1000.

(** The callback of that timeout. *)
Definition settle (data : gmap string (list N)) (originalText : list N) : M unit :=
  (* Reset form *)
  f ← the_form;
  put_form (reset f) ;;
  (* Reset button *)
  b ← the_button;
  put_button (mkButton originalText (disabled b)) ;;
  b ← the_button;
  put_button (mkButton (textContent b) false) ;;
  (* Show success message *)
  showToast (js "Success")
    (js "Your message has been sent successfully! We'll get back to you soon.")
    (Some (js "success")) ;;
  (* Log the form data *)
  t ← gets now;
  console_log (js "Contact form submission:")
    (<["timestamp" := IsoDate t]> (Str <$> data)).

End Legacy.

(** ** The event loop

    The browser runs one callback at a time.  An exception that leaves a
    listener is reported and the loop goes on; an exception that leaves the
    asynchronous [handleFormSubmit] rejects its promise, which nobody
    handles.  Both end up in [uncaught]. *)

Inductive event :=
| EClick (current : target) (on_current : bool)
    (* on_current: e.target is the node the listener is on, not a descendant *)
| ESubmit
| EScroll
| EKeydown (key : list N).

Definition event_target (ev : event) : target :=
  match ev with
  | EClick t _ => t
  | ESubmit => TForm
  | EScroll => TWindow
  | EKeydown _ => TDocument
  end.

Definition event_kind (ev : event) : event_type :=
  match ev with
  | EClick _ _ => EvClick
  | ESubmit => EvSubmit
  | EScroll => EvScroll
  | EKeydown _ => EvKeydown
  end.

#[export] Instance target_eq_dec : EqDecision target.
Proof. solve_decision. Defined.
#[export] Instance event_type_eq_dec : EqDecision event_type.
Proof. solve_decision. Defined.

Definition call (h : handler) (ev : event) : M unit :=
  match h, ev with
  | OnToggleClick, _ => App.toggleMobileMenu true
  | OnCloseClick, _ => App.toggleMobileMenu false
  | OnOverlayClick, EClick _ on_current =>
      if on_current then App.toggleMobileMenu false else mret tt
  | OnMobileNavLinkClick, _ => App.toggleMobileMenu false
  | OnAnchorClick, EClick (TNavLink i) _ => App.handleSmoothScroll i
  | OnFormSubmit, _ => App.handleFormSubmit
  | OnScroll, _ => App.throttledScrollHandler
  | OnKeydown, EKeydown key => App.handleKeyboard key
  | _, _ => mret tt
  end.

Definition fire (t : task) : M unit :=
  match t with
  | HideToast =>
      t ← App.the_toast;
      App.put_toast (mkToast (toast_title t) (toast_description t) (toastType t) false)
  | ThrottleOff => modify (λ st, set_inThrottle st false)
  | ResumeSubmit data originalButtonText =>
      App.handleFormSubmit_resume data originalButtonText
  | FadeIn =>
      modify (λ st, set_body_transition st (Some (js "opacity 0.4s ease-in"))) ;;
      modify (λ st, set_body_opacity st (Some (js "1")))
  | LegacySettle data originalText => Legacy.settle data originalText
  | LegacyHideToast =>
      t ← Legacy.the_toast;
      Legacy.put_toast (mkToast (toast_title t) (toast_description t) (toastType t) false)
  end.

(** Run a callback to its end; an exception is reported, not propagated. *)
Definition catching (m : M unit) (st : State) : State :=
  match m st with
  | (Ok _, st') => st'
  | (Throw e, st') => set_uncaught st' (uncaught st' ++ [e])
  end.

Definition dispatch (ev : event) (st : State) : State :=
  foldl (λ st' l, catching (call l.2 ev) st') st
    (filter (λ l, l.1.1 = event_target ev ∧ l.1.2 = event_kind ev) (listeners st)).

Inductive action :=
| Click (t : target) (on_target : bool)
| Scroll (y : Z)                         (* the viewport moves to y and a scroll event is sent *)
| Submit
| Keydown (key : list N)
| Input (name : string) (value : list N) (* the visitor edits a form control *)
| Intersect (i : nat)                    (* card i enters the observed area *)
| Elapse (dt : Z)                        (* time passes *)
| Fire (i : nat)                         (* the i-th pending timer, being due, runs *)
| Frame.                                 (* the next animation frame *)

Definition edit (name : string) (value : list N) (f : FormEl) : FormEl :=
  mkForm ((λ c, if decide (ctl_name c = name)
                then mkControl (ctl_name c) value (ctl_default c) else c)
            <$> controls f)
         (submitButton f).

(** One turn of the loop after the page is ready; [None] when the action
    cannot happen in this state (time running backwards, a timer that is
    not due). *)
Definition step (a : action) (st : State) : option State :=
  match a with
  | Click t on_target => Some (dispatch (EClick t on_target) st)
  | Scroll y => Some (dispatch EScroll (set_scrollY st y))
  | Submit => Some (dispatch ESubmit st)
  | Keydown key => Some (dispatch (EKeydown key) st)
  | Input name value => Some (set_doc_contactForm st (edit name value <$> doc_contactForm st))
  | Intersect i =>
      if bool_decide (i ∈ observed st)
      then Some (catching (App.observerCallback i true) st) else Some st
  | Elapse dt => if bool_decide (0 ≤ dt) then Some (set_now st (now st + dt)) else None
  | Fire i =>
      match timers st !! i with
      | Some (due, t) =>
          if bool_decide (due ≤ now st)
          then Some (catching (fire t) (set_timers st (delete i (timers st))))
          else None
      | None => None
      end
  | Frame => Some (foldl (λ st' t, catching (fire t) st') (set_frames st []) (frames st))
  end.

Fixpoint run (tr : list action) (st : State) : option State :=
  match tr with
  | [] => Some st
  | a :: tr' =>
      match step a st with
      | Some st' => run tr' st'
      | None => None
      end
  end.

(** A freshly loaded page, before the script has run: the document as
    given, nothing cached, bound or pending. *)
Definition no_elements : Elements :=
  mkElements None None None None None None None None None None.

Definition load (hdr : option HeaderEl) (toggle overlay close : bool)
    (form : option FormEl) (tst : option ToastEl) (icon : option IconEl)
    (hero : option HeroEl) (anchors : list (list N * bool)) (mobileLinks : nat)
    (cards : list bool) : State :=
  mkState hdr toggle overlay close form tst icon hero anchors mobileLinks cards
    false None None 0 [] [] no_elements false [] [] [] 0 [] [] [] [].

(** [document.addEventListener('DOMContentLoaded', () => App.init())]: the
    page becomes ready once, and [init] runs as its listener. *)
Definition boot (st : State) : State := catching App.init st.

(** A contact form with the five fields the script reads and a submit
    button; every default is empty. *)
Definition contact_form (firstName lastName email service message : list N) : FormEl :=
  mkForm [ mkControl "firstName" firstName [];
           mkControl "lastName" lastName [];
           mkControl "email" email [];
           mkControl "service" service [];
           mkControl "message" message [] ]
         (Some (mkButton (js "Send Message") false)).

Definition empty_toast : ToastEl := mkToast (Some []) (Some []) None false.

(** ** The email pattern in the words of the specification

    "local@domain.tld (one "@", at least one "." after it, no
    whitespace)": three non-empty parts around an "@" and a ".", the "@"
    being the only one of the string. *)
Definition email_pattern (s : list N) : Prop :=
  ∃ local domain tld,
    s = local ++ [at_sign] ++ domain ++ [full_stop] ++ tld
    ∧ local ≠ [] ∧ domain ≠ [] ∧ tld ≠ []
    ∧ count_occ N.eq_dec s at_sign = 1%nat
    ∧ Forall (λ c, RegExp.is_space c = false) s.

(** A word of [[^\s@]+]. *)
Definition plain_word (w : list N) : Prop :=
  w ≠ [] ∧ Forall (λ c, RegExp.is_space c = false ∧ c ≠ at_sign) w.

(** ** The submission record in the words of the specification *)

Definition required_fields : list string :=
  ["firstName"; "lastName"; "email"; "message"].

(** A field is empty when the record has no entry for it or the entry is
    the empty string. *)
Definition field_empty (data : gmap string (list N)) (name : string) : Prop :=
  data !! name = None ∨ data !! name = Some [].

(** "All four required fields non-empty, syntactically valid email". *)
Definition well_formed (data : gmap string (list N)) : Prop :=
  (∀ name, name ∈ required_fields → ¬ field_empty data name)
  ∧ ∃ e, data !! "email" = Some e ∧ email_pattern e.

(** The toast and its two text nodes exist and the registry holds the
    toast: [showToast] can write all it writes. *)
Definition toast_ready (st : State) : bool :=
  match toast (elements st), doc_toast st with
  | Some _, Some t =>
      match toast_title t, toast_description t with
      | Some _, Some _ => true
      | _, _ => false
      end
  | _, _ => false
  end.

(** The toast as [showToast] leaves it: the content of the call, visible. *)
Definition shown (a : ToastArgs) : ToastEl :=
  mkToast (Some (title a)) (Some (message a))
    (Some (default (js "success") (type a))) true.

(** The submit button of the contact form, if both exist. *)
Definition button_of (st : State) : option ButtonEl :=
  doc_contactForm st ≫= submitButton.

(** The task of a timer without the values it carries. *)
Inductive task_kind :=
| KHideToast | KThrottleOff | KResumeSubmit | KFadeIn | KLegacySettle | KLegacyHideToast.

Definition kind_of (t : task) : task_kind :=
  match t with
  | HideToast => KHideToast
  | ThrottleOff => KThrottleOff
  | ResumeSubmit _ _ => KResumeSubmit
  | FadeIn => KFadeIn
  | LegacySettle _ _ => KLegacySettle
  | LegacyHideToast => KLegacyHideToast
  end.

(** ** The throttle in the words of the specification *)

#[export] Instance handler_eq_dec : EqDecision handler.
Proof. solve_decision. Defined.

(** Consecutive runs of the handler are at least one window apart. *)
Definition spaced (limit : Z) (history : list (Z * Z)) : Prop :=
  ∀ i a b, history !! i = Some a → history !! S i = Some b → a.1 + limit ≤ b.1.

Definition is_off (p : Z * task) : bool :=
  match p.2 with
  | ThrottleOff => true
  | _ => false
  end.

(** The time of the latest run of [handleScroll]. *)
Definition last_handled (st : State) : option Z := fst <$> last (scroll_handled st).

(** The listeners that concern scroll events: those on the window's scroll
    event, and wherever the throttled handler is registered. *)
Definition scroll_listeners (st : State) : list (target * event_type * handler) :=
  filter (λ l, l.1 = (TWindow, EvScroll) ∨ l.2 = OnScroll) (listeners st).

(** What the throttle depends on; the other handlers leave it alone. *)
Definition throttle_view (st : State) :=
  (inThrottle st, scroll_handled st, now st, listeners st, elements st,
   doc_header st, frames st, filter is_off (timers st)).

(** A computation that leaves the throttle alone. *)
Definition keeps {A} (m : M A) : Prop :=
  ∀ st, throttle_view (m st).2 = throttle_view st.

(** What holds of the throttle in every state the page can reach. *)
Record throttle_inv (st : State) : Prop := mkThrottleInv {
  inv_header : is_Some (doc_header st);
  inv_registry : scroll_listeners st ≠ [] → is_Some (header (elements st));
  inv_listeners :
    scroll_listeners st = [] ∨ scroll_listeners st = [(TWindow, EvScroll, OnScroll)];
  inv_spaced : spaced App.scrollThrottleLimit (scroll_handled st);
  inv_last :
    ∀ t, last_handled st = Some t →
         t ≤ now st ∧ (inThrottle st = false → t + App.scrollThrottleLimit ≤ now st);
  inv_pending :
    filter is_off (timers st) =
      if inThrottle st
      then option_list ((λ t, (t + App.scrollThrottleLimit, ThrottleOff)) <$> last_handled st)
      else [];
  inv_frames : Forall (λ t, is_off (0, t) = false) (frames st)
}.

(** A console record carries a capture timestamp when one of its values
    is a date. *)
Definition carries_timestamp (e : log_entry) : Prop :=
  match e with
  | ConsoleLog _ payload => ∃ k ms, payload !! k = Some (IsoDate ms)
  | ConsoleError _ _ => False
  end.

(** The standalone script can write its toast: the toast, its two text
    nodes and its icon exist. *)
Definition legacy_toast_ready (st : State) : bool :=
  match doc_toast st, doc_toastIcon st with
  | Some t, Some _ =>
      match toast_title t, toast_description t with
      | Some _, Some _ => true
      | _, _ => false
      end
  | _, _ => false
  end.

(** ** Sample pages

    A page with every node the script looks for, around a given contact
    form, and the same page once the script has started. *)
Abbreviation sample_page form :=
  (load (Some (mkHeader false)) true true true (Some form) (Some empty_toast)
     (Some (mkIcon [] [])) (Some (mkHero None))
     [(js "#services", true); (js "#nowhere", false)] 2 [false; false; false]).

Abbreviation sample_ready form := (boot (sample_page form)).

Definition form_no_email : FormEl :=
  contact_form (js "Ada") (js "Lovelace") [] (js "web") (js "Hello").
Definition form_bad_email : FormEl :=
  contact_form (js "Ada") (js "Lovelace") (js "ada@example") (js "web") (js "Hello").
Definition form_empty_bad_email : FormEl :=
  contact_form [] (js "Lovelace") (js "ada@example") (js "web") (js "Hello").
Definition form_good : FormEl :=
  contact_form (js "Ada") (js "Lovelace") (js "ada@example.org") (js "web") (js "Hello").
(** The same submission from a form without the service selector. *)
Definition form_good_no_service : FormEl :=
  mkForm [ mkControl "firstName" (js "Ada") [];
           mkControl "lastName" (js "Lovelace") [];
           mkControl "email" (js "ada@example.org") [];
           mkControl "message" (js "Hello") [] ]
         (Some (mkButton (js "Send Message") false)).

(** A burst of scroll events on the sample page: two events five
    milliseconds apart, the end of the window, and a third event. *)
Definition sample_scrolls : list action :=
  [Scroll 10; Elapse 5; Scroll 100; Elapse 11; Fire 0; Scroll 120].

(** ** Frames: what a computation leaves alone

    [preserves view m]: whatever [m] does and however it ends, the part of
    the state that [view] shows is as before. *)
Definition preserves {V A} (view : State → V) (m : M A) : Prop :=
  ∀ st, view (m st).2 = view st.

(** What start-up fixes: the listeners and the element registry. *)
Definition wiring (st : State) := (listeners st, elements st).

(** The reveal state of the cards and the set the observer still watches. *)
Definition reveal (st : State) := (doc_cards st, observed st).

(** The fade-in of the page. *)
Definition fade (st : State) := (body_opacity st, body_transition st, frames st).

(** [maintains P m]: [m] keeps the property [P] of the state, however it
    ends. *)
Definition maintains {A} (P : State → Prop) (m : M A) : Prop :=
  ∀ st, P st → P (m st).2.

(** The callbacks [script.js] hands to [setTimeout]. *)
Definition app_timer (t : task) : bool :=
  match t with
  | HideToast | ThrottleOff | ResumeSubmit _ _ => true
  | FadeIn | LegacySettle _ _ | LegacyHideToast => false
  end.

(** The queues hold what [script.js] puts there: its three kinds of
    timers, and the fade-in as the only animation-frame callback. *)
Definition queues_ok (st : State) : Prop :=
  Forall (λ p, app_timer p.2 = true) (timers st)
  ∧ Forall (λ t, t = FadeIn) (frames st).

(** The three stages of the fade-in: the script never got to it, the body
    is hidden and the frame callback is pending, the body is shown. *)
Definition fade_untouched : option (list N) * option (list N) * list task :=
  (None, None, []).
Definition fade_hidden : option (list N) * option (list N) * list task :=
  (Some (js "0"), None, [FadeIn]).
Definition fade_shown : option (list N) * option (list N) * list task :=
  (Some (js "1"), Some (js "opacity 0.4s ease-in"), []).

(** What the header shows and whether the throttle can reopen, in terms of
    the latest run of [handleScroll]. *)
Record scroll_inv (st : State) : Prop := mkScrollInv {
  sinv_throttle : throttle_inv st;
  sinv_busy :
    inThrottle st = true →
    scroll_listeners st = [(TWindow, EvScroll, OnScroll)] ∧ is_Some (last_handled st);
  sinv_header :
    ∀ t y, last (scroll_handled st) = Some (t, y) →
           doc_header st = Some (mkHeader (bool_decide (y > App.headerScrollThreshold)))
}.

(** The page has no header: the registry holds none and the throttle is
    open. *)
Definition headless (st : State) : Prop :=
  inThrottle st = false ∧ header (elements st) = None.

(** A complete page: the registry holds the header and the toast, and the
    document has the header, the toast with its two text nodes, and the
    contact form with its submit button. *)
Definition complete (st : State) : bool :=
  match header (elements st), doc_header st, button_of st with
  | Some _, Some _, Some _ => toast_ready st
  | _, _, _ => false
  end.

(** On a complete page the computation ends without an exception, leaves
    the page complete and reports nothing. *)
Definition clean (m : M unit) : Prop :=
  ∀ st, complete st = true →
        ∃ st', m st = (Ok tt, st') ∧ complete st' = true ∧ uncaught st' = uncaught st.

(** ** The life of a toast *)

Definition toast_visible (st : State) : bool :=
  match doc_toast st with
  | Some t => show t
  | None => false
  end.

(** A visible toast has its end in sight: the script can reach the toast,
    and an auto-hide timer is pending that is due within 5000 ms. *)
Definition toast_expiring (st : State) : Prop :=
  toast_visible st = true →
  toast (elements st) ≠ None
  ∧ ∃ due, (due, HideToast) ∈ timers st ∧ due ≤ now st + 5000.

(** ** The life of a submission *)

Definition button_disabled (st : State) : bool :=
  match button_of st with
  | Some b => disabled b
  | None => false
  end.

(** A disabled submit button has its release in sight: a continuation of
    [handleFormSubmit] is pending that is due within 1000 ms. *)
Definition button_releasing (st : State) : Prop :=
  button_disabled st = true →
  ∃ due data orig, (due, ResumeSubmit data orig) ∈ timers st ∧ due ≤ now st + 1000.

(** ** What reaches the console *)

(** A log record is the record of a well-formed submission, under the
    label of [handleFormSubmit]. *)
Definition logged_ok (e : log_entry) : Prop :=
  match e with
  | ConsoleLog label payload =>
      label = js "Form Submitted:" ∧ ∃ data, payload = Str <$> data ∧ well_formed data
  | ConsoleError _ _ => True
  end.

Definition carries_valid (p : Z * task) : Prop :=
  match p.2 with
  | ResumeSubmit data _ => well_formed data
  | _ => True
  end.

(** Every pending continuation carries a well-formed record, and so does
    every log record. *)
Definition submissions_valid (st : State) : Prop :=
  Forall carries_valid (timers st) ∧ Forall logged_ok (console st).

(** ** The standalone script's [throttle]

    [throttle(func, wait)] of the standalone script returns a closure
    over its variable [timeout].  One such closure is modelled with what
    it lives in: the variable, the timers it has set and that have
    neither fired nor been cleared (the handle [setTimeout] returned, the
    due time, and the arguments that the timer's [later] captured), and
    the clock; the calls of the closure and the calls of [func] are kept
    as history.  [func] is any function that does not call the closure
    itself. *)
Module LegacyThrottle.

Record Closure (Args : Type) := mkClosure {
  wait : Z;
  timeout : option nat;                  (* let timeout; *)
  next_handle : nat;                     (* the handle setTimeout returns next *)
  pending : list (nat * (Z * Args));
  clock : Z;
  requests : list (Z * Args);            (* executedFunction(...args), with the time *)
  func_calls : list (Z * Args)           (* func(...args), with the time *)
}.

Arguments mkClosure {Args}.
Arguments wait {Args}.
Arguments timeout {Args}.
Arguments next_handle {Args}.
Arguments pending {Args}.
Arguments clock {Args}.
Arguments requests {Args}.
Arguments func_calls {Args}.

Section Closure.

Context {Args : Type}.

Definition set_pending (c : Closure Args) (v : list (nat * (Z * Args))) : Closure Args :=
  mkClosure (wait c) (timeout c) (next_handle c) v (clock c) (requests c) (func_calls c).

(** [clearTimeout(handle)]; nothing happens for [undefined] or for a
    timer that is no longer pending. *)
Definition clearTimeout (handle : option nat) (c : Closure Args) : Closure Args :=
  match handle with
  | Some h => set_pending c (filter (λ p, p.1 ≠ h) (pending c))
  | None => c
  end.

(** [timeout = setTimeout(later, wait)], with [args] in [later].  A
    negative delay counts as zero. *)
Definition setTimeout_later (args : Args) (c : Closure Args) : Closure Args :=
  mkClosure (wait c) (Some (next_handle c)) (S (next_handle c))
    (pending c ++ [(next_handle c, (clock c + Z.max 0 (wait c), args))])
    (clock c) (requests c) (func_calls c).

(** The closure that [throttle] returns. *)
Definition executedFunction (args : Args) (c : Closure Args) : Closure Args :=
  let c := mkClosure (wait c) (timeout c) (next_handle c) (pending c) (clock c)
             (requests c ++ [(clock c, args)]) (func_calls c) in
  let c := clearTimeout (timeout c) c in
  setTimeout_later args c.

(** [later], the callback of the timer. *)
Definition later (args : Args) (c : Closure Args) : Closure Args :=
  let c := clearTimeout (timeout c) c in
  mkClosure (wait c) (timeout c) (next_handle c) (pending c) (clock c) (requests c)
    (func_calls c ++ [(clock c, args)]).

Inductive action :=
| Call (args : Args)       (* the closure is called *)
| Elapse (dt : Z)          (* time passes *)
| Fire (i : nat).          (* the i-th pending timer, being due, runs *)

Definition step (a : action) (c : Closure Args) : option (Closure Args) :=
  match a with
  | Call args => Some (executedFunction args c)
  | Elapse dt =>
      if bool_decide (0 ≤ dt)
      then Some (mkClosure (wait c) (timeout c) (next_handle c) (pending c)
                   (clock c + dt) (requests c) (func_calls c))
      else None
  | Fire i =>
      match pending c !! i with
      | Some (h, (due, args)) =>
          if bool_decide (due ≤ clock c)
          then Some (later args (set_pending c (delete i (pending c))))
          else None
      | None => None
      end
  end.

Fixpoint run (tr : list action) (c : Closure Args) : option (Closure Args) :=
  match tr with
  | [] => Some c
  | a :: tr' =>
      match step a c with
      | Some c' => run tr' c'
      | None => None
      end
  end.

(** The closure as [throttle(func, wait)] returns it. *)
Definition fresh (wait : Z) : Closure Args := mkClosure wait None 0 [] 0 [] [].

(** A call of [func] answers a call of the closure when it carries that
    call's arguments, comes [wait] ms or more after it, and no other call
    of the closure came in between. *)
Definition answers (reqs : list (Z * Args)) (wait : Z) (call : Z * Args) : Prop :=
  ∃ i t0,
    reqs !! i = Some (t0, call.2)
    ∧ t0 + wait ≤ call.1
    ∧ ∀ j r, (i < j)%nat → reqs !! j = Some r → call.1 ≤ r.1.

Record debounce_inv (c : Closure Args) : Prop := mkDebounceInv {
  dinv_pending :
    pending c = []
    ∨ ∃ h t a, timeout c = Some h
               ∧ pending c = [(h, (t + Z.max 0 (wait c), a))]
               ∧ last (requests c) = Some (t, a);
  dinv_requests : Forall (λ r, r.1 ≤ clock c) (requests c);
  dinv_calls : Forall (λ r, r.1 ≤ clock c ∧ answers (requests c) (wait c) r) (func_calls c);
  dinv_count : (length (func_calls c) + length (pending c) ≤ length (requests c))%nat
}.

End Closure.

Arguments action : clear implicits.

End LegacyThrottle.

(** * Properties *)

(** ** The matcher decides the language of a regular expression *)

Section RegExpFacts.
Import RegExp.

Lemma lang_seq_inv r1 r2 s :
  lang (Seq r1 r2) s ↔ ∃ s1 s2, s = s1 ++ s2 ∧ lang r1 s1 ∧ lang r2 s2.
Proof.
  split.
  - inversion 1; subst; eauto.
  - intros (s1 & s2 & -> & H1 & H2). by constructor.
Qed.

(** A non-empty word of [r*] starts with a non-empty word of [r]. *)
Lemma lang_star_cons_inv r c s :
  lang (Star r) (c :: s) →
  ∃ s1 s2, s = s1 ++ s2 ∧ lang r (c :: s1) ∧ lang (Star r) s2.
Proof.
  intros H. remember (Star r) as r0 eqn:Hr. remember (c :: s) as w eqn:Hw.
  revert s Hw. induction H as [| | | | |r' s1 s2 H1 _ H2 IH2]; intros s Hw;
    try discriminate.
  injection Hr as ->. destruct s1 as [|c1 s1]; simpl in Hw.
  - by apply IH2.
  - injection Hw as -> <-. eauto.
Qed.

Lemma nullable_lang r : nullable r = true ↔ lang r [].
Proof.
  induction r as [| | | |r1 IH1 r2 IH2|r IH]; simpl.
  - split; [done | inversion 1].
  - split; [constructor | done].
  - split; [done | inversion 1].
  - split; [done | inversion 1].
  - rewrite andb_true_iff, IH1, IH2, lang_seq_inv. split.
    + intros [H1 H2]. by exists [], [].
    + intros (s1 & s2 & Hs & H1 & H2).
      symmetry in Hs. apply app_eq_nil in Hs as [-> ->]. done.
  - split; [constructor | done].
Qed.

Lemma deriv_sound c r : ∀ r' s, r' ∈ deriv c r → lang r' s → lang r (c :: s).
Proof.
  induction r as [| |d|items|r1 IH1 r2 IH2|r IH]; simpl; intros r' s Hin Hl.
  - by apply elem_of_nil in Hin.
  - by apply elem_of_nil in Hin.
  - destruct (N.eqb_spec c d) as [->|]; [|by apply elem_of_nil in Hin].
    apply list_elem_of_singleton in Hin as ->. inversion Hl; subst. constructor.
  - destruct (class_mem c items) eqn:Hc; [by apply elem_of_nil in Hin|].
    apply list_elem_of_singleton in Hin as ->. inversion Hl; subst. by constructor.
  - apply elem_of_app in Hin as [Hin|Hin].
    + apply list_elem_of_fmap in Hin as (r1' & -> & Hin).
      apply lang_seq_inv in Hl as (s1 & s2 & -> & H1 & H2).
      change (lang (Seq r1 r2) ((c :: s1) ++ s2)). constructor; eauto.
    + destruct (nullable r1) eqn:Hn; [|by apply elem_of_nil in Hin].
      apply nullable_lang in Hn.
      change (lang (Seq r1 r2) ([] ++ c :: s)). constructor; eauto.
  - apply list_elem_of_fmap in Hin as (r1' & -> & Hin).
    apply lang_seq_inv in Hl as (s1 & s2 & -> & H1 & H2).
    change (lang (Star r) ((c :: s1) ++ s2)). constructor; eauto.
Qed.

Lemma deriv_complete c r : ∀ s, lang r (c :: s) → ∃ r', r' ∈ deriv c r ∧ lang r' s.
Proof.
  induction r as [| |d|items|r1 IH1 r2 IH2|r IH]; simpl; intros s Hl.
  - inversion Hl.
  - inversion Hl.
  - inversion Hl; subst. rewrite N.eqb_refl. exists Empty.
    split; [by apply list_elem_of_singleton | constructor].
  - inversion Hl as [| |? ? Hc| | |]; subst. rewrite Hc. exists Empty.
    split; [by apply list_elem_of_singleton | constructor].
  - apply lang_seq_inv in Hl as (s1 & s2 & Hs & H1 & H2).
    destruct s1 as [|c1 s1]; simpl in Hs.
    + subst s2. destruct (IH2 _ H2) as (r' & Hin & Hl').
      exists r'. split; [|done]. apply elem_of_app. right.
      apply nullable_lang in H1. by rewrite H1.
    + injection Hs as <- ->. destruct (IH1 _ H1) as (r' & Hin & Hl').
      exists (Seq r' r2). split; [|by constructor].
      apply elem_of_app. left. apply list_elem_of_fmap. eauto.
  - apply lang_star_cons_inv in Hl as (s1 & s2 & -> & H1 & H2).
    destruct (IH _ H1) as (r' & Hin & Hl').
    exists (Seq r' (Star r)). split; [|by constructor].
    apply list_elem_of_fmap. eauto.
Qed.

Lemma run_lang s : ∀ rs, run rs s = true ↔ ∃ r, r ∈ rs ∧ lang r s.
Proof.
  induction s as [|c s IH]; simpl; intros rs.
  - rewrite existsb_exists. split.
    + intros (r & Hin & Hn). exists r. split; [by apply list_elem_of_In|].
      by apply nullable_lang.
    + intros (r & Hin & Hl). exists r. split; [by apply list_elem_of_In|].
      by apply nullable_lang.
  - rewrite IH. split.
    + intros (r' & Hin & Hl). apply list_elem_of_bind in Hin as (r & Hin & Hr).
      exists r. split; [done|]. eapply deriv_sound; eauto.
    + intros (r & Hin & Hl). destruct (deriv_complete _ _ _ Hl) as (r' & Hin' & Hl').
      exists r'. split; [|done]. apply list_elem_of_bind. eauto.
Qed.

Lemma test_lang r s : test r s = true ↔ lang r s.
Proof.
  unfold test. rewrite run_lang. split.
  - intros (r' & Hin & Hl). by apply list_elem_of_singleton in Hin as ->.
  - intros Hl. exists r. split; [by apply list_elem_of_singleton | done].
Qed.

End RegExpFacts.

(** ** The email pattern *)

Section EmailFacts.
Import RegExp.

Lemma not_space_at_mem c :
  class_mem c [CSpace; CChar at_sign] = false ↔ is_space c = false ∧ c ≠ at_sign.
Proof.
  unfold class_mem; simpl. rewrite orb_false_r, orb_false_iff.
  by rewrite N.eqb_neq.
Qed.

Lemma lang_star_class items s :
  lang (Star (NotIn items)) s ↔ Forall (λ c, class_mem c items = false) s.
Proof.
  split.
  - intros H. remember (Star (NotIn items)) as r eqn:Hr.
    induction H as [| | | | |r' s1 s2 H1 _ H2 IH2]; try discriminate.
    + constructor.
    + injection Hr as ->. inversion H1; subst. constructor; auto.
  - induction 1 as [|c s Hc _ IH].
    + constructor.
    + change (lang (Star (NotIn items)) ([c] ++ s)).
      constructor; [by constructor | done].
Qed.

Lemma lang_plus_class s : lang (Plus not_space_at) s ↔ plain_word s.
Proof.
  unfold Plus, not_space_at, plain_word. rewrite lang_seq_inv. split.
  - intros (s1 & s2 & -> & H1 & H2). inversion H1 as [| |? c Hc| | |]; subst.
    split; [done|]. apply lang_star_class in H2. constructor.
    + by apply not_space_at_mem.
    + eapply Forall_impl; [exact H2|]. intros x. apply not_space_at_mem.
  - intros [Hne Hall]. destruct s as [|c s]; [done|].
    inversion Hall as [|? ? Hc Hs]; subst. exists [c], s. split; [done|]. split.
    + constructor. by apply not_space_at_mem.
    + apply lang_star_class. eapply Forall_impl; [exact Hs|].
      intros x. apply not_space_at_mem.
Qed.

Lemma lang_chr_inv c s : lang (Chr c) s ↔ s = [c].
Proof. split; [inversion 1; done | intros ->; constructor]. Qed.

Lemma email_lang s :
  lang email_re s ↔
  ∃ l d t, s = l ++ [at_sign] ++ d ++ [full_stop] ++ t
           ∧ plain_word l ∧ plain_word d ∧ plain_word t.
Proof.
  unfold email_re. split.
  - intros H.
    apply lang_seq_inv in H as (l & s1 & -> & Hl & H).
    apply lang_seq_inv in H as (a & s2 & -> & Ha & H).
    apply lang_seq_inv in H as (d & s3 & -> & Hd & H).
    apply lang_seq_inv in H as (p & t & -> & Hp & Ht).
    apply lang_chr_inv in Ha as ->. apply lang_chr_inv in Hp as ->.
    exists l, d, t. by rewrite <- !lang_plus_class.
  - intros (l & d & t & -> & Hl & Hd & Ht).
    repeat (constructor; try by apply lang_plus_class).
Qed.

Lemma plain_word_count w :
  Forall (λ c, is_space c = false ∧ c ≠ at_sign) w →
  count_occ N.eq_dec w at_sign = 0%nat.
Proof.
  intros H. apply count_occ_not_In. intros Hin.
  rewrite Forall_forall in H. apply list_elem_of_In in Hin.
  by destruct (H _ Hin).
Qed.

Lemma count_zero_plain w :
  count_occ N.eq_dec w at_sign = 0%nat →
  Forall (λ c, is_space c = false) w →
  Forall (λ c, is_space c = false ∧ c ≠ at_sign) w.
Proof.
  intros Hc Hs. apply count_occ_not_In in Hc.
  rewrite Forall_forall in *. intros c Hin. split; [by apply Hs|].
  intros ->. apply Hc. by apply list_elem_of_In.
Qed.

Lemma email_test_pattern s : email_test s = true ↔ email_pattern s.
Proof.
  unfold email_test, email_pattern. rewrite test_lang, email_lang. split.
  - intros (l & d & t & -> & [Hl Al] & [Hd Ad] & [Ht At]).
    exists l, d, t. repeat split; try done.
    + rewrite !count_occ_app; simpl.
      rewrite (plain_word_count l), (plain_word_count d), (plain_word_count t) by done.
      reflexivity.
    + rewrite !Forall_app. repeat split.
      * eapply Forall_impl; [exact Al|]. by intros ? [? _].
      * by repeat constructor.
      * eapply Forall_impl; [exact Ad|]. by intros ? [? _].
      * by repeat constructor.
      * eapply Forall_impl; [exact At|]. by intros ? [? _].
  - intros (l & d & t & -> & Hl & Hd & Ht & Hc & Hs).
    exists l, d, t. split; [done|].
    rewrite !count_occ_app in Hc; simpl in Hc.
    rewrite !Forall_app in Hs. destruct Hs as (Sl & _ & Sd & _ & St).
    unfold plain_word.
    repeat split; try done; apply count_zero_plain; try done; lia.
Qed.

End EmailFacts.

Example email_empty_local : email_test (js "@b.com") = false.
Proof. reflexivity. Qed.

Example email_empty_domain : email_test (js "a@.b") = false.
Proof. reflexivity. Qed.

Example email_empty_tld : email_test (js "a@b.") = false.
Proof. reflexivity. Qed.

Example email_two_ats : email_test (js "a@b@c.de") = false.
Proof. reflexivity. Qed.

Example email_many_dots : email_test (js "first.last@mail.example.org") = true.
Proof. reflexivity. Qed.

Example email_no_break_space : email_test (js "a@b.c" ++ [160%N]) = false.
Proof. reflexivity. Qed.

(** C5: the email validator of [handleFormSubmit] accepts "a@b.co", rejects
    "a@b" and "a b@c.com", and in general accepts exactly the strings of
    the shape local@domain.tld that hold a single "@", a "." after it and
    no whitespace. *)
Theorem email_validator_accepts_exactly_pattern :
  email_test (js "a@b.co") = true
  ∧ email_test (js "a@b") = false
  ∧ email_test (js "a b@c.com") = false
  ∧ ∀ s, email_test s = true ↔ email_pattern s.
Proof.
  split; [reflexivity|]. split; [reflexivity|]. split; [reflexivity|].
  apply email_test_pattern.
Qed.

(** ** The toast *)

Ltac destruct_state st :=
  let els := fresh "els" in
  destruct st as [? ? ? ? ? ? ? ? ? ? ? ? ? ? ? ? ? els ? ? ? ? ? ? ? ? ?];
  destruct els as [? ? ? ? ? ? ? ? ? ?].

Ltac eval_script := cbv -[Z.add app js default fmap fromEntries FormData lookup insert].

Lemma showToast_ready a st :
  toast_ready st = true →
  App.showToast a st =
    (Ok tt, set_timers (set_doc_toast st (Some (shown a)))
              (timers st ++ [(now st + 5000, HideToast)])).
Proof.
  unfold toast_ready. intros H. destruct_state st. cbn in H.
  destruct toast0, doc_toast0 as [[[x|] [y|] ty sh]|]; done.
Qed.

(** Whatever happens, [showToast] writes the toast and the timer queue
    only, and queues at most its own auto-hide. *)
Lemma showToast_frame a st :
  ∃ r t' tm, App.showToast a st = (r, set_timers (set_doc_toast st t') tm)
    ∧ (tm = timers st ∨ tm = timers st ++ [(now st + 5000, HideToast)]).
Proof.
  destruct_state st.
  destruct toast0, doc_toast0 as [[[x|] [y|] ty sh]|]; eval_script;
    match goal with
    | |- ∃ r t' tm, (?R, ?S) = _ ∧ _ => exists R, (doc_toast S), (timers S)
    end; eval_script; auto.
Qed.

(** ** The submission pipeline *)

Section FormFacts.

Local Abbreviation missing data :=
  (falsy (data !! "firstName") || falsy (data !! "lastName")
   || falsy (data !! "email") || falsy (data !! "message")).

Lemma falsy_empty (data : gmap string (list N)) name :
  falsy (data !! name) = true ↔ field_empty data name.
Proof.
  unfold field_empty. destruct (data !! name) as [[|c s]|]; simpl.
  - split; auto.
  - split; [done | by intros [?|?]].
  - split; auto.
Qed.

Lemma missing_true (data : gmap string (list N)) :
  missing data = true ↔ ∃ name, name ∈ required_fields ∧ field_empty data name.
Proof.
  rewrite !orb_true_iff, !falsy_empty. unfold required_fields. split.
  - intros [[[H|H]|H]|H]; eexists; (split; [|exact H]); set_solver.
  - intros (name & Hin & H).
    repeat (apply elem_of_cons in Hin as [->|Hin]; [tauto|]).
    by apply elem_of_nil in Hin.
Qed.

Lemma missing_false (data : gmap string (list N)) :
  missing data = false ↔ ∀ name, name ∈ required_fields → ¬ field_empty data name.
Proof.
  rewrite <- not_true_iff_false, missing_true. split.
  - intros Hn name Hin He. apply Hn. eauto.
  - intros Hall (name & Hin & He). by apply (Hall name).
Qed.

Lemma well_formed_checks (data : gmap string (list N)) :
  well_formed data →
  missing data = false ∧ email_test (to_string (data !! "email")) = true.
Proof.
  intros [Hreq (e & He & Hpat)]. split; [by apply missing_false|].
  rewrite He. by apply email_test_pattern.
Qed.

Lemma handleFormSubmit_missing st f :
  doc_contactForm st = Some f →
  missing (fromEntries (FormData f)) = true →
  App.handleFormSubmit st = App.showToast App.missing_fields_toast st.
Proof.
  intros Hf Hm. unfold App.handleFormSubmit, App.the_form.
  cbv [mbind M_bind gets deref mret M_ret]. rewrite Hf, Hm. reflexivity.
Qed.

Lemma handleFormSubmit_invalid st f :
  doc_contactForm st = Some f →
  missing (fromEntries (FormData f)) = false →
  email_test (to_string (fromEntries (FormData f) !! "email")) = false →
  App.handleFormSubmit st = App.showToast App.invalid_email_toast st.
Proof.
  intros Hf Hm He. unfold App.handleFormSubmit, App.the_form.
  cbv [mbind M_bind gets deref mret M_ret]. rewrite Hf, Hm, He. reflexivity.
Qed.

Lemma handleFormSubmit_accept st f b :
  doc_contactForm st = Some f →
  submitButton f = Some b →
  missing (fromEntries (FormData f)) = false →
  email_test (to_string (fromEntries (FormData f) !! "email")) = true →
  App.handleFormSubmit st =
    (Ok tt,
     set_timers
       (set_doc_contactForm st
          (Some (mkForm (controls f) (Some (mkButton (js "Sending...") true)))))
       (timers st ++
          [(now st + 1000, ResumeSubmit (fromEntries (FormData f)) (textContent b))])).
Proof.
  intros Hf Hb Hm He. unfold App.handleFormSubmit, App.the_form.
  cbv [mbind M_bind gets deref mret M_ret]. rewrite Hf, Hm, He.
  destruct_state st. destruct f as [cs sb]. simpl in Hf, Hb. subst.
  reflexivity.
Qed.

Lemma resume_success data orig st f b :
  doc_contactForm st = Some f →
  submitButton f = Some b →
  toast_ready st = true →
  App.handleFormSubmit_resume data orig st =
    (Ok tt,
     set_doc_contactForm
       (set_timers
          (set_doc_toast
             (set_console st
                (console st ++ [ConsoleLog (js "Form Submitted:") (Str <$> data)]))
             (Some (shown App.success_toast)))
          (timers st ++ [(now st + 5000, HideToast)]))
       (Some (mkForm (controls (reset f)) (Some (mkButton orig false))))).
Proof.
  intros Hf Hb Ht. unfold toast_ready in Ht.
  destruct_state st. destruct f as [cs sb]. cbn in Hf, Hb, Ht. subst.
  destruct toast0, doc_toast0 as [[[x|] [y|] ty sh]|]; done.
Qed.

Lemma handleFormSubmit_no_button st f :
  doc_contactForm st = Some f →
  submitButton f = None →
  missing (fromEntries (FormData f)) = false →
  email_test (to_string (fromEntries (FormData f) !! "email")) = true →
  App.handleFormSubmit st = (Throw (TypeError "submitButton"), st).
Proof.
  intros Hf Hb Hm He. unfold App.handleFormSubmit, App.the_form.
  cbv [mbind M_bind gets deref mret M_ret]. rewrite Hf, Hm, He.
  destruct_state st. destruct f as [cs sb]. simpl in Hf, Hb. subst.
  reflexivity.
Qed.

(** [showToast] does not look at the form. *)
Lemma showToast_set_form a st v :
  App.showToast a (set_doc_contactForm st v) =
    ((App.showToast a st).1, set_doc_contactForm (App.showToast a st).2 v).
Proof.
  destruct_state st.
  destruct toast0, doc_toast0 as [[[x|] [y|] ty sh]|]; reflexivity.
Qed.

(** When the toast cannot be written, the [try] fails, the [catch] fails
    as well, and the form keeps its contents. *)
Lemma resume_failure data orig st f b :
  doc_contactForm st = Some f →
  submitButton f = Some b →
  toast_ready st = false →
  ∃ e, (App.handleFormSubmit_resume data orig st).1 = Throw e
       ∧ controls <$> doc_contactForm (App.handleFormSubmit_resume data orig st).2
         = Some (controls f).
Proof.
  intros Hf Hb Ht. unfold toast_ready in Ht.
  destruct_state st. destruct f as [cs sb]. cbn in Hf, Hb, Ht. subst.
  destruct toast0, doc_toast0 as [[[x|] [y|] ty sh]|]; try done;
    eexists; split; reflexivity.
Qed.

(** The submission record only reaches the console. *)
Lemma resume_data_only_logged d1 d2 orig st :
  (App.handleFormSubmit_resume d1 orig st).1 = (App.handleFormSubmit_resume d2 orig st).1
  ∧ set_console (App.handleFormSubmit_resume d1 orig st).2 []
    = set_console (App.handleFormSubmit_resume d2 orig st).2 [].
Proof.
  destruct_state st.
  destruct doc_contactForm0 as [[cs [b|]]|], toast0, doc_toast0 as [[[x|] [y|] ty sh]|];
    split; reflexivity.
Qed.

(** The [finally] block: whatever the [try] and the [catch] did, the
    button ends with the label handed over and enabled. *)
Lemma resume_restores data orig st f b :
  doc_contactForm st = Some f →
  submitButton f = Some b →
  button_of (App.handleFormSubmit_resume data orig st).2 = Some (mkButton orig false).
Proof.
  intros Hf Hb. destruct_state st. destruct f as [cs sb]. cbn in Hf, Hb. subst.
  destruct toast0, doc_toast0 as [[[x|] [y|] ty sh]|]; reflexivity.
Qed.

End FormFacts.

(** C4: a submission in which one of the four required fields is empty is
    rejected inside the submit event: the handler does exactly one
    [showToast] call, for the missing-fields error, the form (fields and
    button) is as before and no one-second delay is queued.  When the toast
    exists it ends up visible with the error content and a single
    auto-hide timer. *)
Theorem missing_required_field_rejected st f name :
  doc_contactForm st = Some f →
  name ∈ required_fields →
  field_empty (fromEntries (FormData f)) name →
  App.handleFormSubmit st = App.showToast App.missing_fields_toast st
  ∧ doc_contactForm (App.handleFormSubmit st).2 = Some f
  ∧ (timers (App.handleFormSubmit st).2 = timers st
     ∨ timers (App.handleFormSubmit st).2 = timers st ++ [(now st + 5000, HideToast)])
  ∧ (toast_ready st = true →
     (App.handleFormSubmit st).1 = Ok tt
     ∧ doc_toast (App.handleFormSubmit st).2
       = Some (mkToast (Some (js "Error"))
                 (Some (js "Please fill in all required fields."))
                 (Some (js "error")) true)
     ∧ timers (App.handleFormSubmit st).2 = timers st ++ [(now st + 5000, HideToast)]).
Proof.
  intros Hf Hin He.
  assert (Hm : App.handleFormSubmit st = App.showToast App.missing_fields_toast st).
  { apply (handleFormSubmit_missing st f Hf). apply missing_true. eauto. }
  rewrite Hm. split; [done|].
  destruct (showToast_frame App.missing_fields_toast st) as (r & t' & tm & Hs & Htm).
  split; [by rewrite Hs|]. split; [by rewrite Hs|].
  intros Hr. by rewrite showToast_ready.
Qed.

Lemma missing_required_field_rejected_witness :
  App.handleFormSubmit (sample_ready form_no_email)
  = App.showToast App.missing_fields_toast (sample_ready form_no_email).
Proof.
  apply (missing_required_field_rejected (sample_ready form_no_email)
           form_no_email "email").
  - reflexivity.
  - unfold required_fields. set_solver.
  - right. reflexivity.
Defined.


(** C9: the required-field check comes first.  A submission that misses a
    required field gets the missing-fields toast whatever its email looks
    like, also when the email is malformed; and when a submission is
    answered with the invalid-email toast, all four required fields are
    non-empty. *)
Theorem required_fields_checked_before_email st f :
  doc_contactForm st = Some f →
  toast_ready st = true →
  ((∃ name, name ∈ required_fields ∧ field_empty (fromEntries (FormData f)) name) →
   email_test (to_string (fromEntries (FormData f) !! "email")) = false →
   App.handleFormSubmit st = App.showToast App.missing_fields_toast st
   ∧ doc_toast (App.handleFormSubmit st).2 = Some (shown App.missing_fields_toast)
   ∧ doc_toast (App.handleFormSubmit st).2 ≠ Some (shown App.invalid_email_toast))
  ∧ (doc_toast (App.handleFormSubmit st).2 = Some (shown App.invalid_email_toast) →
     ∀ name, name ∈ required_fields → ¬ field_empty (fromEntries (FormData f)) name).
Proof.
  intros Hf Hr.
  assert (Hmiss : (∃ name, name ∈ required_fields
                           ∧ field_empty (fromEntries (FormData f)) name) →
                  App.handleFormSubmit st = App.showToast App.missing_fields_toast st
                  ∧ doc_toast (App.handleFormSubmit st).2
                    = Some (shown App.missing_fields_toast)).
  { intros Hm. apply missing_true in Hm.
    rewrite (handleFormSubmit_missing st f Hf Hm), showToast_ready by done. done. }
  split.
  - intros Hm _. destruct (Hmiss Hm) as [H1 H2]. rewrite H2. done.
  - intros Ht. apply missing_false. apply not_true_is_false. intros Hm.
    apply missing_true in Hm. destruct (Hmiss Hm) as [_ H2].
    rewrite H2 in Ht. discriminate.
Qed.

Lemma required_fields_checked_before_email_witness :
  App.handleFormSubmit (sample_ready form_empty_bad_email)
  = App.showToast App.missing_fields_toast (sample_ready form_empty_bad_email).
Proof.
  apply (required_fields_checked_before_email
           (sample_ready form_empty_bad_email) form_empty_bad_email).
  - reflexivity.
  - reflexivity.
  - exists "firstName". split; [unfold required_fields; set_solver | right; reflexivity].
  - reflexivity.
Defined.

(** C6: a well-formed submission passes validation and queues the
    one-second delay; the continuation cannot run before the delay is over,
    runs once it is, and then follows the success path: no exception, the
    success toast is shown and every form field is back at its default
    (empty when the defaults are). *)
Theorem well_formed_submission_succeeds st f b :
  doc_contactForm st = Some f →
  submitButton f = Some b →
  well_formed (fromEntries (FormData f)) →
  ∃ st1 continuation,
    continuation = ResumeSubmit (fromEntries (FormData f)) (textContent b)
    ∧ App.handleFormSubmit st = (Ok tt, st1)
    ∧ timers st1 = timers st ++ [(now st + 1000, continuation)]
    ∧ doc_toast st1 = doc_toast st
    ∧ ∀ st2 f2 b2 i,
        timers st2 !! i = Some (now st + 1000, continuation) →
        doc_contactForm st2 = Some f2 →
        submitButton f2 = Some b2 →
        toast_ready st2 = true →
        (is_Some (step (Fire i) st2) ↔ now st + 1000 ≤ now st2)
        ∧ ∀ st3, step (Fire i) st2 = Some st3 →
            uncaught st3 = uncaught st2
            ∧ doc_toast st3
              = Some (mkToast (Some (js "Success"))
                        (Some (js "Your message has been sent successfully!"))
                        (Some (js "success")) true)
            ∧ ∃ f3, doc_contactForm st3 = Some f3
                ∧ ctl_name <$> controls f3 = ctl_name <$> controls f2
                ∧ Forall (λ c, ctl_value c = ctl_default c) (controls f3)
                ∧ (Forall (λ c, ctl_default c = []) (controls f2) →
                   Forall (λ c, ctl_value c = []) (controls f3)).
Proof.
  intros Hf Hb Hw. destruct (well_formed_checks _ Hw) as [Hm He].
  eexists _, _. split; [reflexivity|].
  rewrite (handleFormSubmit_accept st f b Hf Hb Hm He).
  split; [reflexivity|]. split; [reflexivity|]. split; [reflexivity|].
  intros st2 f2 b2 i Hi Hf2 Hb2 Hr2. unfold step. rewrite Hi. split.
  - case_bool_decide; split; intros H'; try done; by destruct H'.
  - intros st3 Hst. case_bool_decide; [|done]. injection Hst as <-.
    unfold catching, fire.
    rewrite (resume_success _ _ (set_timers st2 (delete i (timers st2))) f2 b2)
      by done.
    split; [reflexivity|]. split; [reflexivity|].
    eexists. split; [reflexivity|]. simpl.
    rewrite <- list_fmap_compose. split; [reflexivity|].
    split.
    + apply Forall_fmap. by apply Forall_true.
    + intros Hd. apply Forall_fmap. eapply Forall_impl; [exact Hd|]. done.
Qed.


Lemma form_good_well_formed : well_formed (fromEntries (FormData form_good)).
Proof.
  split.
  - intros name Hin. unfold required_fields in Hin.
    repeat (apply elem_of_cons in Hin as [->|Hin]; [by intros [H|H]; vm_compute in H|]).
    by apply elem_of_nil in Hin.
  - exists (js "ada@example.org"). split; [reflexivity|].
    by apply email_test_pattern.
Qed.

Lemma well_formed_submission_succeeds_witness :
  ∃ st1 continuation,
    continuation = ResumeSubmit (fromEntries (FormData form_good)) (js "Send Message")
    ∧ App.handleFormSubmit (sample_ready form_good) = (Ok tt, st1)
    ∧ timers st1 = [(1000, continuation)].
Proof.
  destruct (well_formed_submission_succeeds (sample_ready form_good) form_good
              (mkButton (js "Send Message") false) eq_refl eq_refl
              form_good_well_formed)
    as (st1 & k & Hk & Hrun & Htm & _).
  exists st1, k. auto.
Defined.

(** The whole pipeline on the sample page: submit, wait a second, let the
    timer fire. *)
Example submit_good_run :
  ∃ st, run [Submit; Elapse 1000; Fire 0] (sample_ready form_good) = Some st
        ∧ fmap ctl_value ∘ controls <$> doc_contactForm st = Some [[]; []; []; []; []]
        ∧ button_of st = Some (mkButton (js "Send Message") false)
        ∧ doc_toast st = Some (shown App.success_toast)
        ∧ uncaught st = [].
Proof. eexists. split; [vm_compute; reflexivity|]. repeat split. Qed.

(** C8: a submission that passed validation disables the button, and
    whenever its continuation runs, the button ends with the label it had
    at submit time and enabled again: on the success path (the toast can be
    written) and on the failure path (it cannot, the [try] throws, and the
    form keeps its contents). *)
Theorem submit_button_restored st f b :
  doc_contactForm st = Some f →
  submitButton f = Some b →
  well_formed (fromEntries (FormData f)) →
  ∃ st1 continuation,
    continuation = ResumeSubmit (fromEntries (FormData f)) (textContent b)
    ∧ App.handleFormSubmit st = (Ok tt, st1)
    ∧ button_of st1 = Some (mkButton (js "Sending...") true)
    ∧ timers st1 = timers st ++ [(now st + 1000, continuation)]
    ∧ ∀ st2 f2 b2,
        doc_contactForm st2 = Some f2 →
        submitButton f2 = Some b2 →
        button_of (fire continuation st2).2 = Some (mkButton (textContent b) false)
        ∧ (toast_ready st2 = true → (fire continuation st2).1 = Ok tt)
        ∧ (toast_ready st2 = false →
           (∃ e, (fire continuation st2).1 = Throw e)
           ∧ controls <$> doc_contactForm (fire continuation st2).2 = Some (controls f2)).
Proof.
  intros Hf Hb Hw. destruct (well_formed_checks _ Hw) as [Hm He].
  eexists _, _. split; [reflexivity|].
  rewrite (handleFormSubmit_accept st f b Hf Hb Hm He).
  split; [reflexivity|]. split; [reflexivity|]. split; [reflexivity|].
  intros st2 f2 b2 Hf2 Hb2. unfold fire. split; [|split].
  - by apply (resume_restores _ _ st2 f2 b2).
  - intros Hr. by rewrite (resume_success _ _ st2 f2 b2).
  - intros Hr.
    destruct (resume_failure (fromEntries (FormData f)) (textContent b) st2 f2 b2)
      as (e & H1 & H2); eauto.
Qed.

Lemma submit_button_restored_witness :
  ∃ st1, App.handleFormSubmit (sample_ready form_good) = (Ok tt, st1)
         ∧ button_of st1 = Some (mkButton (js "Sending...") true).
Proof.
  destruct (submit_button_restored (sample_ready form_good) form_good
              (mkButton (js "Send Message") false) eq_refl eq_refl
              form_good_well_formed)
    as (st1 & k & Hk & Hrun & Hbtn & _).
  exists st1. auto.
Defined.


(** ** The optional field *)

Section Service.

Local Abbreviation missing data :=
  (falsy (data !! "firstName") || falsy (data !! "lastName")
   || falsy (data !! "email") || falsy (data !! "message")).

Lemma checks_agree (d1 d2 : gmap string (list N)) :
  (∀ name, name ∈ required_fields → d2 !! name = d1 !! name) →
  missing d2 = missing d1
  ∧ email_test (to_string (d2 !! "email")) = email_test (to_string (d1 !! "email")).
Proof.
  intros H. unfold required_fields in H.
  rewrite (H "firstName"), (H "lastName"), (H "email"), (H "message") by set_solver.
  done.
Qed.

(** C10: the optional service field never steers the pipeline.  Two
    submissions whose records agree on the four required fields (whatever
    the service value, present or not) get the same outcome inside the
    submit event: same result, same toast, same button, timers of the same
    kind and due time, and neither clears its form; and their
    continuations do the same to the page, toast and form-clearing
    included. *)
Theorem service_field_has_no_influence st f1 f2 :
  doc_contactForm st = Some f1 →
  submitButton f2 = submitButton f1 →
  (∀ name, name ∈ required_fields →
           fromEntries (FormData f2) !! name = fromEntries (FormData f1) !! name) →
  let o1 := App.handleFormSubmit st in
  let o2 := App.handleFormSubmit (set_doc_contactForm st (Some f2)) in
  o1.1 = o2.1
  ∧ doc_toast o1.2 = doc_toast o2.2
  ∧ button_of o1.2 = button_of o2.2
  ∧ (λ p, (p.1, kind_of p.2)) <$> timers o1.2 = (λ p, (p.1, kind_of p.2)) <$> timers o2.2
  ∧ controls <$> doc_contactForm o1.2 = Some (controls f1)
  ∧ controls <$> doc_contactForm o2.2 = Some (controls f2)
  ∧ ∀ orig st',
      let r1 := fire (ResumeSubmit (fromEntries (FormData f1)) orig) st' in
      let r2 := fire (ResumeSubmit (fromEntries (FormData f2)) orig) st' in
      r1.1 = r2.1
      ∧ doc_toast r1.2 = doc_toast r2.2
      ∧ doc_contactForm r1.2 = doc_contactForm r2.2
      ∧ timers r1.2 = timers r2.2.
Proof.
  intros Hf Hb Hagree. destruct (checks_agree _ _ Hagree) as [Hm He].
  assert (Hf2 : doc_contactForm (set_doc_contactForm st (Some f2)) = Some f2) by done.
  assert (Hres : ∀ orig st',
      let r1 := fire (ResumeSubmit (fromEntries (FormData f1)) orig) st' in
      let r2 := fire (ResumeSubmit (fromEntries (FormData f2)) orig) st' in
      r1.1 = r2.1 ∧ doc_toast r1.2 = doc_toast r2.2
      ∧ doc_contactForm r1.2 = doc_contactForm r2.2 ∧ timers r1.2 = timers r2.2).
  { intros orig st'. unfold fire.
    destruct (resume_data_only_logged (fromEntries (FormData f1))
                (fromEntries (FormData f2)) orig st') as [H1 H2].
    split; [exact H1|].
    split; [exact (f_equal doc_toast H2)|].
    split; [exact (f_equal doc_contactForm H2) | exact (f_equal timers H2)]. }
  cbv zeta.
  destruct (missing (fromEntries (FormData f1))) eqn:Hm1.
  { rewrite (handleFormSubmit_missing st f1 Hf Hm1),
      (handleFormSubmit_missing _ f2 Hf2 Hm), showToast_set_form.
    destruct (showToast_frame App.missing_fields_toast st) as (r & t' & tm & -> & _).
    unfold button_of. simpl. rewrite Hf. simpl. rewrite Hb. done. }
  destruct (email_test (to_string (fromEntries (FormData f1) !! "email"))) eqn:He1.
  2: { rewrite (handleFormSubmit_invalid st f1 Hf Hm1 He1),
         (handleFormSubmit_invalid _ f2 Hf2 Hm He), showToast_set_form.
       destruct (showToast_frame App.invalid_email_toast st) as (r & t' & tm & -> & _).
       unfold button_of. simpl. rewrite Hf. simpl. rewrite Hb. done. }
  destruct (submitButton f1) as [b|] eqn:Hb1.
  - rewrite (handleFormSubmit_accept st f1 b Hf Hb1 Hm1 He1),
      (handleFormSubmit_accept _ f2 b Hf2 Hb Hm He).
    simpl. rewrite !fmap_app. done.
  - rewrite (handleFormSubmit_no_button st f1 Hf Hb1 Hm1 He1),
      (handleFormSubmit_no_button _ f2 Hf2 Hb Hm He).
    unfold button_of. simpl. rewrite Hf. simpl. rewrite Hb, Hb1. done.
Qed.

End Service.

Lemma service_field_has_no_influence_witness :
  (App.handleFormSubmit (sample_ready form_good)).1
  = (App.handleFormSubmit
       (set_doc_contactForm (sample_ready form_good) (Some form_good_no_service))).1.
Proof.
  apply (service_field_has_no_influence (sample_ready form_good)
           form_good form_good_no_service).
  - reflexivity.
  - reflexivity.
  - intros name Hin. unfold required_fields in Hin.
    repeat (apply elem_of_cons in Hin as [->|Hin]; [reflexivity|]).
    by apply elem_of_nil in Hin.
Defined.

(** ** The diagnostic log *)

Lemma no_timestamp_in_strings label (data : gmap string (list N)) :
  ¬ carries_timestamp (ConsoleLog label (Str <$> data)).
Proof.
  intros (k & ms & H). rewrite lookup_fmap in H.
  destruct (data !! k); discriminate.
Qed.

(** C7, as stated, fails on [script.js]: the record of a successful
    submission of the sample form holds the five field values and no
    timestamp. *)
Lemma submission_log_without_timestamp :
  ∃ st, run [Submit; Elapse 1000; Fire 0] (sample_ready form_good) = Some st
        ∧ console st
          = [ConsoleLog (js "Form Submitted:") (Str <$> fromEntries (FormData form_good))]
        ∧ ¬ ∃ e, e ∈ console st ∧ carries_timestamp e.
Proof.
  eexists. split; [vm_compute; reflexivity|].
  split; [reflexivity|].
  intros (e & Hin & He). apply list_elem_of_singleton in Hin. subst e.
  revert He. apply (no_timestamp_in_strings _ (fromEntries (FormData form_good))).
Qed.

(** C7, amended: every successful submission is recorded to the console,
    as one record labelled "Form Submitted:" that holds exactly the
    submitted field values; [script.js] attaches no timestamp to it. *)
Theorem successful_submission_logged st f b :
  doc_contactForm st = Some f →
  submitButton f = Some b →
  well_formed (fromEntries (FormData f)) →
  ∃ st1 continuation record,
    continuation = ResumeSubmit (fromEntries (FormData f)) (textContent b)
    ∧ record = ConsoleLog (js "Form Submitted:") (Str <$> fromEntries (FormData f))
    ∧ App.handleFormSubmit st = (Ok tt, st1)
    ∧ console st1 = console st
    ∧ timers st1 = timers st ++ [(now st + 1000, continuation)]
    ∧ ¬ carries_timestamp record
    ∧ ∀ st2 f2 b2,
        doc_contactForm st2 = Some f2 →
        submitButton f2 = Some b2 →
        toast_ready st2 = true →
        (fire continuation st2).1 = Ok tt
        ∧ console (fire continuation st2).2 = console st2 ++ [record].
Proof.
  intros Hf Hb Hw. destruct (well_formed_checks _ Hw) as [Hm He].
  eexists _, _, _. split; [reflexivity|]. split; [reflexivity|].
  rewrite (handleFormSubmit_accept st f b Hf Hb Hm He).
  split; [reflexivity|]. split; [reflexivity|]. split; [reflexivity|].
  split; [apply no_timestamp_in_strings|].
  intros st2 f2 b2 Hf2 Hb2 Hr. unfold fire.
  by rewrite (resume_success _ _ st2 f2 b2).
Qed.

Lemma successful_submission_logged_witness :
  ∃ st1, App.handleFormSubmit (sample_ready form_good) = (Ok tt, st1)
         ∧ console st1 = [].
Proof.
  destruct (successful_submission_logged (sample_ready form_good) form_good
              (mkButton (js "Send Message") false) eq_refl eq_refl
              form_good_well_formed)
    as (st1 & k & r & Hk & Hr & Hrun & Hc & _).
  exists st1. auto.
Defined.

(** The standalone script, in contrast, stamps its record. *)
Lemma legacy_settle_logs_timestamp data orig st f b :
  doc_contactForm st = Some f →
  submitButton f = Some b →
  legacy_toast_ready st = true →
  (Legacy.settle data orig st).1 = Ok tt
  ∧ console (Legacy.settle data orig st).2
    = console st ++ [ConsoleLog (js "Contact form submission:")
                       (<["timestamp" := IsoDate (now st)]> (Str <$> data))]
  ∧ carries_timestamp
      (ConsoleLog (js "Contact form submission:")
         (<["timestamp" := IsoDate (now st)]> (Str <$> data))).
Proof.
  intros Hf Hb Hr. unfold legacy_toast_ready in Hr.
  destruct_state st. destruct f as [cs sb]. cbn in Hf, Hb, Hr. subst.
  destruct doc_toast0 as [[[x|] [y|] ty sh]|], doc_toastIcon0 as [[cls col]|]; try done.
  split; [reflexivity|]. split; [reflexivity|].
  exists "timestamp", now0. apply lookup_insert_eq.
Qed.

(** ** Handlers that leave the throttle alone *)

Section Keeps.

Lemma keeps_ret {A} (a : A) : keeps (mret a).
Proof. by intros st. Qed.

Lemma keeps_throw {A} e : keeps (@throw A e).
Proof. by intros st. Qed.

Lemma keeps_gets {A} (f : State → A) : keeps (gets f).
Proof. by intros st. Qed.

Lemma keeps_deref {A} what (o : option A) : keeps (deref what o).
Proof. by destruct o. Qed.

Lemma keeps_modify f :
  (∀ st, throttle_view (f st) = throttle_view st) → keeps (modify f).
Proof. intros H st. apply H. Qed.

Lemma keeps_bind {A B} (m : M A) (f : A → M B) :
  keeps m → (∀ a, keeps (f a)) → keeps (m ≫= f).
Proof.
  intros Hm Hf st. unfold mbind, M_bind. specialize (Hm st).
  destruct (m st) as [[a|e] st']; simpl in *; [|done].
  by rewrite Hf.
Qed.

Lemma keeps_setTimeout t delay : is_off (0, t) = false → keeps (setTimeout t delay).
Proof.
  intros Ht st. unfold setTimeout, modify, throttle_view. simpl.
  rewrite filter_app, filter_cons_False, filter_nil, app_nil_r.
  - reflexivity.
  - unfold is_off in *. simpl in *. rewrite Ht. exact id.
Qed.

Lemma keeps_try_catch_finally body handle fin :
  keeps body → (∀ e, keeps (handle e)) → keeps fin →
  keeps (try_catch_finally body handle fin).
Proof.
  intros Hb Hh Hf st. unfold try_catch_finally. specialize (Hb st).
  destruct (body st) as [[a|e] st1]; simpl in *.
  - specialize (Hf st1). destruct (fin st1) as [[?|?] st2]; simpl in *; congruence.
  - specialize (Hh e st1). destruct (handle e st1) as [r st2]; simpl in *.
    specialize (Hf st2). destruct (fin st2) as [[?|?] st3]; simpl in *; congruence.
Qed.

Lemma keeps_catching m st : keeps m → throttle_view (catching m st) = throttle_view st.
Proof.
  intros Hm. unfold catching. specialize (Hm st).
  by destruct (m st) as [[a|e] st'].
Qed.

End Keeps.

Ltac keeps_step :=
  first
    [ apply keeps_bind; [|intros ?]
    | apply keeps_ret
    | apply keeps_gets
    | apply keeps_deref
    | apply keeps_throw
    | apply keeps_modify; intros ?; reflexivity
    | apply keeps_setTimeout; reflexivity
    | apply keeps_try_catch_finally; [| intros ? |]
    | match goal with
      | |- keeps (match ?x with _ => _ end) => destruct x
      end ].

Ltac keeps_auto := repeat keeps_step.

Lemma keeps_showToast a : keeps (App.showToast a).
Proof. unfold App.showToast, App.the_toast, App.put_toast. keeps_auto. Qed.

Lemma keeps_handleFormSubmit : keeps App.handleFormSubmit.
Proof.
  unfold App.handleFormSubmit, App.the_button, App.put_button, App.the_form, App.put_form.
  keeps_auto; apply keeps_showToast.
Qed.

Lemma keeps_resume data orig : keeps (App.handleFormSubmit_resume data orig).
Proof.
  unfold App.handleFormSubmit_resume, App.the_button, App.put_button, App.the_form,
    App.put_form, console_log, console_error.
  keeps_auto; apply keeps_showToast.
Qed.

Lemma keeps_handleKeyboard key : keeps (App.handleKeyboard key).
Proof.
  unfold App.handleKeyboard, App.toggleMobileMenu, App.the_toast, App.put_toast.
  keeps_auto.
Qed.


Lemma keeps_call h ev : h ≠ OnScroll → keeps (call h ev).
Proof.
  intros Hh.
  destruct h, ev as [[] ?| | |]; try done; unfold call;
    first [ apply keeps_handleFormSubmit
          | apply keeps_handleKeyboard
          | unfold App.toggleMobileMenu, App.handleSmoothScroll; keeps_auto ].
Qed.

Lemma keeps_legacy_showToast ttl msg ty : keeps (Legacy.showToast ttl msg ty).
Proof.
  unfold Legacy.showToast, Legacy.put_icon, Legacy.the_toast, Legacy.put_toast.
  keeps_auto.
Qed.

Lemma keeps_fire t : is_off (0, t) = false → keeps (fire t).
Proof.
  intros Ht. destruct t; try discriminate; unfold fire.
  - unfold App.the_toast, App.put_toast. keeps_auto.
  - apply keeps_resume.
  - keeps_auto.
  - unfold Legacy.settle, Legacy.the_button, Legacy.put_button, Legacy.the_form,
      Legacy.put_form, console_log.
    keeps_auto; apply keeps_legacy_showToast.
  - unfold Legacy.the_toast, Legacy.put_toast. keeps_auto.
Qed.

Lemma keeps_observerCallback i b : keeps (App.observerCallback i b).
Proof. unfold App.observerCallback. keeps_auto. Qed.

(** ** Start-up *)

Lemma forEach_listen (mk : nat → target) ty h l : ∀ st,
  forEach l (λ i, App.addEventListener (mk i) ty h) st
  = (Ok tt, set_listeners st (listeners st ++ ((λ i, (mk i, ty, h)) <$> l))).
Proof.
  induction l as [|i l IH]; intros st; simpl.
  - rewrite app_nil_r. by destruct st.
  - unfold mbind, M_bind. simpl. rewrite IH. simpl.
    rewrite <- app_assoc. reflexivity.
Qed.

Lemma forEach_observe l : ∀ st,
  forEach l (λ i, modify (λ st, set_observed st (observed st ++ [i]))) st
  = (Ok tt, set_observed st (observed st ++ l)).
Proof.
  induction l as [|i l IH]; intros st; simpl.
  - rewrite app_nil_r. by destruct st.
  - unfold mbind, M_bind. simpl. rewrite IH. simpl.
    rewrite <- app_assoc. reflexivity.
Qed.

Lemma cacheDOMElements_spec st :
  App.cacheDOMElements st =
    (Ok tt,
     set_elements st
       (mkElements
          ((λ _, NHeader) <$> doc_header st)
          (if doc_mobileMenuToggle st then Some NMobileMenuToggle else None)
          (if doc_mobileMenuOverlay st then Some NMobileMenuOverlay else None)
          (if doc_mobileMenuClose st then Some NMobileMenuClose else None)
          ((λ _, NContactForm) <$> doc_contactForm st)
          ((λ _, NToast) <$> doc_toast st)
          ((λ _, NHeroBackground) <$> doc_heroBackground st)
          (Some (seq 0 (length (doc_anchors st))))
          (Some (seq 0 (doc_mobileNavLinks st)))
          (Some (seq 0 (length (doc_cards st)))))).
Proof. reflexivity. Qed.

Lemma bindEvents_spec st n1 n2 n3 mobile anchors :
  mobileMenuToggle (elements st) = Some n1 →
  mobileMenuClose (elements st) = Some n2 →
  mobileMenuOverlay (elements st) = Some n3 →
  mobileNavLinks (elements st) = Some mobile →
  navLinks (elements st) = Some anchors →
  App.bindEvents st =
    (Ok tt,
     set_listeners (set_inThrottle st false)
       (listeners st
        ++ [(TToggle, EvClick, OnToggleClick); (TClose, EvClick, OnCloseClick);
            (TOverlay, EvClick, OnOverlayClick)]
        ++ ((λ i, (TMobileNavLink i, EvClick, OnMobileNavLinkClick)) <$> mobile)
        ++ ((λ i, (TNavLink i, EvClick, OnAnchorClick)) <$> anchors)
        ++ match contactForm (elements st) with
           | Some _ => [(TForm, EvSubmit, OnFormSubmit)]
           | None => []
           end
        ++ [(TWindow, EvScroll, OnScroll); (TDocument, EvKeydown, OnKeydown)])).
Proof.
  intros H1 H2 H3 H4 H5. destruct_state st. simpl in *. subst.
  unfold App.bindEvents.
  cbv [mbind M_bind mret M_ret gets modify deref elements mobileMenuToggle
       mobileMenuClose mobileMenuOverlay mobileNavLinks navLinks contactForm].
  unfold App.addEventListener at 1 2 3. cbv [modify].
  cbn [set_listeners listeners doc_header doc_mobileMenuToggle doc_mobileMenuOverlay
       doc_mobileMenuClose doc_contactForm doc_toast doc_toastIcon doc_heroBackground
       doc_anchors doc_mobileNavLinks doc_cards menu_open body_opacity body_transition
       scrollY scrolled_into_view scroll_handled elements inThrottle observed
       preloaded now timers frames console uncaught].
  rewrite !forEach_listen.
  destruct contactForm0; unfold App.addEventListener, modify; cbn;
    rewrite <- ?app_assoc; reflexivity.
Qed.

Lemma setupObservers_spec st cards :
  animatedElements (elements st) = Some cards →
  App.setupObservers st = (Ok tt, set_observed st (observed st ++ cards)).
Proof.
  intros H. unfold App.setupObservers. cbv [mbind M_bind gets deref mret M_ret].
  rewrite H. apply forEach_observe.
Qed.

(** With the three menu controls in the page, [init] runs to its end
    whichever of the header, the form, the toast and the hero background
    are missing, and binds everything but the submit listener of a missing
    form. *)
Lemma init_with_menu_controls hdr form tst icon hero anchors n cards :
  ∃ st, App.init (load hdr true true true form tst icon hero anchors n cards) = (Ok tt, st)
  ∧ uncaught st = []
  ∧ listeners st =
      [(TToggle, EvClick, OnToggleClick); (TClose, EvClick, OnCloseClick);
       (TOverlay, EvClick, OnOverlayClick)]
      ++ ((λ i, (TMobileNavLink i, EvClick, OnMobileNavLinkClick)) <$> seq 0 n)
      ++ ((λ i, (TNavLink i, EvClick, OnAnchorClick)) <$> seq 0 (length anchors))
      ++ match form with Some _ => [(TForm, EvSubmit, OnFormSubmit)] | None => [] end
      ++ [(TWindow, EvScroll, OnScroll); (TDocument, EvKeydown, OnKeydown)]
  ∧ header (elements st) = (λ _, NHeader) <$> hdr
  ∧ toast (elements st) = (λ _, NToast) <$> tst
  ∧ observed st = seq 0 (length cards)
  ∧ frames st = [FadeIn]
  ∧ (inThrottle st, scroll_handled st, now st, timers st) = (false, [], 0, [])
  ∧ (doc_header st, doc_contactForm st, doc_toast st) = (hdr, form, tst).
Proof.
  unfold App.init. cbv [mbind M_bind]. rewrite cacheDOMElements_spec.
  erewrite bindEvents_spec by reflexivity.
  erewrite setupObservers_spec by reflexivity.
  eexists. split; [reflexivity|].
  destruct form; repeat split.
Qed.

(** ** The throttle invariant *)

Lemma inv_of_view st st' :
  throttle_view st' = throttle_view st → throttle_inv st → throttle_inv st'.
Proof.
  unfold throttle_view. intros H. injection H as H1 H2 H3 H4 H5 H6 H7 H8.
  intros [I1 I2 I3 I4 I5 I6 I7].
  constructor; unfold scroll_listeners, last_handled in *;
    rewrite ?H1, ?H2, ?H3, ?H4, ?H5, ?H6, ?H7, ?H8; assumption.
Qed.

Lemma filter_fmap_none {A B} (P : B → Prop) `{∀ x, Decision (P x)} (f : A → B)
    (l : list A) :
  (∀ a, ¬ P (f a)) → filter P (f <$> l) = [].
Proof.
  intros Hn. induction l as [|a l IH]; [done|].
  rewrite fmap_cons, filter_cons_False by apply Hn. exact IH.
Qed.

Lemma boot_scroll_listeners hdr toggle overlay close form tst icon hero anchors n cards :
  let st := boot (load hdr toggle overlay close form tst icon hero anchors n cards) in
  (scroll_listeners st = [] ∨ scroll_listeners st = [(TWindow, EvScroll, OnScroll)])
  ∧ header (elements st) = (λ _, NHeader) <$> hdr
  ∧ doc_header st = hdr
  ∧ (inThrottle st, scroll_handled st, now st, timers st) = (false, [], 0, [])
  ∧ Forall (λ t, is_off (0, t) = false) (frames st).
Proof.
  destruct toggle, overlay, close;
    try (cbv zeta; split; [left; reflexivity|]; repeat split; constructor).
  cbv zeta. unfold boot, catching.
  destruct (init_with_menu_controls hdr form tst icon hero anchors n cards)
    as (st & -> & _ & Hl & Hh & _ & _ & Hf & Ht & Hd).
  injection Hd as Hd _ _. rewrite Hf. split; [|repeat split; try done; by repeat constructor].
  right. unfold scroll_listeners. rewrite Hl.
  rewrite !filter_app, !filter_fmap_none.
  - by destruct form.
  - intros i [H|H]; discriminate.
  - intros i [H|H]; discriminate.
Qed.

Lemma boot_inv hdr toggle overlay close form tst icon hero anchors n cards :
  throttle_inv
    (boot (load (Some hdr) toggle overlay close form tst icon hero anchors n cards)).
Proof.
  destruct (boot_scroll_listeners (Some hdr) toggle overlay close form tst icon hero
              anchors n cards) as (Hl & Hh & Hd & Ht & Hf).
  injection Ht as Ht1 Ht2 Ht3 Ht4.
  constructor; unfold last_handled, spaced; rewrite ?Hd, ?Hh, ?Ht1, ?Ht2, ?Ht4; try done.
Qed.

(** The throttled handler while the window is open: nothing happens. *)
Lemma throttled_skip st :
  inThrottle st = true → App.throttledScrollHandler st = (Ok tt, st).
Proof.
  intros H. unfold App.throttledScrollHandler, App.throttle.
  cbv [mbind M_bind gets]. rewrite H. reflexivity.
Qed.

(** The throttled handler outside a window: [handleScroll] runs on the
    current position, the window opens and its end is scheduled. *)
Lemma throttled_run st :
  inThrottle st = false →
  is_Some (header (elements st)) →
  is_Some (doc_header st) →
  ∃ st', App.throttledScrollHandler st = (Ok tt, st')
    ∧ inThrottle st' = true
    ∧ scroll_handled st' = scroll_handled st ++ [(now st, scrollY st)]
    ∧ timers st' = timers st ++ [(now st + App.scrollThrottleLimit, ThrottleOff)]
    ∧ doc_header st' = Some (mkHeader (bool_decide (scrollY st > App.headerScrollThreshold)))
    ∧ (now st', listeners st', elements st', frames st', uncaught st')
      = (now st, listeners st, elements st, frames st, uncaught st).
Proof.
  intros Hb [h Hh] [d Hd]. destruct_state st. cbn in Hb, Hh, Hd. subst.
  destruct heroBackground0; eexists; (split; [reflexivity|]); repeat split.
Qed.

Lemma filter_sub {A} (P Q : A → Prop) `{∀ x, Decision (P x)} `{∀ x, Decision (Q x)}
    (l : list A) :
  (∀ x, P x → Q x) → filter P (filter Q l) = filter P l.
Proof.
  intros HPQ. induction l as [|x l IH]; [done|].
  rewrite !filter_cons. destruct (decide (Q x)) as [HQ|HQ].
  - rewrite filter_cons. destruct (decide (P x)); by rewrite IH.
  - rewrite IH. destruct (decide (P x)) as [HP|HP]; [|done].
    destruct HQ. by apply HPQ.
Qed.

(** The listeners a scroll event reaches. *)
Lemma scroll_handlers st :
  filter (λ l, l.1.1 = event_target EScroll ∧ l.1.2 = event_kind EScroll) (listeners st)
  = filter (λ l, l.1.1 = event_target EScroll ∧ l.1.2 = event_kind EScroll)
      (scroll_listeners st).
Proof.
  unfold scroll_listeners. symmetry. apply filter_sub.
  intros [[t k] h] [H1 H2]. simpl in *. left. by subst.
Qed.

(** Any other event reaches no throttled handler. *)
Lemma other_handlers st ev l :
  throttle_inv st → ev ≠ EScroll →
  l ∈ filter (λ l, l.1.1 = event_target ev ∧ l.1.2 = event_kind ev) (listeners st) →
  l.2 ≠ OnScroll.
Proof.
  intros Hinv Hev Hin Hl. apply list_elem_of_filter in Hin as [[Ht Hk] Hin].
  assert (Hs : l ∈ scroll_listeners st).
  { unfold scroll_listeners. apply list_elem_of_filter. auto. }
  destruct (inv_listeners st Hinv) as [He|He]; rewrite He in Hs.
  - by apply elem_of_nil in Hs.
  - apply list_elem_of_singleton in Hs. subst l. simpl in *.
    destruct ev; try discriminate. done.
Qed.

Lemma dispatch_other st ev :
  throttle_inv st → ev ≠ EScroll →
  throttle_view (dispatch ev st) = throttle_view st.
Proof.
  intros Hinv Hev. unfold dispatch.
  assert (Hh := λ l, other_handlers st ev l Hinv Hev).
  remember (filter (λ l, l.1.1 = event_target ev ∧ l.1.2 = event_kind ev)
              (listeners st)) as hs eqn:E.
  clear E Hinv. revert st Hh.
  induction hs as [|l hs IH]; intros st Hh; [done|]. simpl.
  rewrite IH.
  - apply keeps_catching, keeps_call. apply Hh. left.
  - intros l' Hin. apply Hh. by right.
Qed.


Lemma dispatch_scroll st y :
  throttle_inv st →
  dispatch EScroll (set_scrollY st y) =
    match scroll_listeners st with
    | [] => set_scrollY st y
    | _ => catching App.throttledScrollHandler (set_scrollY st y)
    end.
Proof.
  intros Hinv. unfold dispatch. rewrite scroll_handlers.
  change (scroll_listeners (set_scrollY st y)) with (scroll_listeners st).
  by destruct (inv_listeners st Hinv) as [-> | ->].
Qed.

Lemma spaced_snoc limit history x :
  spaced limit history →
  (∀ a, last history = Some a → a.1 + limit ≤ x.1) →
  spaced limit (history ++ [x]).
Proof.
  intros Hs Hl i a b Ha Hb.
  destruct (decide (S i < length history)%nat) as [Hlt|Hge].
  - rewrite lookup_app_l in Ha, Hb by lia. eauto.
  - assert (length history = S i) as Hlen.
    { apply lookup_lt_Some in Hb. rewrite length_app in Hb. simpl in Hb.
      apply lookup_lt_Some in Ha as Ha'. rewrite length_app in Ha'. simpl in Ha'. lia. }
    rewrite lookup_app_l in Ha by lia.
    rewrite lookup_app_r in Hb by lia.
    replace (S i - length history)%nat with 0%nat in Hb by lia.
    injection Hb as <-. apply Hl. rewrite last_lookup, Hlen. exact Ha.
Qed.

Lemma filter_delete_false {A} (P : A → Prop) `{∀ x, Decision (P x)} (l : list A) i x :
  l !! i = Some x → ¬ P x → filter P (delete i l) = filter P l.
Proof.
  revert i. induction l as [|y l IH]; intros [|i] Hi Hx; try done; simpl in *.
  - injection Hi as ->. by rewrite filter_cons_False.
  - rewrite !filter_cons. destruct (decide (P y)); by rewrite (IH i).
Qed.

Lemma filter_delete_single {A} (P : A → Prop) `{∀ x, Decision (P x)} (l : list A) i x y :
  l !! i = Some x → P x → filter P l = [y] → x = y ∧ filter P (delete i l) = [].
Proof.
  revert i. induction l as [|z l IH]; intros [|i] Hi Hx Hf; try done; simpl in *.
  - injection Hi as ->. rewrite filter_cons_True in Hf by done.
    injection Hf as -> Hf. done.
  - rewrite filter_cons in Hf |- *. destruct (decide (P z)) as [Hz|Hz].
    + injection Hf as -> Hf.
      assert (x ∈ filter P l) as Hin.
      { apply list_elem_of_filter. split; [done|]. by eapply list_elem_of_lookup_2. }
      rewrite Hf in Hin. by apply elem_of_nil in Hin.
    + by apply (IH i).
Qed.


Lemma inv_scroll_run st st1 y :
  throttle_inv st →
  inThrottle st = false →
  inThrottle st1 = true →
  scroll_handled st1 = scroll_handled st ++ [(now st, y)] →
  timers st1 = timers st ++ [(now st + App.scrollThrottleLimit, ThrottleOff)] →
  is_Some (doc_header st1) →
  (now st1, listeners st1, elements st1, frames st1)
  = (now st, listeners st, elements st, frames st) →
  throttle_inv st1.
Proof.
  intros [I1 I2 I3 I4 I5 I6 I7] Hb H1 H2 H3 H4 H5.
  injection H5 as E1 E2 E3 E4. rewrite Hb in I6.
  assert (Hlast : last_handled st1 = Some (now st)).
  { unfold last_handled. by rewrite H2, last_snoc. }
  constructor; unfold scroll_listeners in *; rewrite ?E1, ?E2, ?E3, ?E4, ?H1; try done.
  - rewrite H2. apply spaced_snoc; [done|]. intros a Ha. simpl.
    apply (I5 a.1); [|done]. unfold last_handled. by rewrite Ha.
  - intros t Ht. rewrite Hlast in Ht. injection Ht as <-. split; [lia|done].
  - rewrite H3, filter_app, I6, Hlast. reflexivity.
Qed.

Lemma inv_elapse st dt : 0 ≤ dt → throttle_inv st → throttle_inv (set_now st (now st + dt)).
Proof.
  intros Hdt [I1 I2 I3 I4 I5 I6 I7]. constructor; try done.
  intros t Ht. destruct (I5 t Ht) as [H1 H2]. simpl. split; [lia|].
  intros Hb. specialize (H2 Hb). lia.
Qed.

Lemma inv_throttle_off st i due :
  throttle_inv st →
  timers st !! i = Some (due, ThrottleOff) →
  due ≤ now st →
  throttle_inv (set_inThrottle (set_timers st (delete i (timers st))) false).
Proof.
  intros [I1 I2 I3 I4 I5 I6 I7] Hi Hdue.
  assert (Hin : (due, ThrottleOff) ∈ filter is_off (timers st)).
  { apply list_elem_of_filter. split; [done|]. by eapply list_elem_of_lookup_2. }
  destruct (inThrottle st) eqn:Hb; [|rewrite I6 in Hin; by apply elem_of_nil in Hin].
  destruct (last_handled st) as [t|] eqn:Hl;
    [|rewrite I6 in Hin; by apply elem_of_nil in Hin].
  simpl in I6.
  destruct (filter_delete_single is_off (timers st) i _ _ Hi I I6) as [Hx Hd].
  injection Hx as ->.
  constructor; try done.
  - intros t' Ht'. change (last_handled st = Some t') in Ht'.
    rewrite Hl in Ht'. injection Ht' as <-. simpl. split; [|intros _; lia].
    apply (I5 t eq_refl).
Qed.

Lemma inv_frames_run ts : ∀ st,
  Forall (λ t, is_off (0, t) = false) ts →
  throttle_inv st →
  throttle_inv (foldl (λ st' t, catching (fire t) st') st ts).
Proof.
  induction ts as [|t ts IH]; intros st Hts Hinv; [done|].
  inversion Hts as [|? ? Ht Hts']; subst. simpl. apply IH; [done|].
  eapply inv_of_view; [|exact Hinv]. by apply keeps_catching, keeps_fire.
Qed.

(** Every turn of the event loop keeps the invariant. *)
Lemma step_inv a st st' : throttle_inv st → step a st = Some st' → throttle_inv st'.
Proof.
  intros Hinv Hstep. destruct a as [t b|y| |key|name v|i|dt|i|]; simpl in Hstep.
  - injection Hstep as <-. eapply inv_of_view; [|exact Hinv]. by apply dispatch_other.
  - injection Hstep as <-. rewrite dispatch_scroll by done.
    destruct (scroll_listeners st) as [|l ls] eqn:Hl.
    { eapply inv_of_view; [|exact Hinv]. reflexivity. }
    unfold catching. destruct (inThrottle st) eqn:Hb.
    + rewrite throttled_skip by done. eapply inv_of_view; [|exact Hinv]. reflexivity.
    + destruct (throttled_run (set_scrollY st y)) as (st1 & -> & H1 & H2 & H3 & H4 & H5).
      * done.
      * apply (inv_registry st Hinv). by rewrite Hl.
      * apply (inv_header st Hinv).
      * injection H5 as E1 E2 E3 E4 E5.
        apply (inv_scroll_run st st1 y Hinv Hb H1 H2 H3).
        -- by rewrite H4.
        -- by rewrite E1, E2, E3, E4.
  - injection Hstep as <-. eapply inv_of_view; [|exact Hinv]. by apply dispatch_other.
  - injection Hstep as <-. eapply inv_of_view; [|exact Hinv]. by apply dispatch_other.
  - injection Hstep as <-. eapply inv_of_view; [|exact Hinv]. reflexivity.
  - case_bool_decide; injection Hstep as <-; [|done].
    eapply inv_of_view; [|exact Hinv].
    apply keeps_catching. exact (keeps_observerCallback i true).
  - case_bool_decide; [|done]. injection Hstep as <-. by apply inv_elapse.
  - destruct (timers st !! i) as [[due t]|] eqn:Hi; [|done].
    case_bool_decide; [|done]. injection Hstep as <-.
    destruct (is_off (0, t)) eqn:Ht.
    + destruct t; try discriminate. by eapply inv_throttle_off.
    + eapply inv_of_view; [|exact Hinv].
      rewrite keeps_catching by (by apply keeps_fire).
      unfold throttle_view. simpl.
      rewrite (filter_delete_false _ _ _ _ Hi).
      * reflexivity.
      * unfold is_off in *. simpl in *. rewrite Ht. exact id.
  - injection Hstep as <-. apply inv_frames_run; [apply (inv_frames st Hinv)|].
    destruct Hinv as [I1 I2 I3 I4 I5 I6 I7]. by constructor.
Qed.

Lemma run_inv tr : ∀ st st', throttle_inv st → run tr st = Some st' → throttle_inv st'.
Proof.
  induction tr as [|a tr IH]; intros st st' Hinv Hrun; simpl in Hrun.
  - by injection Hrun as <-.
  - destruct (step a st) as [st1|] eqn:Hs; [|done].
    eapply IH; [|exact Hrun]. by eapply step_inv.
Qed.

(** C2: on a page with its header, whatever the visitor does, the handler
    behind the throttle runs at most once per window of
    [scrollThrottleLimit] = 16 ms: consecutive runs are at least a window
    apart.  A scroll event inside the window is dropped, it changes nothing
    but the scroll position and leaves nothing queued.  When the handler
    does run, it is on the event's own, newest position, and the window
    since the previous run is over.  The timer that ends a window is due one
    window after the latest run; it only reopens the throttle and replays
    nothing. *)
Theorem scroll_handler_throttled hdr toggle overlay close form tst icon hero anchors n
    cards tr st :
  run tr (boot (load (Some hdr) toggle overlay close form tst icon hero anchors n cards))
  = Some st →
  App.scrollThrottleLimit = 16
  ∧ spaced App.scrollThrottleLimit (scroll_handled st)
  ∧ (∀ y st', step (Scroll y) st = Some st' →
       (inThrottle st = true → st' = set_scrollY st y)
       ∧ (scroll_handled st' = scroll_handled st
          ∨ scroll_handled st' = scroll_handled st ++ [(now st, y)]
            ∧ doc_header st' = Some (mkHeader (bool_decide (y > App.headerScrollThreshold)))
            ∧ inThrottle st = false
            ∧ ∀ t, last_handled st = Some t → t + App.scrollThrottleLimit ≤ now st))
  ∧ (∀ i due,
       timers st !! i = Some (due, ThrottleOff) →
       (∃ t, last_handled st = Some t ∧ due = t + App.scrollThrottleLimit)
       ∧ ∀ st', step (Fire i) st = Some st' →
           inThrottle st' = false
           ∧ scroll_handled st' = scroll_handled st
           ∧ doc_header st' = doc_header st).
Proof.
  intros Hrun.
  assert (Hinv : throttle_inv st) by (eapply run_inv; [apply boot_inv | exact Hrun]).
  split; [reflexivity|]. split; [apply (inv_spaced st Hinv)|]. split.
  - intros y st' Hstep. simpl in Hstep. injection Hstep as <-.
    rewrite dispatch_scroll by done.
    destruct (scroll_listeners st) as [|l ls] eqn:Hl; [by auto|].
    unfold catching. destruct (inThrottle st) eqn:Hb.
    + rewrite throttled_skip by done. auto.
    + destruct (throttled_run (set_scrollY st y)) as (st1 & -> & H1 & H2 & H3 & H4 & H5).
      * done.
      * apply (inv_registry st Hinv). by rewrite Hl.
      * apply (inv_header st Hinv).
      * split; [done|]. right. split; [exact H2|]. split; [exact H4|]. split; [done|].
        intros t Ht. by apply (inv_last st Hinv).
  - intros i due Hi. split.
    + assert (Hin : (due, ThrottleOff) ∈ filter is_off (timers st)).
      { apply list_elem_of_filter. split; [done|]. by eapply list_elem_of_lookup_2. }
      rewrite (inv_pending st Hinv) in Hin.
      destruct (inThrottle st); [|by apply elem_of_nil in Hin].
      destruct (last_handled st) as [t|]; [|by apply elem_of_nil in Hin].
      apply list_elem_of_singleton in Hin. injection Hin as ->. eauto.
    + intros st' Hstep. simpl in Hstep. rewrite Hi in Hstep.
      case_bool_decide; [|done]. by injection Hstep as <-.
Qed.

Lemma scroll_handler_throttled_witness :
  ∃ st, run sample_scrolls (sample_ready form_good) = Some st
        ∧ spaced App.scrollThrottleLimit (scroll_handled st).
Proof.
  assert (∃ st, run sample_scrolls (sample_ready form_good) = Some st) as [st Hst].
  { vm_compute. eexists. reflexivity. }
  exists st. split; [exact Hst|].
  apply (scroll_handler_throttled _ _ _ _ _ _ _ _ _ _ _ _ _ Hst).
Defined.

(** The burst, run: the first and the third event are handled, the second
    one, inside the window, is dropped. *)
Example sample_scrolls_run :
  ∃ st, run sample_scrolls (sample_ready form_good) = Some st
        ∧ scroll_handled st = [(0, 10); (16, 120)]
        ∧ doc_header st = Some (mkHeader true)
        ∧ timers st = [(32, ThrottleOff)].
Proof. eexists. split; [vm_compute; reflexivity|]. repeat split. Qed.

(** ** Overlapping toasts *)

(** A second [showToast] within five seconds of a first one overwrites the
    toast, and queues a second auto-hide next to the first, which is still
    pending. *)
Lemma showToast_twice a1 a2 st dt :
  toast_ready st = true →
  0 ≤ dt →
  let st1 := (App.showToast a1 st).2 in
  let st2 := (App.showToast a2 (set_now st1 (now st + dt))).2 in
  doc_toast st2 = Some (shown a2)
  ∧ timers st2
    = timers st ++ [(now st + 5000, HideToast)] ++ [(now st + dt + 5000, HideToast)].
Proof.
  intros Hr Hdt. cbv zeta. rewrite (showToast_ready a1 st Hr). simpl.
  rewrite showToast_ready.
  - simpl. by rewrite <- app_assoc.
  - unfold toast_ready in *. simpl. by destruct (toast (elements st)).
Qed.

(** The first timer then hides the second toast when the first toast's
    five seconds are over. *)
Lemma stale_timer_hides a1 a2 st dt :
  toast_ready st = true →
  0 < dt < 5000 →
  let st1 := (App.showToast a1 st).2 in
  let st2 := (App.showToast a2 (set_now st1 (now st + dt))).2 in
  ∃ st3, step (Fire (length (timers st))) (set_now st2 (now st + 5000)) = Some st3
         ∧ doc_toast st3
           = Some (mkToast (Some (title a2)) (Some (message a2))
                     (Some (default (js "success") (type a2))) false)
         ∧ now st3 < now st + dt + 5000.
Proof.
  intros Hr Hdt. cbv zeta. rewrite (showToast_ready a1 st Hr). simpl.
  rewrite showToast_ready.
  2: { unfold toast_ready in *. simpl. by destruct (toast (elements st)). }
  unfold step. simpl. rewrite <- app_assoc.
  rewrite lookup_app_r, Nat.sub_diag by done. simpl.
  rewrite bool_decide_true by lia.
  unfold toast_ready in Hr. destruct_state st. cbn in Hr.
  destruct toast0; [|done].
  eexists. split; [reflexivity|]. simpl. split; [done|lia].
Qed.

(** C3 on the sample page: an empty first name at time 0 brings the
    missing-fields toast; three seconds later the corrected form, its
    email still malformed, brings the invalid-email toast, which is then
    the one toast on show.  At 5000 ms the timer of the first call fires
    and hides it, three seconds before its own expiry at 8000 ms. *)
Theorem second_toast_hidden_by_first_timer :
  ∃ st2 st3,
    run [Submit; Elapse 3000; Input "firstName" (js "Ada"); Submit]
        (sample_ready form_empty_bad_email) = Some st2
    ∧ doc_toast st2 = Some (shown App.invalid_email_toast)
    ∧ timers st2 = [(5000, HideToast); (8000, HideToast)]
    ∧ run [Elapse 2000; Fire 0] st2 = Some st3
    ∧ now st3 = 5000
    ∧ show <$> doc_toast st3 = Some false
    ∧ timers st3 = [(8000, HideToast)].
Proof.
  eexists _, _. split; [vm_compute; reflexivity|].
  split; [reflexivity|]. split; [reflexivity|].
  split; [vm_compute; reflexivity|]. repeat split.
Qed.

(** ** Missing nodes *)

(** C1 on a page without the menu toggle, whatever else it holds: the
    first statement of [bindEvents] throws, [init] is abandoned with
    nothing bound, observed, preloaded or animated, and submit, scroll and
    key events find no listener. *)
Theorem init_aborts_without_menu_toggle hdr overlay close form tst icon hero anchors n
    cards :
  let st := boot (load hdr false overlay close form tst icon hero anchors n cards) in
  uncaught st = [TypeError "this.elements.mobileMenuToggle"]
  ∧ listeners st = []
  ∧ observed st = []
  ∧ preloaded st = []
  ∧ frames st = []
  ∧ body_opacity st = None
  ∧ step Submit st = Some st
  ∧ step (Keydown (js "Escape")) st = Some st
  ∧ ∀ y, step (Scroll y) st = Some (set_scrollY st y).
Proof. cbv zeta. repeat split. Qed.

(** The same for the other two menu controls: the listeners bound before
    the throwing statement stay, the rest is never reached. *)
Lemma init_aborts_without_menu_close hdr overlay form tst icon hero anchors n cards :
  let st := boot (load hdr true overlay false form tst icon hero anchors n cards) in
  uncaught st = [TypeError "this.elements.mobileMenuClose"]
  ∧ listeners st = [(TToggle, EvClick, OnToggleClick)]
  ∧ observed st = [].
Proof. cbv zeta. repeat split. Qed.

Lemma init_aborts_without_menu_overlay hdr form tst icon hero anchors n cards :
  let st := boot (load hdr true false true form tst icon hero anchors n cards) in
  uncaught st = [TypeError "this.elements.mobileMenuOverlay"]
  ∧ listeners st = [(TToggle, EvClick, OnToggleClick); (TClose, EvClick, OnCloseClick)]
  ∧ observed st = [].
Proof. cbv zeta. repeat split. Qed.

(** Only the contact form is guarded: without it [init] completes and the
    submit listener is left out. *)
Lemma init_skips_missing_form hdr tst icon hero anchors n cards :
  let st := boot (load hdr true true true None tst icon hero anchors n cards) in
  uncaught st = []
  ∧ ((TForm, EvSubmit, OnFormSubmit) ∉ listeners st)
  ∧ ((TWindow, EvScroll, OnScroll) ∈ listeners st)
  ∧ ((TDocument, EvKeydown, OnKeydown) ∈ listeners st).
Proof.
  cbv zeta. unfold boot, catching.
  destruct (init_with_menu_controls hdr None tst icon hero anchors n cards)
    as (st & -> & Hu & Hl & _).
  split; [done|]. rewrite Hl. rewrite !elem_of_app, !list_elem_of_fmap.
  split; [|split].
  - intros [H|[(i & H & _)|[(i & H & _)|[H|H]]]]; try discriminate.
    + repeat (apply elem_of_cons in H as [H|H]; [discriminate|]). by apply elem_of_nil in H.
    + by apply elem_of_nil in H.
    + repeat (apply elem_of_cons in H as [H|H]; [discriminate|]). by apply elem_of_nil in H.
  - do 4 right. set_solver.
  - do 4 right. set_solver.
Qed.

(** A missing header or toast does not stop [init], but the behaviour that
    needs the node is not skipped: every scroll event and every Escape key
    ends in a [TypeError], and without the header the throttle never
    closes. *)
Example missing_header_throws_on_scroll :
  let page := load None true true true (Some form_good) (Some empty_toast)
                (Some (mkIcon [] [])) None [] 0 [] in
  ∃ st, run [Scroll 10; Elapse 1; Scroll 20] (boot page) = Some st
        ∧ uncaught st = [TypeError "this.elements.header"; TypeError "this.elements.header"]
        ∧ scroll_handled st = [(0, 10); (1, 20)]
        ∧ inThrottle st = false.
Proof. cbv zeta. eexists. split; [vm_compute; reflexivity|]. repeat split. Qed.

Example missing_toast_throws_on_escape :
  let page := load (Some (mkHeader false)) true true true (Some form_no_email) None
                None None [] 0 [] in
  ∃ st, run [Keydown (js "Escape"); Submit] (boot page) = Some st
        ∧ uncaught st = [TypeError "this.elements.toast"; TypeError "this.elements.toast"].
Proof. cbv zeta. eexists. split; [vm_compute; reflexivity|]. repeat split. Qed.

(** * Further properties of the script *)

(** ** Frame rules *)

Section Preserves.
Context {V : Type} (view : State → V).

Lemma preserves_ret {A} (a : A) : preserves view (mret a).
Proof. by intros st. Qed.

Lemma preserves_throw {A} e : preserves view (@throw A e).
Proof. by intros st. Qed.

Lemma preserves_gets {A} (f : State → A) : preserves view (gets f).
Proof. by intros st. Qed.

Lemma preserves_deref {A} what (o : option A) : preserves view (deref what o).
Proof. by destruct o. Qed.

Lemma preserves_modify f :
  (∀ st, view (f st) = view st) → preserves view (modify f).
Proof. intros H st. apply H. Qed.

Lemma preserves_bind {A B} (m : M A) (f : A → M B) :
  preserves view m → (∀ a, preserves view (f a)) → preserves view (m ≫= f).
Proof.
  intros Hm Hf st. unfold mbind, M_bind. specialize (Hm st).
  destruct (m st) as [[a|e] st']; simpl in *; [|done].
  by rewrite Hf.
Qed.

Lemma preserves_try_catch_finally body handle fin :
  preserves view body → (∀ e, preserves view (handle e)) → preserves view fin →
  preserves view (try_catch_finally body handle fin).
Proof.
  intros Hb Hh Hf st. unfold try_catch_finally. specialize (Hb st).
  destruct (body st) as [[a|e] st1]; simpl in *.
  - specialize (Hf st1). destruct (fin st1) as [[?|?] st2]; simpl in *; congruence.
  - specialize (Hh e st1). destruct (handle e st1) as [r st2]; simpl in *.
    specialize (Hf st2). destruct (fin st2) as [[?|?] st3]; simpl in *; congruence.
Qed.

Lemma preserves_forEach {A} (l : list A) (f : A → M unit) :
  (∀ x, preserves view (f x)) → preserves view (forEach l f).
Proof.
  intros Hf. induction l as [|x l IH]; simpl.
  - apply preserves_ret.
  - apply preserves_bind; [apply Hf | intros _; apply IH].
Qed.

(** Reporting an exception touches [uncaught] only. *)
Lemma preserves_catching m st :
  (∀ st e, view (set_uncaught st e) = view st) →
  preserves view m → view (catching m st) = view st.
Proof.
  intros Hu Hm. unfold catching. specialize (Hm st).
  destruct (m st) as [[a|e] st']; simpl in *; [done|]. by rewrite Hu.
Qed.

Lemma preserves_foldl_catching {A} (f : A → M unit) (l : list A) :
  (∀ st e, view (set_uncaught st e) = view st) →
  (∀ x, x ∈ l → preserves view (f x)) →
  ∀ st, view (foldl (λ st' x, catching (f x) st') st l) = view st.
Proof.
  intros Hu. induction l as [|x l IH]; intros Hf st; [done|]. simpl.
  rewrite IH.
  - apply preserves_catching; [done|]. apply Hf. left.
  - intros y Hy. apply Hf. by right.
Qed.

End Preserves.

Ltac preserves_step :=
  first
    [ apply preserves_bind; [|intros ?]
    | apply preserves_ret
    | apply preserves_gets
    | apply preserves_deref
    | apply preserves_throw
    | apply preserves_modify; intros ?; reflexivity
    | apply preserves_try_catch_finally; [| intros ? |]
    | match goal with
      | |- preserves _ (match ?x with _ => _ end) => destruct x
      end ].

(** Unfold the script down to the primitives of the monad and apply the
    frame rules. *)
Ltac preserves_script :=
  unfold call, fire, App.throttledScrollHandler, App.throttle, App.handleScroll,
    App.handleFormSubmit, App.handleFormSubmit_resume, App.handleKeyboard,
    App.handleSmoothScroll, App.toggleMobileMenu, App.observerCallback,
    App.showToast, App.the_toast, App.put_toast, App.the_form, App.put_form,
    App.the_button, App.put_button, Legacy.settle, Legacy.showToast, Legacy.put_icon,
    Legacy.the_toast, Legacy.put_toast, Legacy.the_form, Legacy.put_form,
    Legacy.the_button, Legacy.put_button, setTimeout, console_log, console_error;
  repeat preserves_step.

(** ** The wiring is fixed at start-up *)

Lemma wiring_call h ev : preserves wiring (call h ev).
Proof. destruct h, ev as [[] ?| | |]; preserves_script. Qed.

Lemma wiring_fire t : preserves wiring (fire t).
Proof. destruct t; preserves_script. Qed.

Lemma wiring_step a st st' : step a st = Some st' → wiring st' = wiring st.
Proof.
  intros Hstep. destruct a as [t b|y| |key|name v|i|dt|i|]; simpl in Hstep.
  - injection Hstep as <-. unfold dispatch.
    apply (preserves_foldl_catching wiring (λ l, call l.2 _)); [done|].
    intros; apply wiring_call.
  - injection Hstep as <-. unfold dispatch.
    rewrite (preserves_foldl_catching wiring (λ l, call l.2 _)); [done|done|].
    intros; apply wiring_call.
  - injection Hstep as <-. unfold dispatch.
    apply (preserves_foldl_catching wiring (λ l, call l.2 _)); [done|].
    intros; apply wiring_call.
  - injection Hstep as <-. unfold dispatch.
    apply (preserves_foldl_catching wiring (λ l, call l.2 _)); [done|].
    intros; apply wiring_call.
  - by injection Hstep as <-.
  - case_bool_decide; injection Hstep as <-; [|done].
    apply preserves_catching; [done|]. unfold preserves. by intros.
  - case_bool_decide; [|done]. by injection Hstep as <-.
  - destruct (timers st !! i) as [[due t]|]; [|done].
    case_bool_decide; [|done]. injection Hstep as <-.
    rewrite preserves_catching; [done|done|apply wiring_fire].
  - injection Hstep as <-.
    rewrite (preserves_foldl_catching wiring fire); [done|done|].
    intros; apply wiring_fire.
Qed.

Lemma wiring_run tr : ∀ st0 st, run tr st0 = Some st → wiring st = wiring st0.
Proof.
  induction tr as [|a tr IH]; intros st0 st Hrun; simpl in Hrun.
  - by injection Hrun as <-.
  - destruct (step a st0) as [st1|] eqn:Hs; [|done].
    rewrite (IH _ _ Hrun). by apply wiring_step in Hs.
Qed.

(** X1: once the page has started, nothing the visitor or the timers do
    binds or removes a listener or changes the element registry. *)
Theorem wiring_fixed_after_startup tr st0 st :
  run tr st0 = Some st →
  listeners st = listeners st0 ∧ elements st = elements st0.
Proof.
  intros Hrun. apply wiring_run in Hrun. by injection Hrun as -> ->.
Qed.

Lemma wiring_fixed_after_startup_witness :
  ∃ st, run sample_scrolls (sample_ready form_good) = Some st
        ∧ listeners st = listeners (sample_ready form_good).
Proof.
  assert (∃ st, run sample_scrolls (sample_ready form_good) = Some st) as [st Hst].
  { vm_compute. eexists. reflexivity. }
  exists st. split; [exact Hst|].
  apply (wiring_fixed_after_startup _ _ _ Hst).
Defined.

(** ** One-shot reveal *)

Lemma reveal_call h ev : preserves reveal (call h ev).
Proof. destruct h, ev as [[] ?| | |]; preserves_script. Qed.

Lemma reveal_fire t : preserves reveal (fire t).
Proof. destruct t; preserves_script. Qed.

(** Every turn but the observer's leaves the cards and the watched set as
    they are; the observer's marks the card and stops watching it. *)
Lemma reveal_step a st st' :
  step a st = Some st' →
  reveal st' = reveal st
  ∨ ∃ i, a = Intersect i ∧ i ∈ observed st
         ∧ doc_cards st' = <[i := true]> (doc_cards st)
         ∧ observed st' = filter (λ j, j ≠ i) (observed st).
Proof.
  intros Hstep. destruct a as [t b|y| |key|name v|i|dt|i|]; simpl in Hstep.
  - left. injection Hstep as <-. unfold dispatch.
    apply (preserves_foldl_catching reveal (λ l, call l.2 _)); [done|].
    intros; apply reveal_call.
  - left. injection Hstep as <-. unfold dispatch.
    rewrite (preserves_foldl_catching reveal (λ l, call l.2 _)); [done|done|].
    intros; apply reveal_call.
  - left. injection Hstep as <-. unfold dispatch.
    apply (preserves_foldl_catching reveal (λ l, call l.2 _)); [done|].
    intros; apply reveal_call.
  - left. injection Hstep as <-. unfold dispatch.
    apply (preserves_foldl_catching reveal (λ l, call l.2 _)); [done|].
    intros; apply reveal_call.
  - left. by injection Hstep as <-.
  - case_bool_decide; injection Hstep as <-; [|by left].
    right. exists i. done.
  - left. case_bool_decide; [|done]. by injection Hstep as <-.
  - left. destruct (timers st !! i) as [[due t]|]; [|done].
    case_bool_decide; [|done]. injection Hstep as <-.
    rewrite preserves_catching; [done|done|apply reveal_fire].
  - left. injection Hstep as <-.
    rewrite (preserves_foldl_catching reveal fire); [done|done|].
    intros; apply reveal_fire.
Qed.

Lemma intersect_effect i st st' :
  (i < length (doc_cards st))%nat → i ∈ observed st →
  step (Intersect i) st = Some st' →
  doc_cards st' !! i = Some true ∧ i ∉ observed st'.
Proof.
  intros Hi Hin Hstep. simpl in Hstep. rewrite bool_decide_true in Hstep by done.
  injection Hstep as <-. simpl. split.
  - by apply list_lookup_insert_eq.
  - intros H. by apply list_elem_of_filter in H as [? _].
Qed.

Lemma reveal_run tr : ∀ st0 st,
  run tr st0 = Some st →
  (∀ i, doc_cards st0 !! i = Some true → doc_cards st !! i = Some true)
  ∧ (∀ i, i ∉ observed st0 → i ∉ observed st)
  ∧ length (doc_cards st) = length (doc_cards st0).
Proof.
  induction tr as [|a tr IH]; intros st0 st Hrun; simpl in Hrun.
  - by injection Hrun as <-.
  - destruct (step a st0) as [st1|] eqn:Hs; [|done].
    destruct (IH _ _ Hrun) as (H1 & H2 & H3).
    apply reveal_step in Hs as [Hr|(j & _ & _ & Hc & Ho)].
    + injection Hr as E1 E2. rewrite E1, E2 in *. done.
    + rewrite Hc, Ho in *. rewrite length_insert in H3. split; [|split; [|done]].
      * intros i Hi. apply H1. destruct (decide (i = j)) as [->|Hne].
        -- apply list_lookup_insert_eq. by eapply lookup_lt_Some.
        -- by rewrite list_lookup_insert_ne.
      * intros i Hi. apply H2. intros H. by apply list_elem_of_filter in H as [_ ?].
Qed.

(** X2: the reveal of a card is one-shot and permanent.  Along any run a
    card that is visible stays visible and a card that is no longer
    watched is never watched again; and when a watched card enters the
    viewport it becomes visible and leaves the watched set. *)
Theorem reveal_is_one_shot tr st0 st :
  run tr st0 = Some st →
  (∀ i, doc_cards st0 !! i = Some true → doc_cards st !! i = Some true)
  ∧ (∀ i, i ∉ observed st0 → i ∉ observed st)
  ∧ ∀ i st', (i < length (doc_cards st))%nat → i ∈ observed st →
      step (Intersect i) st = Some st' →
      doc_cards st' !! i = Some true ∧ i ∉ observed st'.
Proof.
  intros Hrun. destruct (reveal_run tr st0 st Hrun) as (H1 & H2 & _).
  split; [exact H1|]. split; [exact H2|]. intros i st'. apply intersect_effect.
Qed.

Lemma reveal_is_one_shot_witness :
  ∃ st, run [Intersect 1; Scroll 400; Intersect 1; Keydown (js "Escape")]
          (sample_ready form_good) = Some st
        ∧ (1%nat ∉ observed (sample_ready form_good) → 1%nat ∉ observed st).
Proof.
  assert (∃ st, run [Intersect 1; Scroll 400; Intersect 1; Keydown (js "Escape")]
                  (sample_ready form_good) = Some st) as [st Hst].
  { vm_compute. eexists. reflexivity. }
  exists st. split; [exact Hst|].
  apply (reveal_is_one_shot _ _ _ Hst).
Defined.

Example reveal_run_sample :
  ∃ st, run [Intersect 1; Scroll 400; Intersect 1; Keydown (js "Escape")]
          (sample_ready form_good) = Some st
        ∧ doc_cards st = [false; true; false]
        ∧ observed st = [0; 2]%nat.
Proof. eexists. split; [vm_compute; reflexivity|]. repeat split. Qed.

(** ** Rules for properties a computation maintains *)

Section Maintains.
Context (P : State → Prop).

Lemma maintains_ret {A} (a : A) : maintains P (mret a).
Proof. by intros st. Qed.

Lemma maintains_throw {A} e : maintains P (@throw A e).
Proof. by intros st. Qed.

Lemma maintains_gets {A} (f : State → A) : maintains P (gets f).
Proof. by intros st. Qed.

Lemma maintains_deref {A} what (o : option A) : maintains P (deref what o).
Proof. destruct o; by intros st. Qed.

Lemma maintains_modify f : (∀ st, P st → P (f st)) → maintains P (modify f).
Proof. intros H st. apply H. Qed.

Lemma maintains_bind {A B} (m : M A) (f : A → M B) :
  maintains P m → (∀ a, maintains P (f a)) → maintains P (m ≫= f).
Proof.
  intros Hm Hf st HP. unfold mbind, M_bind. specialize (Hm st HP).
  destruct (m st) as [[a|e] st']; simpl in *; [|done].
  by apply Hf.
Qed.

Lemma maintains_try_catch_finally body handle fin :
  maintains P body → (∀ e, maintains P (handle e)) → maintains P fin →
  maintains P (try_catch_finally body handle fin).
Proof.
  intros Hb Hh Hf st HP. unfold try_catch_finally. specialize (Hb st HP).
  destruct (body st) as [[a|e] st1]; simpl in *.
  - specialize (Hf st1 Hb). by destruct (fin st1) as [[?|?] st2].
  - specialize (Hh e st1 Hb). destruct (handle e st1) as [r st2]; simpl in *.
    specialize (Hf st2 Hh). by destruct (fin st2) as [[?|?] st3].
Qed.

Lemma maintains_catching m st :
  (∀ st e, P st → P (set_uncaught st e)) →
  maintains P m → P st → P (catching m st).
Proof.
  intros Hu Hm HP. unfold catching. specialize (Hm st HP).
  destruct (m st) as [[a|e] st']; simpl in *; [done|]. by apply Hu.
Qed.

Lemma maintains_foldl_catching {A} (f : A → M unit) (l : list A) :
  (∀ st e, P st → P (set_uncaught st e)) →
  (∀ x, x ∈ l → maintains P (f x)) →
  ∀ st, P st → P (foldl (λ st' x, catching (f x) st') st l).
Proof.
  intros Hu. induction l as [|x l IH]; intros Hf st HP; [done|]. simpl.
  apply IH.
  - intros y Hy. apply Hf. by right.
  - apply maintains_catching; [done| |done]. apply Hf. left.
Qed.

End Maintains.

(** ** What the queues hold *)

Lemma queues_setTimeout t delay :
  app_timer t = true → maintains queues_ok (setTimeout t delay).
Proof.
  intros Ht st [H1 H2]. split; [|done]. simpl.
  apply Forall_app. split; [done|]. by constructor.
Qed.

Ltac queues_step :=
  first
    [ apply maintains_bind; [|intros ?]
    | apply maintains_ret
    | apply maintains_gets
    | apply maintains_deref
    | apply maintains_throw
    | apply queues_setTimeout; reflexivity
    | apply maintains_modify; intros ? ?; assumption
    | apply maintains_try_catch_finally; [| intros ? |]
    | match goal with
      | |- maintains _ (match ?x with _ => _ end) => destruct x
      end ].

Ltac queues_script :=
  unfold call, fire, App.throttledScrollHandler, App.throttle, App.handleScroll,
    App.handleFormSubmit, App.handleFormSubmit_resume, App.handleKeyboard,
    App.handleSmoothScroll, App.toggleMobileMenu, App.observerCallback,
    App.showToast, App.the_toast, App.put_toast, App.the_form, App.put_form,
    App.the_button, App.put_button, console_log, console_error;
  repeat queues_step.

Lemma queues_call h ev : maintains queues_ok (call h ev).
Proof. destruct h, ev as [[] ?| | |]; queues_script. Qed.

Lemma queues_fire t : app_timer t = true ∨ t = FadeIn → maintains queues_ok (fire t).
Proof. intros [Ht| ->]; [destruct t; try done|]; queues_script. Qed.

Lemma Forall_delete {A} (Q : A → Prop) (l : list A) i : Forall Q l → Forall Q (delete i l).
Proof.
  intros H. revert i. induction H as [|x l Hx Hl IH]; intros [|i]; simpl; try done.
  constructor; auto.
Qed.

Lemma queues_step_ok a st st' : queues_ok st → step a st = Some st' → queues_ok st'.
Proof.
  intros Hq Hstep. destruct a as [t b|y| |key|name v|i|dt|i|]; simpl in Hstep.
  - injection Hstep as <-. unfold dispatch.
    apply (maintains_foldl_catching queues_ok (λ l, call l.2 _)); [done| |done].
    intros; apply queues_call.
  - injection Hstep as <-. unfold dispatch.
    apply (maintains_foldl_catching queues_ok (λ l, call l.2 _)); [done| |done].
    intros; apply queues_call.
  - injection Hstep as <-. unfold dispatch.
    apply (maintains_foldl_catching queues_ok (λ l, call l.2 _)); [done| |done].
    intros; apply queues_call.
  - injection Hstep as <-. unfold dispatch.
    apply (maintains_foldl_catching queues_ok (λ l, call l.2 _)); [done| |done].
    intros; apply queues_call.
  - by injection Hstep as <-.
  - by case_bool_decide; injection Hstep as <-.
  - case_bool_decide; [|done]. by injection Hstep as <-.
  - destruct (timers st !! i) as [[due t]|] eqn:Hi; [|done].
    case_bool_decide; [|done]. injection Hstep as <-.
    destruct Hq as [H1 H2].
    apply maintains_catching; [done| |].
    + apply queues_fire. left.
      rewrite Forall_forall in H1. apply (H1 (due, t)). by eapply list_elem_of_lookup_2.
    + split; [|done]. simpl. by apply Forall_delete.
  - injection Hstep as <-. destruct Hq as [H1 H2].
    apply (maintains_foldl_catching queues_ok fire); [done| |].
    + intros t Ht. apply queues_fire. right.
      rewrite Forall_forall in H2. by apply H2.
    + split; [done|]. simpl. constructor.
Qed.

(** ** The fade-in of the page *)

Lemma fade_call h ev : preserves fade (call h ev).
Proof. destruct h, ev as [[] ?| | |]; preserves_script. Qed.

Lemma fade_fire t : app_timer t = true → preserves fade (fire t).
Proof. intros Ht. destruct t; try done; preserves_script. Qed.

Lemma fade_step a st st' :
  queues_ok st → a ≠ Frame → step a st = Some st' → fade st' = fade st.
Proof.
  intros Hq Ha Hstep.
  destruct a as [t b|y| |key|name v|i|dt|i|]; simpl in Hstep; try done.
  - injection Hstep as <-. unfold dispatch.
    apply (preserves_foldl_catching fade (λ l, call l.2 _)); [done|].
    intros; apply fade_call.
  - injection Hstep as <-. unfold dispatch.
    rewrite (preserves_foldl_catching fade (λ l, call l.2 _)); [done|done|].
    intros; apply fade_call.
  - injection Hstep as <-. unfold dispatch.
    apply (preserves_foldl_catching fade (λ l, call l.2 _)); [done|].
    intros; apply fade_call.
  - injection Hstep as <-. unfold dispatch.
    apply (preserves_foldl_catching fade (λ l, call l.2 _)); [done|].
    intros; apply fade_call.
  - by injection Hstep as <-.
  - case_bool_decide; injection Hstep as <-; [|done].
    apply preserves_catching; [done|]. unfold preserves. by intros.
  - case_bool_decide; [|done]. by injection Hstep as <-.
  - destruct (timers st !! i) as [[due t]|] eqn:Hi; [|done].
    case_bool_decide; [|done]. injection Hstep as <-.
    rewrite preserves_catching; [done|done|]. apply fade_fire.
    destruct Hq as [H1 _]. rewrite Forall_forall in H1.
    apply (H1 (due, t)). by eapply list_elem_of_lookup_2.
Qed.

Lemma fade_frame st st' :
  step Frame st = Some st' →
  (fade st = fade_untouched → fade st' = fade_untouched)
  ∧ (fade st = fade_hidden → fade st' = fade_shown)
  ∧ (fade st = fade_shown → fade st' = fade_shown).
Proof.
  intros Hstep. simpl in Hstep. injection Hstep as <-.
  unfold fade, fade_untouched, fade_hidden, fade_shown.
  repeat split; intros H; injection H as H1 H2 H3; rewrite H3; simpl;
    by rewrite ?H1, ?H2.
Qed.

(** A complete start-up hides the body and leaves the fade-in pending. *)
Lemma init_fade hdr form tst icon hero anchors n cards :
  ∃ st, App.init (load hdr true true true form tst icon hero anchors n cards) = (Ok tt, st)
        ∧ fade st = fade_hidden ∧ timers st = [].
Proof.
  unfold App.init. cbv [mbind M_bind]. rewrite cacheDOMElements_spec.
  erewrite bindEvents_spec by reflexivity.
  erewrite setupObservers_spec by reflexivity.
  eexists. split; [reflexivity|]. repeat split.
Qed.

(** A start-up that a missing menu control cuts short never touches the
    body. *)
Lemma boot_aborted_fade hdr toggle overlay close form tst icon hero anchors n cards :
  toggle && overlay && close = false →
  let st := boot (load hdr toggle overlay close form tst icon hero anchors n cards) in
  fade st = fade_untouched ∧ timers st = [].
Proof. destruct toggle, overlay, close; try discriminate; intros _; by cbv zeta. Qed.

Lemma boot_fade hdr toggle overlay close form tst icon hero anchors n cards :
  let st := boot (load hdr toggle overlay close form tst icon hero anchors n cards) in
  queues_ok st
  ∧ (fade st = fade_hidden ∨ fade st = fade_untouched).
Proof.
  cbv zeta.
  assert (Hcases : ∃ st, boot (load hdr toggle overlay close form tst icon hero anchors n
                                 cards) = st
                         ∧ timers st = []
                         ∧ (fade st = fade_hidden ∨ fade st = fade_untouched)).
  { destruct (toggle && overlay && close) eqn:Hc.
    - apply andb_prop in Hc as [Hc ->]. apply andb_prop in Hc as [-> ->].
      destruct (init_fade hdr form tst icon hero anchors n cards) as (st & Hst & Hf & Ht).
      exists st. unfold boot, catching. rewrite Hst. auto.
    - destruct (boot_aborted_fade hdr toggle overlay close form tst icon hero anchors n
                  cards Hc) as [Hf Ht].
      eexists. split; [reflexivity|]. auto. }
  destruct Hcases as (st & -> & Ht & Hf). split; [|done].
  split; [rewrite Ht; constructor|].
  unfold fade, fade_hidden, fade_untouched in Hf.
  destruct Hf as [Hf|Hf]; injection Hf as _ _ ->; by repeat constructor.
Qed.

(** X3: the page is never left invisible.  In every state the page can
    reach, the body is at opacity 0 only while the fade-in callback is
    pending; the first animation frame then shows it, and from an
    animation frame on it is never hidden again. *)
Theorem page_never_left_invisible hdr toggle overlay close form tst icon hero anchors n
    cards tr st :
  run tr (boot (load hdr toggle overlay close form tst icon hero anchors n cards))
  = Some st →
  (fade st = fade_untouched ∨ fade st = fade_hidden ∨ fade st = fade_shown)
  ∧ (In Frame tr → body_opacity st ≠ Some (js "0")).
Proof.
  pose proof (boot_fade hdr toggle overlay close form tst icon hero anchors n cards)
    as [Hq Hf]. cbv zeta in Hq, Hf.
  revert Hq Hf.
  generalize (boot (load hdr toggle overlay close form tst icon hero anchors n cards)).
  intros st0 Hq Hf Hrun.
  assert (Hgen : ∀ tr st0 st, queues_ok st0 → run tr st0 = Some st →
            ((fade st0 = fade_untouched ∨ fade st0 = fade_hidden ∨ fade st0 = fade_shown) →
             (fade st = fade_untouched ∨ fade st = fade_hidden ∨ fade st = fade_shown))
            ∧ ((fade st0 = fade_untouched ∨ fade st0 = fade_shown) →
               (fade st = fade_untouched ∨ fade st = fade_shown))
            ∧ ((fade st0 = fade_untouched ∨ fade st0 = fade_hidden ∨ fade st0 = fade_shown) →
               In Frame tr → fade st = fade_untouched ∨ fade st = fade_shown)).
  { clear. induction tr as [|a tr IH]; intros st0 st Hq Hrun; simpl in Hrun.
    - injection Hrun as <-. split; [done|]. split; [done|]. by intros _ [].
    - destruct (step a st0) as [st1|] eqn:Hs; [|done].
      pose proof (queues_step_ok _ _ _ Hq Hs) as Hq1.
      destruct (IH _ _ Hq1 Hrun) as (I1 & I2 & I3).
      assert (a = Frame ∨ a ≠ Frame) as [->|Ha] by (destruct a; (by left) || (by right)).
      + destruct (fade_frame _ _ Hs) as (F1 & F2 & F3).
        split; [|split].
        * intros [H|[H|H]]; apply I1; auto.
        * intros [H|H]; apply I2; auto.
        * intros [H|[H|H]] _; apply I2; auto.
      + rewrite <- (fade_step _ _ _ Hq Ha Hs). split; [done|]. split; [done|].
        intros H [Heq|Hin]; [by subst|]. by apply I3. }
  destruct (Hgen tr st0 st Hq Hrun) as (G1 & _ & G3).
  split.
  - apply G1. destruct Hf; auto.
  - intros Hin. destruct G3 as [H|H]; [destruct Hf; auto|done| |];
      unfold fade in H; injection H as -> _ _; discriminate.
Qed.

Lemma page_never_left_invisible_witness :
  ∃ st, run [Scroll 30; Frame; Submit] (sample_ready form_good) = Some st
        ∧ body_opacity st ≠ Some (js "0").
Proof.
  assert (∃ st, run [Scroll 30; Frame; Submit] (sample_ready form_good) = Some st)
    as [st Hst].
  { vm_compute. eexists. reflexivity. }
  exists st. split; [exact Hst|].
  apply (page_never_left_invisible _ _ _ _ _ _ _ _ _ _ _ _ _ Hst).
  right. left. reflexivity.
Defined.

(** ** The header and the latest handled scroll event *)

(** A turn of the loop either leaves the throttle and the header alone, or
    is a scroll event that gets handled, or is the end of a window. *)
Lemma step_scroll_cases a st st' :
  throttle_inv st → step a st = Some st' →
  listeners st' = listeners st
  ∧ ((inThrottle st' = inThrottle st ∧ scroll_handled st' = scroll_handled st
      ∧ doc_header st' = doc_header st)
     ∨ (∃ y, a = Scroll y ∧ inThrottle st = false
          ∧ scroll_listeners st = [(TWindow, EvScroll, OnScroll)]
          ∧ inThrottle st' = true
          ∧ scroll_handled st' = scroll_handled st ++ [(now st, y)]
          ∧ doc_header st'
            = Some (mkHeader (bool_decide (y > App.headerScrollThreshold))))
     ∨ (inThrottle st' = false ∧ scroll_handled st' = scroll_handled st
        ∧ doc_header st' = doc_header st)).
Proof.
  intros Hinv Hstep.
  assert (Hview : ∀ s, throttle_view s = throttle_view st →
            listeners s = listeners st
            ∧ ((inThrottle s = inThrottle st ∧ scroll_handled s = scroll_handled st
                ∧ doc_header s = doc_header st)
               ∨ (∃ y, a = Scroll y ∧ inThrottle st = false
                    ∧ scroll_listeners st = [(TWindow, EvScroll, OnScroll)]
                    ∧ inThrottle s = true
                    ∧ scroll_handled s = scroll_handled st ++ [(now st, y)]
                    ∧ doc_header s
                      = Some (mkHeader (bool_decide (y > App.headerScrollThreshold))))
               ∨ (inThrottle s = false ∧ scroll_handled s = scroll_handled st
                  ∧ doc_header s = doc_header st))).
  { intros s Hs. unfold throttle_view in Hs. injection Hs as E1 E2 E3 E4 E5 E6 E7 E8.
    split; [done|]. left. done. }
  destruct a as [t b|y| |key|name v|i|dt|i|]; simpl in Hstep.
  - injection Hstep as <-. apply Hview. by apply dispatch_other.
  - injection Hstep as <-. pose proof (dispatch_scroll st y Hinv) as Hd.
    destruct (inv_listeners st Hinv) as [Hl|Hl]; rewrite Hl in Hd; rewrite Hd.
    { by apply (Hview (set_scrollY st y)). }
    unfold catching. destruct (inThrottle st) eqn:Hb.
    + rewrite throttled_skip by done. split; [done|]. by left.
    + destruct (throttled_run (set_scrollY st y)) as (st1 & -> & H1 & H2 & H3 & H4 & H5).
      * done.
      * apply (inv_registry st Hinv). by rewrite Hl.
      * apply (inv_header st Hinv).
      * injection H5 as E1 E2 E3 E4 E5. split; [done|]. right. left.
        exists y. done.
  - injection Hstep as <-. apply Hview. by apply dispatch_other.
  - injection Hstep as <-. apply Hview. by apply dispatch_other.
  - injection Hstep as <-. apply Hview. reflexivity.
  - case_bool_decide; injection Hstep as <-; [|by apply Hview].
    apply Hview. apply keeps_catching. exact (keeps_observerCallback i true).
  - case_bool_decide; [|done]. injection Hstep as <-. split; [done|]. by left.
  - destruct (timers st !! i) as [[due t]|] eqn:Hi; [|done].
    case_bool_decide; [|done]. injection Hstep as <-.
    destruct (is_off (0, t)) eqn:Ht.
    + destruct t; try discriminate. split; [done|]. right. right. done.
    + assert (Hk := keeps_catching (fire t) (set_timers st (delete i (timers st)))
                      (keeps_fire t Ht)).
      unfold throttle_view in Hk. injection Hk as E1 E2 E3 E4 E5 E6 E7 E8.
      split; [done|]. left. done.
  - injection Hstep as <-.
    assert (Hgen : ∀ ts s, Forall (λ t, is_off (0, t) = false) ts →
              throttle_view (foldl (λ st' t, catching (fire t) st') s ts)
              = throttle_view s).
    { induction ts as [|t ts IH]; intros s Hts; [done|].
      inversion Hts as [|? ? Ht Hts']; subst. simpl. rewrite IH by done.
      by apply keeps_catching, keeps_fire. }
    pose proof (Hgen (frames st) (set_frames st []) (inv_frames st Hinv)) as Hk.
    unfold throttle_view in Hk. injection Hk as E1 E2 E3 E4 E5 E6 E7 E8.
    split; [done|]. left. done.
Qed.

Lemma scroll_inv_step a st st' : scroll_inv st → step a st = Some st' → scroll_inv st'.
Proof.
  intros [Hinv Hbusy Hhdr] Hstep.
  pose proof (step_inv _ _ _ Hinv Hstep) as Hinv'.
  destruct (step_scroll_cases _ _ _ Hinv Hstep)
    as [Hl [(E1 & E2 & E3)|[(y & _ & Hb & Hsl & E1 & E2 & E3)|(E1 & E2 & E3)]]].
  - constructor; [done| |].
    + unfold scroll_listeners, last_handled. rewrite Hl, E1, E2. exact Hbusy.
    + intros t y. rewrite E2, E3. apply Hhdr.
  - constructor; [done| |].
    + intros _. unfold scroll_listeners, last_handled in *. rewrite Hl, E2, last_snoc.
      split; [done|]. by eexists.
    + intros t y'. rewrite E2, last_snoc. intros H. injection H as _ <-. done.
  - constructor; [done| |].
    + rewrite E1. done.
    + intros t y. rewrite E2, E3. apply Hhdr.
Qed.

Lemma scroll_inv_run tr : ∀ st st', scroll_inv st → run tr st = Some st' → scroll_inv st'.
Proof.
  induction tr as [|a tr IH]; intros st st' Hinv Hrun; simpl in Hrun.
  - by injection Hrun as <-.
  - destruct (step a st) as [st1|] eqn:Hs; [|done].
    eapply IH; [|exact Hrun]. by eapply scroll_inv_step.
Qed.

Lemma scroll_inv_boot hdr toggle overlay close form tst icon hero anchors n cards :
  scroll_inv
    (boot (load (Some hdr) toggle overlay close form tst icon hero anchors n cards)).
Proof.
  destruct (boot_scroll_listeners (Some hdr) toggle overlay close form tst icon hero
              anchors n cards) as (Hl & Hh & Hd & Ht & Hf).
  injection Ht as Ht1 Ht2 Ht3 Ht4.
  constructor; [apply boot_inv| |].
  - by rewrite Ht1.
  - intros t y. by rewrite Ht2.
Qed.


(** X4: on a page with its header, in every state the page can reach the
    header's "scrolled" flag is the threshold test (more than 50) on the
    position of the latest scroll event that was handled.  It is not
    recomputed from the current position: positions of dropped events
    never reach it. *)
Theorem header_reflects_last_handled hdr toggle overlay close form tst icon hero anchors n
    cards tr st t y :
  run tr (boot (load (Some hdr) toggle overlay close form tst icon hero anchors n cards))
  = Some st →
  last (scroll_handled st) = Some (t, y) →
  doc_header st = Some (mkHeader (bool_decide (y > 50))).
Proof.
  intros Hrun. apply (sinv_header st). eapply scroll_inv_run; [|exact Hrun].
  apply scroll_inv_boot.
Qed.

Lemma header_reflects_last_handled_witness :
  ∃ st, run [Scroll 10; Elapse 5; Scroll 100] (sample_ready form_good) = Some st
        ∧ scrollY st = 100
        ∧ doc_header st = Some (mkHeader (bool_decide (10 > 50))).
Proof.
  assert (∃ st, run [Scroll 10; Elapse 5; Scroll 100] (sample_ready form_good) = Some st
                ∧ scrollY st = 100 ∧ last (scroll_handled st) = Some (0, 10))
    as (st & Hst & Hy & Hl).
  { vm_compute. eexists. split; [reflexivity|]. split; reflexivity. }
  exists st. split; [exact Hst|]. split; [exact Hy|].
  exact (header_reflects_last_handled _ _ _ _ _ _ _ _ _ _ _ _ _ _ _ Hst Hl).
Defined.

(** X5: the throttle always reopens.  Whenever the window is open there is
    a pending timer for its end, due 16 ms after the latest run; once
    that time has come and the timer has fired, the next scroll event is
    handled, on its own position. *)
Theorem throttle_reopens hdr toggle overlay close form tst icon hero anchors n cards tr st :
  run tr (boot (load (Some hdr) toggle overlay close form tst icon hero anchors n cards))
  = Some st →
  inThrottle st = true →
  ∃ i t,
    last_handled st = Some t
    ∧ timers st !! i = Some (t + 16, ThrottleOff)
    ∧ ∀ dt y, 0 ≤ dt → t + 16 ≤ now st + dt →
        ∃ st', run [Elapse dt; Fire i; Scroll y] st = Some st'
               ∧ scroll_handled st' = scroll_handled st ++ [(now st + dt, y)]
               ∧ doc_header st' = Some (mkHeader (bool_decide (y > 50))).
Proof.
  intros Hrun Hb.
  assert (Hs : scroll_inv st) by (eapply scroll_inv_run; [apply scroll_inv_boot|exact Hrun]).
  destruct Hs as [Hinv Hbusy _]. destruct (Hbusy Hb) as [Hl [t Ht]].
  pose proof (inv_pending st Hinv) as Hp. rewrite Hb, Ht in Hp. simpl in Hp.
  assert (Hin : (t + 16, ThrottleOff) ∈ filter is_off (timers st)).
  { rewrite Hp. apply list_elem_of_singleton. reflexivity. }
  apply list_elem_of_filter in Hin as [_ Hin].
  apply list_elem_of_lookup_1 in Hin as [i Hi].
  exists i, t. split; [done|]. split; [done|].
  intros dt y Hdt Hdue.
  assert (H1 : step (Elapse dt) st = Some (set_now st (now st + dt))).
  { simpl. by rewrite bool_decide_true. }
  set (st1 := set_now st (now st + dt)) in *.
  assert (H2 : step (Fire i) st1
               = Some (set_inThrottle (set_timers st1 (delete i (timers st1))) false)).
  { simpl. change (timers st1) with (timers st). rewrite Hi.
    rewrite bool_decide_true by (simpl; lia). reflexivity. }
  set (st2 := set_inThrottle (set_timers st1 (delete i (timers st1))) false) in *.
  assert (Hinv2 : throttle_inv st2).
  { eapply step_inv; [|exact H2]. eapply step_inv; [|exact H1]. done. }
  destruct (throttled_run (set_scrollY st2 y)) as (st' & Hr & _ & R2 & _ & R4 & _).
  - done.
  - apply (inv_registry st Hinv). by rewrite Hl.
  - apply (inv_header st Hinv).
  - exists st'. split; [|split; [exact R2 | exact R4]].
    cbn [run]. rewrite H1. fold st1. rewrite H2. fold st2.
    change (step (Scroll y) st2) with (Some (dispatch EScroll (set_scrollY st2 y))).
    rewrite dispatch_scroll by done.
    change (scroll_listeners st2) with (scroll_listeners st). rewrite Hl.
    unfold catching. by rewrite Hr.
Qed.

Lemma throttle_reopens_witness :
  ∃ st, run [Scroll 10; Elapse 5] (sample_ready form_good) = Some st
        ∧ ∃ i t, last_handled st = Some t
                 ∧ timers st !! i = Some (t + 16, ThrottleOff).
Proof.
  assert (∃ st, run [Scroll 10; Elapse 5] (sample_ready form_good) = Some st
                ∧ inThrottle st = true) as (st & Hst & Hb).
  { vm_compute. eexists. split; reflexivity. }
  exists st. split; [exact Hst|].
  destruct (throttle_reopens _ _ _ _ _ _ _ _ _ _ _ _ _ Hst Hb) as (i & t & H1 & H2 & _).
  eauto.
Defined.

(** ** A page without its header *)

Ltac maintains_step :=
  first
    [ apply maintains_bind; [|intros ?]
    | apply maintains_ret
    | apply maintains_gets
    | apply maintains_deref
    | apply maintains_throw
    | apply maintains_modify; intros ? ?; assumption
    | apply maintains_try_catch_finally; [| intros ? |]
    | match goal with
      | |- maintains _ (match ?x with _ => _ end) => destruct x
      end ].

Ltac maintains_script :=
  unfold call, fire, App.handleFormSubmit, App.handleFormSubmit_resume,
    App.handleKeyboard, App.handleSmoothScroll, App.toggleMobileMenu,
    App.observerCallback, App.showToast, App.the_toast, App.put_toast, App.the_form,
    App.put_form, App.the_button, App.put_button, Legacy.settle, Legacy.showToast,
    Legacy.put_icon, Legacy.the_toast, Legacy.put_toast, Legacy.the_form,
    Legacy.put_form, Legacy.the_button, Legacy.put_button, setTimeout, console_log,
    console_error;
  repeat maintains_step.

(** Without the header [handleScroll] throws right after reading the
    position, before the throttle can close. *)
Lemma throttled_throws st :
  headless st →
  App.throttledScrollHandler st
  = (Throw (TypeError "this.elements.header"),
     set_scroll_handled st (scroll_handled st ++ [(now st, scrollY st)])).
Proof.
  intros [Hb Hh]. destruct_state st. cbn in Hb, Hh. subst. reflexivity.
Qed.

Lemma headless_call h ev : maintains headless (call h ev).
Proof.
  destruct (decide (h = OnScroll)) as [->|Hh].
  - intros st Hst. change (call OnScroll ev) with App.throttledScrollHandler.
    by rewrite throttled_throws.
  - destruct h, ev as [[] ?| | |]; try done; maintains_script.
Qed.

Lemma headless_fire t : maintains headless (fire t).
Proof.
  destruct t; try maintains_script.
  intros st [_ Hh]. by split.
Qed.

Lemma headless_step a st st' : headless st → step a st = Some st' → headless st'.
Proof.
  intros Hq Hstep. destruct a as [t b|y| |key|name v|i|dt|i|]; simpl in Hstep.
  - injection Hstep as <-. unfold dispatch.
    apply (maintains_foldl_catching headless (λ l, call l.2 _)); [done| |done].
    intros; apply headless_call.
  - injection Hstep as <-. unfold dispatch.
    apply (maintains_foldl_catching headless (λ l, call l.2 _)); [done| |done].
    intros; apply headless_call.
  - injection Hstep as <-. unfold dispatch.
    apply (maintains_foldl_catching headless (λ l, call l.2 _)); [done| |done].
    intros; apply headless_call.
  - injection Hstep as <-. unfold dispatch.
    apply (maintains_foldl_catching headless (λ l, call l.2 _)); [done| |done].
    intros; apply headless_call.
  - by injection Hstep as <-.
  - by case_bool_decide; injection Hstep as <-.
  - case_bool_decide; [|done]. by injection Hstep as <-.
  - destruct (timers st !! i) as [[due t]|] eqn:Hi; [|done].
    case_bool_decide; [|done]. injection Hstep as <-.
    apply maintains_catching; [done|apply headless_fire|done].
  - injection Hstep as <-.
    apply (maintains_foldl_catching headless fire); [done| |done].
    intros; apply headless_fire.
Qed.

Lemma headless_run tr : ∀ st st', headless st → run tr st = Some st' → headless st'.
Proof.
  induction tr as [|a tr IH]; intros st st' Hinv Hrun; simpl in Hrun.
  - by injection Hrun as <-.
  - destruct (step a st) as [st1|] eqn:Hs; [|done].
    eapply IH; [|exact Hrun]. by eapply headless_step.
Qed.

(** With the three menu controls the scroll listener is bound, once. *)
Lemma boot_scroll_bound hdr form tst icon hero anchors n cards :
  let st := boot (load hdr true true true form tst icon hero anchors n cards) in
  scroll_listeners st = [(TWindow, EvScroll, OnScroll)]
  ∧ header (elements st) = (λ _, NHeader) <$> hdr
  ∧ inThrottle st = false.
Proof.
  cbv zeta. unfold boot, catching.
  destruct (init_with_menu_controls hdr form tst icon hero anchors n cards)
    as (st & -> & _ & Hl & Hh & _ & _ & _ & Ht & _).
  injection Ht as Ht _ _ _. split; [|done].
  unfold scroll_listeners. rewrite Hl.
  rewrite !filter_app, !filter_fmap_none.
  - by destruct form.
  - intros i [H|H]; discriminate.
  - intros i [H|H]; discriminate.
Qed.

(** X6: on a page that lacks its header (the menu controls being there)
    the throttle never closes: in every state the page can reach, every
    scroll event runs [handleScroll], which throws a [TypeError]; no window
    is opened and no timer is queued. *)
Theorem scroll_unthrottled_without_header form tst icon hero anchors n cards tr st :
  run tr (boot (load None true true true form tst icon hero anchors n cards)) = Some st →
  inThrottle st = false
  ∧ ∀ y, ∃ st', step (Scroll y) st = Some st'
      ∧ scroll_handled st' = scroll_handled st ++ [(now st, y)]
      ∧ uncaught st' = uncaught st ++ [TypeError "this.elements.header"]
      ∧ inThrottle st' = false
      ∧ timers st' = timers st.
Proof.
  intros Hrun.
  destruct (boot_scroll_bound None form tst icon hero anchors n cards) as (Hl & Hh & Hb).
  cbv zeta in Hl, Hh, Hb.
  assert (Hq : headless st) by (eapply headless_run; [|exact Hrun]; by split).
  apply wiring_run in Hrun. injection Hrun as Hw _.
  split; [apply Hq|]. intros y. eexists. split; [reflexivity|].
  unfold dispatch. rewrite scroll_handlers. unfold scroll_listeners.
  change (listeners (set_scrollY st y)) with (listeners st). rewrite Hw.
  unfold scroll_listeners in Hl. rewrite Hl. simpl.
  unfold catching. rewrite throttled_throws by done. simpl.
  destruct Hq as [Hq _]. by rewrite Hq.
Qed.

Lemma scroll_unthrottled_without_header_witness :
  ∃ st, run [Scroll 10; Elapse 1; Scroll 20]
          (boot (load None true true true (Some form_good) (Some empty_toast) None None
                   [] 0 [])) = Some st
        ∧ inThrottle st = false.
Proof.
  assert (∃ st, run [Scroll 10; Elapse 1; Scroll 20]
                  (boot (load None true true true (Some form_good) (Some empty_toast)
                           None None [] 0 [])) = Some st) as [st Hst].
  { vm_compute. eexists. reflexivity. }
  exists st. split; [exact Hst|].
  apply (scroll_unthrottled_without_header _ _ _ _ _ _ _ _ _ Hst).
Defined.

(** ** A complete page raises no exception *)


Lemma clean_bind (m : M unit) (k : M unit) : clean m → clean k → clean (m ;; k).
Proof.
  intros Hm Hk st Hc. destruct (Hm st Hc) as (st1 & E1 & C1 & U1).
  destruct (Hk st1 C1) as (st2 & E2 & C2 & U2).
  exists st2. unfold mbind, M_bind. rewrite E1, E2. split; [done|].
  split; [done|]. by rewrite U2.
Qed.


















(** ** The Escape key *)

(** X9: only the Escape key does anything.  Any other key leaves the state
    as it is.  Escape, the toast being there, closes the menu and hides
    the toast, keeps the toast's content and every pending timer (the
    auto-hide of a hidden toast stays queued), changes nothing at all
    when the menu is closed and the toast hidden, and pressing it a second
    time changes nothing more. *)
Theorem escape_closes_menu_and_toast st tn t :
  toast (elements st) = Some tn →
  doc_toast st = Some t →
  (∀ key, key ≠ js "Escape" → App.handleKeyboard key st = (Ok tt, st))
  ∧ ∃ st', App.handleKeyboard (js "Escape") st = (Ok tt, st')
      ∧ menu_open st' = false
      ∧ doc_toast st'
        = Some (mkToast (toast_title t) (toast_description t) (toastType t) false)
      ∧ timers st' = timers st
      ∧ (menu_open st = false → show t = false → st' = st)
      ∧ App.handleKeyboard (js "Escape") st' = (Ok tt, st').
Proof.
  intros He Hd. split.
  - intros key Hk. unfold App.handleKeyboard. by destruct (decide (key = js "Escape")).
  - destruct_state st. cbn in He, Hd. subst.
    destruct t as [ttl dsc ty [|]], menu_open0;
      eexists; (split; [reflexivity|]); repeat split; done.
Qed.

Lemma escape_closes_menu_and_toast_witness :
  ∃ st', App.handleKeyboard (js "Escape") (sample_ready form_good) = (Ok tt, st')
         ∧ menu_open st' = false.
Proof.
  destruct (escape_closes_menu_and_toast (sample_ready form_good) NToast empty_toast
              eq_refl eq_refl) as (_ & st' & H1 & H2 & _).
  exists st'. auto.
Defined.

(** ** Overlapping submissions *)

(** X10: the handler does not look at the button's state.  When a second
    well-formed submission arrives before the first has settled, it reads
    "Sending..." as the label to restore; once both continuations have
    run, in the order they were queued, the button is enabled again but
    keeps the label "Sending...". *)
Theorem overlapping_submissions_lose_label st f b :
  doc_contactForm st = Some f →
  submitButton f = Some b →
  well_formed (fromEntries (FormData f)) →
  toast_ready st = true →
  let data := fromEntries (FormData f) in
  let st2 := (App.handleFormSubmit (App.handleFormSubmit st).2).2 in
  let first := ResumeSubmit data (textContent b) in
  let second := ResumeSubmit data (js "Sending...") in
  timers st2 = timers st ++ [(now st + 1000, first); (now st + 1000, second)]
  ∧ button_of (fire first st2).2 = Some (mkButton (textContent b) false)
  ∧ (fire second (fire first st2).2).1 = Ok tt
  ∧ button_of (fire second (fire first st2).2).2 = Some (mkButton (js "Sending...") false).
Proof.
  intros Hf Hb Hw Hr. destruct (well_formed_checks _ Hw) as [Hm He]. cbv zeta.
  rewrite (handleFormSubmit_accept st f b Hf Hb Hm He). cbn [snd].
  rewrite (handleFormSubmit_accept _ (mkForm (controls f)
             (Some (mkButton (js "Sending...") true))) (mkButton (js "Sending...") true));
    [|reflexivity|reflexivity|exact Hm|exact He].
  cbn [snd controls textContent]. unfold fire.
  rewrite (resume_success _ _ _ (mkForm (controls f)
             (Some (mkButton (js "Sending...") true))) (mkButton (js "Sending...") true));
    [|reflexivity|reflexivity|].
  2: { unfold toast_ready in *. simpl. exact Hr. }
  cbn [snd].
  rewrite (resume_success _ _ _
             (mkForm (controls (reset (mkForm (controls f)
                (Some (mkButton (js "Sending...") true)))))
                (Some (mkButton (textContent b) false))) (mkButton (textContent b) false));
    [|reflexivity|reflexivity|].
  2: { unfold toast_ready in *. simpl. by destruct (toast (elements st)). }
  split; [|done]. simpl. by rewrite <- app_assoc.
Qed.

Lemma overlapping_submissions_lose_label_witness :
  button_of
    (fire (ResumeSubmit (fromEntries (FormData form_good)) (js "Sending..."))
       (fire (ResumeSubmit (fromEntries (FormData form_good)) (js "Send Message"))
          (App.handleFormSubmit (App.handleFormSubmit (sample_ready form_good)).2).2).2).2
  = Some (mkButton (js "Sending...") false).
Proof.
  apply (overlapping_submissions_lose_label (sample_ready form_good) form_good
           (mkButton (js "Send Message") false) eq_refl eq_refl form_good_well_formed
           eq_refl).
Defined.


(** ** The submission record *)

Lemma fromEntries_snoc entries k v :
  fromEntries (entries ++ [(k, v)]) = <[k := v]> (fromEntries entries).
Proof. unfold fromEntries. by rewrite foldl_app. Qed.

(** X11: the record holds, for every name, the value of the last entry of
    that name, and nothing for a name that no entry has: with two controls
    of one name the later one is the one validated and submitted. *)
Theorem fromEntries_last_wins entries name :
  fromEntries entries !! name = snd <$> last (filter (λ kv, kv.1 = name) entries).
Proof.
  induction entries as [|[k v] entries IH] using rev_ind; [done|].
  rewrite fromEntries_snoc, filter_app, lookup_insert.
  destruct (decide (k = name)) as [->|Hne].
  - rewrite filter_cons_True by done. by rewrite filter_nil, last_snoc.
  - rewrite filter_cons_False by done. by rewrite filter_nil, app_nil_r.
Qed.

Example fromEntries_duplicate :
  fromEntries [("email", js "old@example.org"); ("email", js "new@example.org")] !! "email"
  = Some (js "new@example.org").
Proof. reflexivity. Qed.

(** ** The email validator does not trim *)

(** X12: an accepted email has at least five code units, and no input
    with a whitespace character anywhere is accepted, leading and
    trailing ones included: the validator does not trim. *)
Theorem email_validator_does_not_trim :
  (∀ s, email_test s = true → (5 ≤ length s)%nat)
  ∧ (∀ s1 c s2, RegExp.is_space c = true → email_test (s1 ++ c :: s2) = false).
Proof.
  split.
  - intros s Hs. apply email_test_pattern in Hs
      as (l & d & t & -> & Hl & Hd & Ht & _).
    rewrite !length_app. simpl.
    destruct l, d, t; try done. simpl. lia.
  - intros s1 c s2 Hc. apply not_true_is_false. intros Hs.
    apply email_test_pattern in Hs as (l & d & t & _ & _ & _ & _ & _ & Hall).
    rewrite Forall_app, Forall_cons in Hall. destruct Hall as (_ & Hc' & _).
    congruence.
Qed.

Example email_leading_space : email_test (js " a@b.co") = false.
Proof. reflexivity. Qed.

Example email_trailing_dot_accepted : email_test (js "a@b.c.") = true.
Proof. reflexivity. Qed.


(** ** The mobile menu *)

Lemma filter_mobile_links (h : handler) i a n :
  filter (λ l : target * event_type * handler,
            l.1.1 = TMobileNavLink i ∧ l.1.2 = EvClick)
    ((λ j, (TMobileNavLink j, EvClick, h)) <$> seq a n)
  = if bool_decide (a ≤ i < a + n)%nat then [(TMobileNavLink i, EvClick, h)] else [].
Proof.
  revert a. induction n as [|n IH]; intros a; simpl.
  - rewrite bool_decide_false by lia. done.
  - rewrite filter_cons, IH. simpl.
    destruct (decide (TMobileNavLink a = TMobileNavLink i ∧ EvClick = EvClick))
      as [[Heq _]|Hne].
    + injection Heq as ->. rewrite bool_decide_false by lia.
      by rewrite bool_decide_true by lia.
    + assert (a ≠ i) by (intros ->; by apply Hne).
      repeat case_bool_decide; try done; lia.
Qed.

(** The listeners of a click, on a page that started with its three menu
    controls. *)
Lemma menu_click_handlers hdr form tst icon hero anchors n cards tr st t :
  run tr (boot (load hdr true true true form tst icon hero anchors n cards)) = Some st →
  filter (λ l, l.1.1 = t ∧ l.1.2 = EvClick) (listeners st)
  = match t with
    | TToggle => [(TToggle, EvClick, OnToggleClick)]
    | TClose => [(TClose, EvClick, OnCloseClick)]
    | TOverlay => [(TOverlay, EvClick, OnOverlayClick)]
    | TMobileNavLink i =>
        if bool_decide (i < n)%nat
        then [(TMobileNavLink i, EvClick, OnMobileNavLinkClick)] else []
    | TNavLink i =>
        filter (λ l, l.1.1 = TNavLink i ∧ l.1.2 = EvClick)
          ((λ j, (TNavLink j, EvClick, OnAnchorClick)) <$> seq 0 (length anchors))
    | _ => []
    end.
Proof.
  intros Hrun. apply wiring_run in Hrun. injection Hrun as -> _.
  unfold boot, catching.
  destruct (init_with_menu_controls hdr form tst icon hero anchors n cards)
    as (st0 & -> & _ & -> & _).
  rewrite !filter_app.
  destruct t as [| | |i|i| | |].
  - rewrite !filter_fmap_none by (intros j [H _]; discriminate). by destruct form.
  - rewrite !filter_fmap_none by (intros j [H _]; discriminate). by destruct form.
  - rewrite !filter_fmap_none by (intros j [H _]; discriminate). by destruct form.
  - rewrite filter_mobile_links.
    rewrite (filter_fmap_none _ (λ j, (TNavLink j, EvClick, OnAnchorClick)))
      by (intros j [H _]; discriminate).
    replace (bool_decide (0 ≤ i < 0 + n)%nat) with (bool_decide (i < n)%nat)
      by (apply bool_decide_ext; lia).
    destruct form; simpl; by rewrite app_nil_r.
  - rewrite (filter_fmap_none _ (λ j, (TMobileNavLink j, EvClick, OnMobileNavLinkClick)))
      by (intros j [H _]; discriminate).
    destruct form; simpl; by rewrite app_nil_r.
  - rewrite !filter_fmap_none by (intros j [H _]; discriminate). by destruct form.
  - rewrite !filter_fmap_none by (intros j [H _]; discriminate). by destruct form.
  - rewrite !filter_fmap_none by (intros j [H _]; discriminate). by destruct form.
Qed.

(** X13: on a page that started with its three menu controls, in every
    state it can reach: a click on the toggle opens the menu and a click
    on the close button closes it, each changing nothing else, so that a
    repeated click changes nothing more; a click on the overlay closes the
    menu when it lands on the overlay itself and does nothing at all when
    it lands on something inside it; and a click on a link of the menu
    closes the menu. *)
Theorem menu_clicks hdr form tst icon hero anchors n cards tr st :
  run tr (boot (load hdr true true true form tst icon hero anchors n cards)) = Some st →
  (∀ b, step (Click TToggle b) st = Some (set_menu_open st true))
  ∧ (∀ b, step (Click TClose b) st = Some (set_menu_open st false))
  ∧ step (Click TOverlay true) st = Some (set_menu_open st false)
  ∧ step (Click TOverlay false) st = Some st
  ∧ ∀ i b st', (i < n)%nat → step (Click (TMobileNavLink i) b) st = Some st' →
      menu_open st' = false.
Proof.
  intros Hrun.
  pose proof (λ t, menu_click_handlers hdr form tst icon hero anchors n cards tr st t Hrun)
    as Hh.
  repeat split.
  - intros b. simpl. unfold dispatch. simpl. by rewrite (Hh TToggle).
  - intros b. simpl. unfold dispatch. simpl. by rewrite (Hh TClose).
  - simpl. unfold dispatch. simpl. by rewrite (Hh TOverlay).
  - simpl. unfold dispatch. simpl. by rewrite (Hh TOverlay).
  - intros i b st' Hi Hstep. simpl in Hstep. unfold dispatch in Hstep. simpl in Hstep.
    rewrite (Hh (TMobileNavLink i)), bool_decide_true in Hstep by done.
    by injection Hstep as <-.
Qed.

Lemma menu_clicks_witness :
  ∃ st, run [Click TToggle true; Scroll 5] (sample_ready form_good) = Some st
        ∧ step (Click TOverlay false) st = Some st.
Proof.
  assert (∃ st, run [Click TToggle true; Scroll 5] (sample_ready form_good) = Some st)
    as [st Hst].
  { vm_compute. eexists. reflexivity. }
  exists st. split; [exact Hst|].
  apply (menu_clicks _ _ _ _ _ _ _ _ _ _ Hst).
Defined.


(** ** Start-up as a whole *)

Lemma init_completes hdr form tst icon hero anchors n cards :
  ∃ st, App.init (load hdr true true true form tst icon hero anchors n cards) = (Ok tt, st)
        ∧ length (preloaded st) = 4%nat
        ∧ body_opacity st = Some (js "0").
Proof.
  unfold App.init. cbv [mbind M_bind]. rewrite cacheDOMElements_spec.
  erewrite bindEvents_spec by reflexivity.
  erewrite setupObservers_spec by reflexivity.
  eexists. split; [reflexivity|]. split; reflexivity.
Qed.

Lemma boot_aborted hdr toggle overlay close form tst icon hero anchors n cards :
  toggle && close && overlay = false →
  let st := boot (load hdr toggle overlay close form tst icon hero anchors n cards) in
  (∃ e, uncaught st = [e])
  ∧ (∃ k, listeners st
          = take k [(TToggle, EvClick, OnToggleClick); (TClose, EvClick, OnCloseClick)])
  ∧ observed st = []
  ∧ preloaded st = []
  ∧ frames st = []
  ∧ body_opacity st = None.
Proof.
  destruct toggle, close, overlay; try discriminate; intros _; cbv zeta;
    (split; [by eexists|]); (split; [|done]).
  - by exists 2%nat.
  - by exists 1%nat.
  - by exists 1%nat.
  - by exists 0%nat.
  - by exists 0%nat.
  - by exists 0%nat.
  - by exists 0%nat.
Qed.

(** X14: start-up is all or nothing in the three menu controls.  When the
    toggle, the close button and the overlay are all in the page, [init]
    ends without exception, the scroll and key listeners are bound, the
    submit listener is bound exactly when the form exists, every card is
    observed, the four images are requested and the fade-in is under way.
    When one of them is missing, one exception is reported and none of
    this has happened: no scroll, key or submit listener, no card
    observed, no image requested, the body untouched; whatever the rest
    of the page holds. *)
Theorem startup_all_or_nothing hdr toggle overlay close form tst icon hero anchors n cards :
  let st := boot (load hdr toggle overlay close form tst icon hero anchors n cards) in
  let menu := toggle && close && overlay in
  (uncaught st = [] ↔ menu = true)
  ∧ ((TWindow, EvScroll, OnScroll) ∈ listeners st ↔ menu = true)
  ∧ ((TDocument, EvKeydown, OnKeydown) ∈ listeners st ↔ menu = true)
  ∧ ((TForm, EvSubmit, OnFormSubmit) ∈ listeners st ↔ menu = true ∧ is_Some form)
  ∧ observed st = (if menu then seq 0 (length cards) else [])
  ∧ length (preloaded st) = (if menu then 4%nat else 0%nat)
  ∧ frames st = (if menu then [FadeIn] else [])
  ∧ body_opacity st = (if menu then Some (js "0") else None).
Proof.
  cbv zeta. destruct (toggle && close && overlay) eqn:Hm.
  - apply andb_prop in Hm as [Hm ->]. apply andb_prop in Hm as [-> ->].
    unfold boot, catching.
    destruct (init_completes hdr form tst icon hero anchors n cards) as (st & Hst & Hp & Ho).
    destruct (init_with_menu_controls hdr form tst icon hero anchors n cards)
      as (st1 & Hst1 & Hu & Hl & _ & _ & Hobs & Hfr & _).
    rewrite Hst in Hst1. injection Hst1 as <-. rewrite Hst.
    assert (Hi2 : ∀ (h : handler) (f : nat → target) k x,
              x.1.2 ≠ EvClick → x ∉ ((λ i, (f i, EvClick, h)) <$> seq 0 k)).
    { intros h f k x Hx Hin. apply list_elem_of_fmap in Hin as (j & -> & _). by apply Hx. }
    rewrite Hl, Hu, Hobs, Hp, Hfr, Ho.
    split; [done|]. split; [split; [done|intros _; set_solver]|].
    split; [split; [done|intros _; set_solver]|].
    split; [|done]. split.
    + intros Hin. split; [done|].
      rewrite !elem_of_app in Hin.
      destruct Hin as [Hin|[Hin|[Hin|[Hin|Hin]]]].
      * repeat (apply elem_of_cons in Hin as [Hin|Hin]; [discriminate Hin|]).
        by apply elem_of_nil in Hin.
      * by apply Hi2 in Hin.
      * by apply Hi2 in Hin.
      * destruct form; [by eexists|]. by apply elem_of_nil in Hin.
      * repeat (apply elem_of_cons in Hin as [Hin|Hin]; [discriminate Hin|]).
        by apply elem_of_nil in Hin.
    + intros [_ [f ->]]. set_solver.
  - destruct (boot_aborted hdr toggle overlay close form tst icon hero anchors n cards Hm)
      as ([e He] & [k Hk] & Hobs & Hp & Hfr & Ho).
    cbv zeta in He, Hk, Hobs, Hp, Hfr, Ho.
    rewrite He, Hk, Hobs, Hp, Hfr, Ho.
    assert (Hsub : ∀ x, x ∈ take k [(TToggle, EvClick, OnToggleClick);
                                    (TClose, EvClick, OnCloseClick)] → x.1.2 = EvClick).
    { intros x Hx. apply subseteq_take in Hx.
      repeat (apply elem_of_cons in Hx as [->|Hx]; [done|]).
      by apply elem_of_nil in Hx. }
    split; [done|]. split; [split; [by intros Hx%Hsub|done]|].
    split; [split; [by intros Hx%Hsub|done]|].
    split; [|done]. split; [by intros Hx%Hsub|by intros [? _]].
Qed.


(** ** Submissions on a page whose toast cannot be written *)

(** The two checks of the handlers pass only on a well-formed record. *)
Lemma checks_well_formed (data : gmap string (list N)) :
  falsy (data !! "firstName") || falsy (data !! "lastName")
  || falsy (data !! "email") || falsy (data !! "message") = false →
  email_test (to_string (data !! "email")) = true →
  well_formed data.
Proof.
  intros Hm He. pose proof (proj1 (missing_false data) Hm) as Hreq. clear Hm.
  rename Hreq into Hm. split; [done|].
  assert (Hin : "email" ∈ required_fields).
  { unfold required_fields. apply elem_of_cons. right. apply elem_of_cons. right.
    apply elem_of_cons. by left. }
  pose proof (Hm "email" Hin) as Hne. unfold field_empty in Hne.
  destruct (data !! "email") as [e|]; [|by destruct Hne; left].
  exists e. split; [done|]. by apply email_test_pattern.
Qed.

(** When [showToast] cannot write all it writes, it throws before the
    toast is made visible and before the timer is set. *)
Lemma showToast_unready a st :
  toast_ready st = false →
  ∃ e t', App.showToast a st = (Throw e, set_doc_toast st t')
          ∧ show <$> t' = show <$> doc_toast st.
Proof.
  unfold toast_ready. intros H. destruct_state st. cbn in H.
  destruct toast0, doc_toast0 as [[[x|] [y|] ty sh]|]; try done;
    eexists; eexists; (split; [reflexivity|reflexivity]).
Qed.

(** X15: when the toast or one of its two text nodes is missing, a
    submission that fails validation gets no answer at all.  The handler
    ends in a TypeError; the toast is not made visible, no timer is set,
    and the form, its button and the console are as before: nothing but
    the toast's title can have changed. *)
Theorem rejection_is_silent_without_toast st f :
  doc_contactForm st = Some f →
  ¬ well_formed (fromEntries (FormData f)) →
  toast_ready st = false →
  ∃ e t', App.handleFormSubmit st = (Throw e, set_doc_toast st t')
          ∧ show <$> t' = show <$> doc_toast st.
Proof.
  intros Hf Hw Hr.
  destruct (falsy (fromEntries (FormData f) !! "firstName")
            || falsy (fromEntries (FormData f) !! "lastName")
            || falsy (fromEntries (FormData f) !! "email")
            || falsy (fromEntries (FormData f) !! "message")) eqn:Hm.
  - rewrite (handleFormSubmit_missing st f Hf Hm). by apply showToast_unready.
  - destruct (email_test (to_string (fromEntries (FormData f) !! "email"))) eqn:He.
    + destruct Hw. by apply checks_well_formed.
    + rewrite (handleFormSubmit_invalid st f Hf Hm He). by apply showToast_unready.
Qed.

Lemma rejection_is_silent_without_toast_witness :
  ∃ e t',
    App.handleFormSubmit
      (boot (load (Some (mkHeader false)) true true true (Some form_bad_email) None None
               None [] 0 []))
    = (Throw e,
       set_doc_toast
         (boot (load (Some (mkHeader false)) true true true (Some form_bad_email) None
                  None None [] 0 [])) t')
    ∧ show <$> t' = None.
Proof.
  apply (rejection_is_silent_without_toast
           (boot (load (Some (mkHeader false)) true true true (Some form_bad_email) None
                    None None [] 0 [])) form_bad_email).
  - reflexivity.
  - intros [_ (e & He & Hp)]. vm_compute in He. injection He as <-.
    apply email_test_pattern in Hp. vm_compute in Hp. discriminate.
  - reflexivity.
Defined.

(** ** The standalone script's form handling *)

(** X16: the standalone script applies the same two checks as [App].  On
    a form with its submit button, both accept a submission exactly when
    it is well formed, and then do the same: the button shows
    "Sending..." and is disabled, and one continuation is queued, due in
    1000 ms, carrying the record and the button's label.  Otherwise both
    answer with an error toast of the same title and message, and touch
    neither the form nor the button. *)
Theorem legacy_accepts_same_submissions st f b :
  doc_contactForm st = Some f →
  submitButton f = Some b →
  let data := fromEntries (FormData f) in
  let sending k :=
    set_timers
      (set_doc_contactForm st
         (Some (mkForm (controls f) (Some (mkButton (js "Sending...") true)))))
      (timers st ++ [(now st + 1000, k data (textContent b))]) in
  (well_formed data →
     Legacy.onSubmit st = (Ok tt, sending LegacySettle)
     ∧ App.handleFormSubmit st = (Ok tt, sending ResumeSubmit))
  ∧ (¬ well_formed data →
     ∃ msg,
       Legacy.onSubmit st = Legacy.showToast (js "Error") msg (Some (js "error")) st
       ∧ App.handleFormSubmit st
         = App.showToast (mkToastArgs (js "Error") msg (Some (js "error"))) st).
Proof.
  intros Hf Hb. cbv zeta. split.
  - intros Hw. destruct (well_formed_checks _ Hw) as [Hm He].
    split; [|by apply (handleFormSubmit_accept st f b)].
    unfold Legacy.onSubmit, Legacy.the_form.
    cbv [mbind M_bind gets deref mret M_ret]. rewrite Hf, Hm, He.
    destruct_state st. destruct f as [cs sb]. simpl in Hf, Hb. subst. reflexivity.
  - intros Hw.
    destruct (falsy (fromEntries (FormData f) !! "firstName")
              || falsy (fromEntries (FormData f) !! "lastName")
              || falsy (fromEntries (FormData f) !! "email")
              || falsy (fromEntries (FormData f) !! "message")) eqn:Hm.
    + exists (js "Please fill in all required fields."). split.
      * unfold Legacy.onSubmit, Legacy.the_form.
        cbv [mbind M_bind gets deref mret M_ret]. by rewrite Hf, Hm.
      * by apply (handleFormSubmit_missing st f).
    + destruct (email_test (to_string (fromEntries (FormData f) !! "email"))) eqn:He.
      * destruct Hw. by apply checks_well_formed.
      * exists (js "Please enter a valid email address."). split.
        -- unfold Legacy.onSubmit, Legacy.the_form.
           cbv [mbind M_bind gets deref mret M_ret]. by rewrite Hf, Hm, He.
        -- by apply (handleFormSubmit_invalid st f).
Qed.

Lemma legacy_accepts_same_submissions_witness :
  ∃ st1 st2,
    Legacy.onSubmit (sample_ready form_good) = (Ok tt, st1)
    ∧ App.handleFormSubmit (sample_ready form_good) = (Ok tt, st2).
Proof.
  destruct (legacy_accepts_same_submissions (sample_ready form_good) form_good
              (mkButton (js "Send Message") false) eq_refl eq_refl) as [Hacc _].
  destruct (Hacc form_good_well_formed) as [H1 H2].
  eexists. eexists. split; [exact H1|exact H2].
Defined.

(** X17: the standalone script's continuation resets the form and
    restores the button first, then shows the toast, and logs last.  So
    the form is cleared and the button is back to the label it carries
    and enabled however the continuation ends.  When the toast, its text
    nodes and its icon are there, it ends normally and logs one record:
    every submitted field, and under "timestamp" the time at which the
    continuation runs, which replaces a form field of that name.  When
    one of them is missing it ends in a TypeError with the form already
    cleared, and logs nothing and sets no timer. *)
Theorem legacy_settle_clears_form_first data orig st f b :
  doc_contactForm st = Some f →
  submitButton f = Some b →
  let r := Legacy.settle data orig st in
  doc_contactForm r.2 = Some (mkForm (controls (reset f)) (Some (mkButton orig false)))
  ∧ (legacy_toast_ready st = true →
       r.1 = Ok tt
       ∧ ∃ record,
           console r.2 = console st ++ [ConsoleLog (js "Contact form submission:") record]
           ∧ record !! "timestamp" = Some (IsoDate (now st))
           ∧ ∀ k, k ≠ "timestamp" → record !! k = Str <$> data !! k)
  ∧ (legacy_toast_ready st = false →
       (∃ e, r.1 = Throw e) ∧ console r.2 = console st ∧ timers r.2 = timers st).
Proof.
  intros Hf Hb. cbv zeta. unfold legacy_toast_ready.
  destruct_state st. destruct f as [cs sb]. cbn in Hf, Hb. subst.
  destruct doc_toast0 as [[[x|] [y|] ty sh]|], doc_toastIcon0 as [[cls col]|];
    (split; [vm_compute; reflexivity|]); split; intros Hr; try discriminate Hr; clear Hr.
  2-10: split; [eexists; vm_compute; reflexivity|split; vm_compute; reflexivity].
  split; [vm_compute; reflexivity|].
  exists (<["timestamp" := IsoDate now0]> (Str <$> data)).
  split; [vm_compute; reflexivity|]. split.
  - apply lookup_insert_eq.
  - intros k Hk. rewrite lookup_insert_ne by done. apply lookup_fmap.
Qed.

Lemma legacy_settle_clears_form_first_witness :
  doc_contactForm
    (Legacy.settle (fromEntries (FormData form_good)) (js "Send") (sample_ready form_good)).2
  = Some (mkForm (controls (reset form_good)) (Some (mkButton (js "Send") false))).
Proof.
  apply (legacy_settle_clears_form_first (fromEntries (FormData form_good)) (js "Send")
           (sample_ready form_good) form_good (mkButton (js "Send Message") false)
           eq_refl eq_refl).
Defined.


(** ** The standalone script's [throttle] is a debounce *)

Section LegacyThrottleFacts.

Context {Args : Type}.

Implicit Types (c : LegacyThrottle.Closure Args) (a : LegacyThrottle.action Args).

Lemma answers_snoc (reqs : list (Z * Args)) w call r :
  call.1 ≤ r.1 → LegacyThrottle.answers reqs w call →
  LegacyThrottle.answers (reqs ++ [r]) w call.
Proof.
  intros Hle (i & t0 & Hi & Ht & Hlater). exists i, t0. split; [|split; [done|]].
  - by apply lookup_app_l_Some.
  - intros j r' Hij Hj. apply lookup_app_Some in Hj as [Hj|[_ Hj]]; [by eapply Hlater|].
    apply list_lookup_singleton_Some in Hj as [_ <-]. done.
Qed.

Lemma debounce_inv_fresh w : LegacyThrottle.debounce_inv (@LegacyThrottle.fresh Args w).
Proof. constructor; simpl; auto. Qed.

Lemma executedFunction_spec args c :
  LegacyThrottle.debounce_inv c →
  LegacyThrottle.executedFunction args c
  = LegacyThrottle.mkClosure (LegacyThrottle.wait c)
      (Some (LegacyThrottle.next_handle c)) (S (LegacyThrottle.next_handle c))
      [(LegacyThrottle.next_handle c,
        (LegacyThrottle.clock c + Z.max 0 (LegacyThrottle.wait c), args))]
      (LegacyThrottle.clock c)
      (LegacyThrottle.requests c ++ [(LegacyThrottle.clock c, args)])
      (LegacyThrottle.func_calls c).
Proof.
  intros [Hp _ _ _]. destruct c as [w tmo nh pend clk reqs calls]. simpl in *.
  destruct Hp as [->|(h & t & a0 & -> & -> & _)].
  - by destruct tmo.
  - unfold LegacyThrottle.executedFunction, LegacyThrottle.clearTimeout,
      LegacyThrottle.setTimeout_later, LegacyThrottle.set_pending. simpl.
    rewrite filter_cons_False; [done|]. simpl. by intros H; apply H.
Qed.

Lemma debounce_inv_step a c c' :
  LegacyThrottle.debounce_inv c → LegacyThrottle.step a c = Some c' →
  LegacyThrottle.debounce_inv c' ∧ LegacyThrottle.wait c' = LegacyThrottle.wait c.
Proof.
  intros Hinv Hstep. destruct a as [args|dt|i]; simpl in Hstep.
  - injection Hstep as <-. rewrite (executedFunction_spec args c Hinv).
    destruct Hinv as [Hp Hr Hc Hn]. split; [|done]. constructor; simpl.
    + right. exists (LegacyThrottle.next_handle c), (LegacyThrottle.clock c), args.
      by rewrite last_snoc.
    + apply Forall_app. split; [done|]. by constructor.
    + eapply Forall_impl; [exact Hc|]. intros r [H1 H2]. split; [done|].
      by apply answers_snoc.
    + rewrite length_app. simpl. lia.
  - destruct Hinv as [Hp Hr Hc Hn].
    case_bool_decide as Hdt; [|done]. injection Hstep as <-.
    split; [|done]. constructor; simpl.
    + done.
    + eapply Forall_impl; [exact Hr|]. simpl. intros; lia.
    + eapply Forall_impl; [exact Hc|]. simpl. intros r [H1 H2]. split; [lia|done].
    + done.
  - destruct Hinv as [Hp Hr Hc Hn].
    destruct c as [w tmo nh pend clk reqs calls]. simpl in *.
    destruct Hp as [->|(h & t & a0 & -> & -> & Hlast)]; [done|].
    destruct i as [|i]; [|done]. simpl in Hstep.
    case_bool_decide as Hdue; [|done]. injection Hstep as <-.
    split; [|done]. constructor; simpl.
    + by left.
    + done.
    + apply Forall_app. split; [done|]. constructor; [|done]. simpl. split; [done|].
      apply last_Some in Hlast as [reqs' ->].
      exists (length reqs'), t. split; [|split].
      * simpl. by rewrite lookup_app_r, Nat.sub_diag.
      * simpl. lia.
      * intros j r Hij Hj. apply lookup_lt_Some in Hj.
        rewrite length_app in Hj. simpl in Hj. lia.
    + simpl in Hn. rewrite length_app. simpl. lia.
Qed.

Lemma debounce_inv_run tr : ∀ c c',
  LegacyThrottle.debounce_inv c → LegacyThrottle.run tr c = Some c' →
  LegacyThrottle.debounce_inv c' ∧ LegacyThrottle.wait c' = LegacyThrottle.wait c.
Proof.
  induction tr as [|a tr IH]; intros c c' Hinv Hrun; simpl in Hrun.
  - by injection Hrun as <-.
  - destruct (LegacyThrottle.step a c) as [c1|] eqn:Hs; [|done].
    destruct (debounce_inv_step _ _ _ Hinv Hs) as [Hinv1 Hw1].
    destruct (IH _ _ Hinv1 Hrun) as [Hinv' Hw']. split; [done|congruence].
Qed.

(** X18: the function that the standalone script calls [throttle] is a
    debounce.  Along any run of calls, elapsed time and due timers from
    the closure as [throttle(func, wait)] returns it: at most one timer
    is pending; [func] has run at most as often as the closure was
    called; every run of [func] carries the arguments of a call made
    [wait] ms or more before, with no other call in between; and as long
    as less than [wait] ms have passed since the latest call, no timer
    can fire, so that [func] does not run at all while calls keep coming
    less than [wait] ms apart. *)
Theorem legacy_throttle_waits_for_quiet w tr c :
  LegacyThrottle.run tr (LegacyThrottle.fresh w) = Some c →
  (length (LegacyThrottle.pending c) ≤ 1)%nat
  ∧ (length (LegacyThrottle.func_calls c) ≤ length (LegacyThrottle.requests c))%nat
  ∧ (∀ call, call ∈ LegacyThrottle.func_calls c →
       LegacyThrottle.answers (LegacyThrottle.requests c) w call)
  ∧ (∀ t0 args, last (LegacyThrottle.requests c) = Some (t0, args) →
       LegacyThrottle.clock c < t0 + w →
       ∀ i, LegacyThrottle.step (LegacyThrottle.Fire i) c = None).
Proof.
  intros Hrun.
  destruct (debounce_inv_run tr _ _ (debounce_inv_fresh w) Hrun) as [[Hp Hr Hc Hn] Hw].
  simpl in Hw. rewrite Hw in *. split; [|split; [|split]].
  - destruct Hp as [->|(h & t & a0 & _ & -> & _)]; simpl; lia.
  - lia.
  - intros call Hin. rewrite Forall_forall in Hc. by apply Hc.
  - intros t0 args Hlast Hclk i. simpl.
    destruct Hp as [->|(h & t & a0 & _ & -> & Hlast')]; [done|].
    destruct i as [|i]; [|done]. simpl.
    rewrite Hlast in Hlast'. injection Hlast' as <- <-.
    rewrite bool_decide_false by lia. done.
Qed.

(** X19: and it runs the last call of a burst.  In any state the closure
    can reach, when it is called and [wait] ms or more pass without
    another call, the timer of that call is the one pending, it can fire,
    and it runs [func] once with the arguments of that call; an earlier
    call whose timer was still pending is dropped. *)
Theorem legacy_throttle_runs_last_call w tr c args dt :
  LegacyThrottle.run tr (LegacyThrottle.fresh w) = Some c →
  Z.max 0 w ≤ dt →
  ∃ c', LegacyThrottle.run
          [LegacyThrottle.Call args; LegacyThrottle.Elapse dt; LegacyThrottle.Fire 0] c
        = Some c'
        ∧ LegacyThrottle.func_calls c'
          = LegacyThrottle.func_calls c ++ [(LegacyThrottle.clock c + dt, args)]
        ∧ LegacyThrottle.pending c' = [].
Proof.
  intros Hrun Hdt.
  destruct (debounce_inv_run tr _ _ (debounce_inv_fresh w) Hrun) as [Hinv Hw].
  simpl in Hw. cbn [LegacyThrottle.run LegacyThrottle.step].
  rewrite (executedFunction_spec args c Hinv), Hw. simpl.
  rewrite bool_decide_true by lia. simpl.
  rewrite bool_decide_true by lia.
  eexists. split; [reflexivity|]. split; reflexivity.
Qed.

End LegacyThrottleFacts.

Lemma legacy_throttle_waits_for_quiet_witness :
  ∃ c : LegacyThrottle.Closure Z,
    LegacyThrottle.run
      [LegacyThrottle.Call 10; LegacyThrottle.Elapse 5; LegacyThrottle.Call 100;
       LegacyThrottle.Elapse 16; LegacyThrottle.Fire 0] (LegacyThrottle.fresh 16)
    = Some c
    ∧ LegacyThrottle.func_calls c = [(21, 100)]
    ∧ (length (LegacyThrottle.pending c) ≤ 1)%nat.
Proof.
  assert (∃ c : LegacyThrottle.Closure Z,
            LegacyThrottle.run
              [LegacyThrottle.Call 10; LegacyThrottle.Elapse 5; LegacyThrottle.Call 100;
               LegacyThrottle.Elapse 16; LegacyThrottle.Fire 0] (LegacyThrottle.fresh 16)
            = Some c
            ∧ LegacyThrottle.func_calls c = [(21, 100)]) as (c & Hc & Hf).
  { vm_compute. eexists. split; reflexivity. }
  exists c. split; [exact Hc|]. split; [exact Hf|].
  apply (legacy_throttle_waits_for_quiet 16 _ c Hc).
Defined.

Lemma legacy_throttle_runs_last_call_witness :
  ∃ c' : LegacyThrottle.Closure Z,
    LegacyThrottle.run
      [LegacyThrottle.Call 100; LegacyThrottle.Elapse 16; LegacyThrottle.Fire 0]
      (LegacyThrottle.executedFunction 10 (LegacyThrottle.fresh 16))
    = Some c'
    ∧ LegacyThrottle.func_calls c' = [(16, 100)].
Proof.
  destruct (legacy_throttle_runs_last_call 16 [LegacyThrottle.Call 10]
              (LegacyThrottle.executedFunction 10 (LegacyThrottle.fresh 16)) 100 16
              eq_refl) as (c' & H1 & H2 & _); [simpl; lia|].
  exists c'. split; [exact H1|exact H2].
Defined.


(** ** A toast does not stay *)

Lemma expiring_setTimeout t delay : maintains toast_expiring (setTimeout t delay).
Proof.
  intros st H Hv. destruct (H Hv) as (He & due & Hin & Hd). split; [done|].
  exists due. split; [|done]. simpl. apply elem_of_app. by left.
Qed.

Lemma expiring_showToast a : maintains toast_expiring (App.showToast a).
Proof.
  intros st H. destruct (toast_ready st) eqn:Hr.
  - rewrite (showToast_ready a st Hr). intros _. simpl. split.
    + unfold toast_ready in Hr. by destruct (toast (elements st)).
    + exists (now st + 5000). split; [|lia]. apply elem_of_app. right.
      by apply list_elem_of_singleton.
  - destruct (showToast_unready a st Hr) as (e & t' & -> & Hshow). intros Hv.
    apply H. unfold toast_visible in *. simpl in Hv.
    destruct t' as [t'|], (doc_toast st) as [t|]; simpl in *; congruence.
Qed.

(** One step through a script for an invariant that its primitive steps
    keep: [special] comes first, for the calls that keep the invariant
    only as a whole. *)
Ltac invariant_step special :=
  first
    [ special ()
    | lazymatch goal with
      | |- maintains _ (_ ≫= _) => apply maintains_bind; [|intros ?]
      | |- maintains _ (mret _) => apply maintains_ret
      | |- maintains _ (gets _) => apply maintains_gets
      | |- maintains _ (deref _ _) => apply maintains_deref
      | |- maintains _ (throw _) => apply maintains_throw
      | |- maintains _ (modify _) =>
          apply maintains_modify; intros ? ?; first [assumption | by intros ?]
      | |- maintains _ (try_catch_finally _ _ _) =>
          apply maintains_try_catch_finally; [| intros ? |]
      | |- maintains _ (match ?x with _ => _ end) => destruct x
      | |- maintains _ (console_log _ _) => unfold console_log
      | |- maintains _ (console_error _ _) => unfold console_error
      | |- maintains _ _ =>
          first
            [ progress unfold call, fire
            | progress unfold App.throttledScrollHandler, App.throttle,
                App.handleScroll, App.handleFormSubmit, App.handleFormSubmit_resume,
                App.handleKeyboard, App.handleSmoothScroll, App.toggleMobileMenu,
                App.observerCallback, App.the_toast, App.put_toast, App.the_form,
                App.put_form, App.the_button, App.put_button ]
      end ].

Ltac expiring_special _ :=
  lazymatch goal with
  | |- maintains _ (App.showToast _) => apply expiring_showToast
  | |- maintains _ (setTimeout _ _) => apply expiring_setTimeout
  end.

Ltac expiring_script := repeat invariant_step expiring_special.

Lemma expiring_call h ev : maintains toast_expiring (call h ev).
Proof. destruct h, ev as [[] ?| | |]; expiring_script. Qed.

Lemma expiring_fire t :
  t = ThrottleOff ∨ (∃ data orig, t = ResumeSubmit data orig) ∨ t = FadeIn →
  maintains toast_expiring (fire t).
Proof. intros [->|[(data & orig & ->)| ->]]; expiring_script. Qed.

(** The auto-hide callback leaves no toast visible, when a visible toast
    is one the script can reach. *)
Lemma hide_fire st tm :
  toast_expiring st → toast_visible (catching (fire HideToast) (set_timers st tm)) = false.
Proof.
  unfold toast_expiring, toast_visible. intros H. destruct_state st. cbn in H.
  destruct toast0, doc_toast0 as [[ttl dsc ty [|]]|]; try reflexivity.
  by destruct (H eq_refl) as [Hn _].
Qed.

Lemma elem_of_delete_ne {A} (l : list A) i x y :
  x ∈ l → l !! i = Some y → x ≠ y → x ∈ delete i l.
Proof.
  revert i. induction l as [|z l IH]; intros i Hin Hi Hne; [by destruct i|].
  destruct i as [|i]; simpl in *.
  - injection Hi as ->. apply elem_of_cons in Hin as [->|Hin]; done.
  - apply elem_of_cons in Hin as [->|Hin]; [by left|]. right. by eapply IH.
Qed.

Lemma expiring_step_ok a st st' :
  queues_ok st → toast_expiring st → step a st = Some st' → toast_expiring st'.
Proof.
  intros Hq He Hstep. destruct a as [t b|y| |key|name v|i|dt|i|]; simpl in Hstep.
  - injection Hstep as <-. unfold dispatch.
    apply (maintains_foldl_catching toast_expiring (λ l, call l.2 _)); [done| |done].
    intros; apply expiring_call.
  - injection Hstep as <-. unfold dispatch.
    apply (maintains_foldl_catching toast_expiring (λ l, call l.2 _)); [done| |done].
    intros; apply expiring_call.
  - injection Hstep as <-. unfold dispatch.
    apply (maintains_foldl_catching toast_expiring (λ l, call l.2 _)); [done| |done].
    intros; apply expiring_call.
  - injection Hstep as <-. unfold dispatch.
    apply (maintains_foldl_catching toast_expiring (λ l, call l.2 _)); [done| |done].
    intros; apply expiring_call.
  - by injection Hstep as <-.
  - case_bool_decide; injection Hstep as <-; [|done].
    apply maintains_catching; [done| |done]. expiring_script.
  - case_bool_decide as Hdt; [|done]. injection Hstep as <-.
    intros Hv. destruct (He Hv) as (Hn & due & Hin & Hd). split; [done|].
    exists due. split; [done|]. simpl. lia.
  - destruct (timers st !! i) as [[due t]|] eqn:Hi; [|done].
    case_bool_decide as Hdue; [|done]. injection Hstep as <-.
    destruct Hq as [Hq _].
    assert (Ht : app_timer t = true).
    { rewrite Forall_forall in Hq. apply (Hq (due, t)). by eapply list_elem_of_lookup_2. }
    destruct t; try discriminate Ht.
    + intros Hv. by rewrite hide_fire in Hv.
    + apply maintains_catching; [done|apply expiring_fire; by left|].
      intros Hv. destruct (He Hv) as (Hn & due' & Hin & Hd). split; [done|].
      exists due'. split; [|done]. simpl. by eapply elem_of_delete_ne.
    + apply maintains_catching; [done|apply expiring_fire; right; left; by eexists; eexists|].
      intros Hv. destruct (He Hv) as (Hn & due' & Hin & Hd). split; [done|].
      exists due'. split; [|done]. simpl. by eapply elem_of_delete_ne.
  - injection Hstep as <-. destruct Hq as [_ Hq].
    apply (maintains_foldl_catching toast_expiring fire); [done| |done].
    intros t Ht. rewrite Forall_forall in Hq. rewrite (Hq t Ht).
    apply expiring_fire. by right; right.
Qed.

Lemma expiring_run tr : ∀ st st',
  queues_ok st → toast_expiring st → run tr st = Some st' → toast_expiring st'.
Proof.
  induction tr as [|a tr IH]; intros st st' Hq He Hrun; cbn [run] in Hrun.
  - by injection Hrun as <-.
  - destruct (step a st) as [st1|] eqn:Hs; [|done].
    eapply (IH st1); [by eapply queues_step_ok|by eapply expiring_step_ok|done].
Qed.

Lemma boot_toast hdr toggle overlay close form tst icon hero anchors n cards :
  doc_toast (boot (load hdr toggle overlay close form tst icon hero anchors n cards)) = tst.
Proof.
  destruct (toggle && overlay && close) eqn:Hc.
  - apply andb_prop in Hc as [Hc ->]. apply andb_prop in Hc as [-> ->].
    unfold boot, catching.
    destruct (init_with_menu_controls hdr form tst icon hero anchors n cards)
      as (st & -> & _ & _ & _ & _ & _ & _ & _ & Hdoc).
    by injection Hdoc as _ _ ->.
  - destruct toggle, overlay, close; try discriminate; reflexivity.
Qed.

(** X20: a toast does not stay.  On a page that is loaded with its toast
    hidden, in every state the page can reach in which the toast is
    visible, an auto-hide timer is pending that is due at most 5000 ms
    from now; and once its time has come it can fire, and the toast is
    hidden. *)
Theorem visible_toast_expires hdr toggle overlay close form tst icon hero anchors n cards
    tr st :
  (∀ t, tst = Some t → show t = false) →
  run tr (boot (load hdr toggle overlay close form tst icon hero anchors n cards))
  = Some st →
  toast_visible st = true →
  ∃ i due,
    timers st !! i = Some (due, HideToast)
    ∧ due ≤ now st + 5000
    ∧ ∀ dt, 0 ≤ dt → due ≤ now st + dt →
        ∃ st', run [Elapse dt; Fire i] st = Some st' ∧ toast_visible st' = false.
Proof.
  intros Hhid Hrun Hv.
  destruct (boot_fade hdr toggle overlay close form tst icon hero anchors n cards)
    as [Hq0 _]. cbv zeta in Hq0.
  assert (He0 : toast_expiring
                  (boot (load hdr toggle overlay close form tst icon hero anchors n cards))).
  { intros Hv0. unfold toast_visible in Hv0. rewrite boot_toast in Hv0.
    destruct tst as [t|]; [|done]. by rewrite (Hhid t eq_refl) in Hv0. }
  pose proof (expiring_run tr _ _ Hq0 He0 Hrun) as He.
  destruct (He Hv) as (Hn & due & Hin & Hd).
  apply list_elem_of_lookup_1 in Hin as [i Hi]. exists i, due.
  split; [done|]. split; [done|]. intros dt Hdt Hdue.
  cbn [run]. simpl step at 1. rewrite bool_decide_true by done.
  unfold step. change (timers (set_now st (now st + dt))) with (timers st).
  rewrite Hi. change (now (set_now st (now st + dt))) with (now st + dt).
  rewrite bool_decide_true by done. eexists. split; [reflexivity|].
  apply hide_fire. intros Hv'. destruct (He Hv) as (Hn' & due' & Hin' & Hd').
  split; [done|]. exists due'. split; [done|]. simpl. lia.
Qed.

Lemma visible_toast_expires_witness :
  ∃ st i due, run [Submit] (sample_ready form_bad_email) = Some st
              ∧ toast_visible st = true
              ∧ timers st !! i = Some (due, HideToast)
              ∧ due ≤ now st + 5000.
Proof.
  assert (∃ st, run [Submit] (sample_ready form_bad_email) = Some st
                ∧ toast_visible st = true) as (st & Hst & Hv).
  { vm_compute. eexists. split; reflexivity. }
  assert (Hhid : ∀ t, Some empty_toast = Some t → show t = false).
  { intros t Ht. injection Ht as <-. reflexivity. }
  destruct (visible_toast_expires _ _ _ _ _ _ _ _ _ _ _ _ _ Hhid Hst Hv)
    as (i & due & H1 & H2 & _).
  exists st, i, due. auto.
Defined.


(** ** The submit button does not stay disabled *)

Lemma releasing_setTimeout t delay : maintains button_releasing (setTimeout t delay).
Proof.
  intros st H Hv. destruct (H Hv) as (due & data & orig & Hin & Hd).
  exists due, data, orig. split; [|done]. simpl. apply elem_of_app. by left.
Qed.

Lemma releasing_showToast a : maintains button_releasing (App.showToast a).
Proof.
  intros st H. destruct (showToast_frame a st) as (r & t' & tm & -> & Htm).
  intros Hv. destruct (H Hv) as (due & data & orig & Hin & Hd).
  exists due, data, orig. split; [|done]. simpl.
  destruct Htm as [->| ->]; [done|]. apply elem_of_app. by left.
Qed.

Lemma handleFormSubmit_no_form st :
  doc_contactForm st = None →
  App.handleFormSubmit st = (Throw (TypeError "e.currentTarget"), st).
Proof.
  intros Hf. unfold App.handleFormSubmit, App.the_form.
  cbv [mbind M_bind gets deref mret M_ret]. by rewrite Hf.
Qed.

Lemma releasing_handleFormSubmit : maintains button_releasing App.handleFormSubmit.
Proof.
  intros st H. destruct (doc_contactForm st) as [f|] eqn:Hf.
  2: { by rewrite handleFormSubmit_no_form. }
  destruct (falsy (fromEntries (FormData f) !! "firstName")
            || falsy (fromEntries (FormData f) !! "lastName")
            || falsy (fromEntries (FormData f) !! "email")
            || falsy (fromEntries (FormData f) !! "message")) eqn:Hm.
  { rewrite (handleFormSubmit_missing st f Hf Hm). by apply releasing_showToast. }
  destruct (email_test (to_string (fromEntries (FormData f) !! "email"))) eqn:He.
  2: { rewrite (handleFormSubmit_invalid st f Hf Hm He). by apply releasing_showToast. }
  destruct (submitButton f) as [b|] eqn:Hb.
  2: { by rewrite (handleFormSubmit_no_button st f Hf Hb Hm He). }
  rewrite (handleFormSubmit_accept st f b Hf Hb Hm He). intros _.
  exists (now st + 1000), (fromEntries (FormData f)), (textContent b).
  split; [|simpl; lia]. simpl. apply elem_of_app. right. by apply list_elem_of_singleton.
Qed.

(** The continuation leaves no button disabled. *)
Lemma resume_enables data orig st :
  button_disabled (App.handleFormSubmit_resume data orig st).2 = false.
Proof.
  unfold button_disabled.
  destruct (doc_contactForm st) as [f|] eqn:Hf.
  - destruct (submitButton f) as [b|] eqn:Hb.
    + by rewrite (resume_restores data orig st f b Hf Hb).
    + destruct_state st. destruct f as [cs sb]. cbn in Hf, Hb. subst.
      destruct toast0, doc_toast0 as [[[x|] [y|] ty sh]|]; vm_compute; reflexivity.
  - destruct_state st. cbn in Hf. subst.
    destruct toast0, doc_toast0 as [[[x|] [y|] ty sh]|]; vm_compute; reflexivity.
Qed.

Lemma releasing_resume data orig :
  maintains button_releasing (App.handleFormSubmit_resume data orig).
Proof. intros st _ Hv. by rewrite resume_enables in Hv. Qed.

Ltac releasing_special _ :=
  lazymatch goal with
  | |- maintains _ (App.showToast _) => apply releasing_showToast
  | |- maintains _ App.handleFormSubmit => apply releasing_handleFormSubmit
  | |- maintains _ (App.handleFormSubmit_resume _ _) => apply releasing_resume
  | |- maintains _ (setTimeout _ _) => apply releasing_setTimeout
  end.

Ltac releasing_script := repeat invariant_step releasing_special.

Lemma releasing_call h ev : maintains button_releasing (call h ev).
Proof. destruct h, ev as [[] ?| | |]; releasing_script. Qed.

Lemma releasing_fire t :
  app_timer t = true ∨ t = FadeIn → maintains button_releasing (fire t).
Proof. intros [Ht| ->]; [destruct t; try done|]; releasing_script. Qed.

Lemma button_of_catching m st : button_of (catching m st) = button_of (m st).2.
Proof. unfold catching. by destruct (m st) as [[a|e] st']. Qed.

Lemma releasing_step_ok a st st' :
  queues_ok st → button_releasing st → step a st = Some st' → button_releasing st'.
Proof.
  intros Hq He Hstep. destruct a as [t b|y| |key|name v|i|dt|i|]; simpl in Hstep.
  - injection Hstep as <-. unfold dispatch.
    apply (maintains_foldl_catching button_releasing (λ l, call l.2 _)); [done| |done].
    intros; apply releasing_call.
  - injection Hstep as <-. unfold dispatch.
    apply (maintains_foldl_catching button_releasing (λ l, call l.2 _)); [done| |done].
    intros; apply releasing_call.
  - injection Hstep as <-. unfold dispatch.
    apply (maintains_foldl_catching button_releasing (λ l, call l.2 _)); [done| |done].
    intros; apply releasing_call.
  - injection Hstep as <-. unfold dispatch.
    apply (maintains_foldl_catching button_releasing (λ l, call l.2 _)); [done| |done].
    intros; apply releasing_call.
  - injection Hstep as <-. intros Hv. apply He.
    unfold button_disabled, button_of in *. simpl in Hv.
    by destruct (doc_contactForm st).
  - case_bool_decide; injection Hstep as <-; [|done].
    apply maintains_catching; [done| |done]. releasing_script.
  - case_bool_decide as Hdt; [|done]. injection Hstep as <-.
    intros Hv. destruct (He Hv) as (due & data & orig & Hin & Hd).
    exists due, data, orig. split; [done|]. simpl. lia.
  - destruct (timers st !! i) as [[due t]|] eqn:Hi; [|done].
    case_bool_decide as Hdue; [|done]. injection Hstep as <-.
    destruct Hq as [Hq _].
    assert (Ht : app_timer t = true).
    { rewrite Forall_forall in Hq. apply (Hq (due, t)). by eapply list_elem_of_lookup_2. }
    destruct t; try discriminate Ht.
    + apply maintains_catching; [done|apply releasing_fire; by left|].
      intros Hv. destruct (He Hv) as (due' & data & orig & Hin & Hd).
      exists due', data, orig. split; [|done]. simpl. by eapply elem_of_delete_ne.
    + apply maintains_catching; [done|apply releasing_fire; by left|].
      intros Hv. destruct (He Hv) as (due' & data & orig & Hin & Hd).
      exists due', data, orig. split; [|done]. simpl. by eapply elem_of_delete_ne.
    + intros Hv. unfold button_disabled in Hv. rewrite button_of_catching in Hv.
      pose proof (resume_enables data originalButtonText
                    (set_timers st (delete i (timers st)))) as Hen.
      unfold button_disabled in Hen. unfold fire in Hv. by rewrite Hen in Hv.
  - injection Hstep as <-. destruct Hq as [_ Hq].
    apply (maintains_foldl_catching button_releasing fire); [done| |done].
    intros t Ht. rewrite Forall_forall in Hq. rewrite (Hq t Ht).
    apply releasing_fire. by right.
Qed.

Lemma releasing_run tr : ∀ st st',
  queues_ok st → button_releasing st → run tr st = Some st' → button_releasing st'.
Proof.
  induction tr as [|a tr IH]; intros st st' Hq He Hrun; cbn [run] in Hrun.
  - by injection Hrun as <-.
  - destruct (step a st) as [st1|] eqn:Hs; [|done].
    eapply (IH st1); [by eapply queues_step_ok|by eapply releasing_step_ok|done].
Qed.

Lemma boot_form hdr toggle overlay close form tst icon hero anchors n cards :
  doc_contactForm (boot (load hdr toggle overlay close form tst icon hero anchors n cards))
  = form.
Proof.
  destruct (toggle && overlay && close) eqn:Hc.
  - apply andb_prop in Hc as [Hc ->]. apply andb_prop in Hc as [-> ->].
    unfold boot, catching.
    destruct (init_with_menu_controls hdr form tst icon hero anchors n cards)
      as (st & -> & _ & _ & _ & _ & _ & _ & _ & Hdoc).
    by injection Hdoc as _ -> _.
  - destruct toggle, overlay, close; try discriminate; reflexivity.
Qed.

(** X21: the submit button does not stay disabled.  On a page that is
    loaded with the button enabled, in every state the page can reach in
    which the button is disabled, a continuation of a submission is
    pending that is due at most 1000 ms from now; and once its time has
    come it can fire, and the button is enabled, with the label that this
    continuation carries. *)
Theorem disabled_button_is_released hdr toggle overlay close form tst icon hero anchors n
    cards tr st :
  (∀ f b, form = Some f → submitButton f = Some b → disabled b = false) →
  run tr (boot (load hdr toggle overlay close form tst icon hero anchors n cards))
  = Some st →
  button_disabled st = true →
  ∃ i due data orig,
    timers st !! i = Some (due, ResumeSubmit data orig)
    ∧ due ≤ now st + 1000
    ∧ ∀ dt, 0 ≤ dt → due ≤ now st + dt →
        ∃ st', run [Elapse dt; Fire i] st = Some st'
               ∧ button_of st' = Some (mkButton orig false).
Proof.
  intros Hen Hrun Hv.
  destruct (boot_fade hdr toggle overlay close form tst icon hero anchors n cards)
    as [Hq0 _]. cbv zeta in Hq0.
  assert (He0 : button_releasing
                  (boot (load hdr toggle overlay close form tst icon hero anchors n cards))).
  { intros Hv0. unfold button_disabled, button_of in Hv0. rewrite boot_form in Hv0.
    destruct form as [f|]; [|done]. simpl in Hv0.
    destruct (submitButton f) as [b|] eqn:Hb; [|done].
    by rewrite (Hen f b eq_refl Hb) in Hv0. }
  pose proof (releasing_run tr _ _ Hq0 He0 Hrun) as He.
  destruct (He Hv) as (due & data & orig & Hin & Hd).
  apply list_elem_of_lookup_1 in Hin as [i Hi]. exists i, due, data, orig.
  split; [done|]. split; [done|]. intros dt Hdt Hdue.
  cbn [run]. simpl step at 1. rewrite bool_decide_true by done.
  unfold step. change (timers (set_now st (now st + dt))) with (timers st).
  rewrite Hi. change (now (set_now st (now st + dt))) with (now st + dt).
  rewrite bool_decide_true by done. eexists. split; [reflexivity|].
  rewrite button_of_catching. unfold fire.
  unfold button_disabled, button_of in Hv.
  destruct (doc_contactForm st) as [f|] eqn:Hf; [|done]. simpl in Hv.
  destruct (submitButton f) as [b|] eqn:Hb; [|done].
  by apply (resume_restores data orig _ f b).
Qed.

Lemma disabled_button_is_released_witness :
  ∃ st i due data orig,
    run [Submit; Elapse 400] (sample_ready form_good) = Some st
    ∧ button_disabled st = true
    ∧ timers st !! i = Some (due, ResumeSubmit data orig)
    ∧ due ≤ now st + 1000.
Proof.
  assert (∃ st, run [Submit; Elapse 400] (sample_ready form_good) = Some st
                ∧ button_disabled st = true) as (st & Hst & Hv).
  { vm_compute. eexists. split; reflexivity. }
  assert (Hen : ∀ f b, Some form_good = Some f → submitButton f = Some b →
                       disabled b = false).
  { intros f b Hf Hb. injection Hf as <-. injection Hb as <-. reflexivity. }
  destruct (disabled_button_is_released _ _ _ _ _ _ _ _ _ _ _ _ _ Hen Hst Hv)
    as (i & due & data & orig & H1 & H2 & _).
  exists st, i, due, data, orig. auto.
Defined.


(** ** Validation cannot be bypassed *)

Lemma valid_setTimeout t delay :
  carries_valid (0, t) → maintains submissions_valid (setTimeout t delay).
Proof.
  intros Ht st [H1 H2]. split; [|done]. simpl.
  apply Forall_app. split; [done|]. by constructor.
Qed.

Lemma valid_showToast a : maintains submissions_valid (App.showToast a).
Proof.
  intros st [H1 H2]. destruct (showToast_frame a st) as (r & t' & tm & -> & Htm).
  split; [|done]. simpl. destruct Htm as [->| ->]; [done|].
  apply Forall_app. split; [done|]. by constructor.
Qed.

Lemma valid_handleFormSubmit : maintains submissions_valid App.handleFormSubmit.
Proof.
  intros st H. destruct (doc_contactForm st) as [f|] eqn:Hf.
  2: { by rewrite handleFormSubmit_no_form. }
  destruct (falsy (fromEntries (FormData f) !! "firstName")
            || falsy (fromEntries (FormData f) !! "lastName")
            || falsy (fromEntries (FormData f) !! "email")
            || falsy (fromEntries (FormData f) !! "message")) eqn:Hm.
  { rewrite (handleFormSubmit_missing st f Hf Hm). by apply valid_showToast. }
  destruct (email_test (to_string (fromEntries (FormData f) !! "email"))) eqn:He.
  2: { rewrite (handleFormSubmit_invalid st f Hf Hm He). by apply valid_showToast. }
  destruct (submitButton f) as [b|] eqn:Hb.
  2: { by rewrite (handleFormSubmit_no_button st f Hf Hb Hm He). }
  rewrite (handleFormSubmit_accept st f b Hf Hb Hm He). destruct H as [H1 H2].
  split; [|done]. simpl. apply Forall_app. split; [done|]. constructor; [|done].
  by apply checks_well_formed.
Qed.

Lemma valid_console_log data :
  well_formed data →
  maintains submissions_valid (console_log (js "Form Submitted:") (Str <$> data)).
Proof.
  intros Hw st [H1 H2]. split; [done|]. simpl.
  apply Forall_app. split; [done|]. constructor; [|done]. split; [done|]. by exists data.
Qed.

Lemma valid_console_error label e : maintains submissions_valid (console_error label e).
Proof.
  intros st [H1 H2]. split; [done|]. simpl.
  apply Forall_app. split; [done|]. by constructor.
Qed.

Ltac valid_special _ :=
  lazymatch goal with
  | |- maintains _ (App.showToast _) => apply valid_showToast
  | |- maintains _ App.handleFormSubmit => apply valid_handleFormSubmit
  | |- maintains _ (console_log _ _) => by apply valid_console_log
  | |- maintains _ (console_error _ _) => apply valid_console_error
  | |- maintains _ (setTimeout _ _) => by apply valid_setTimeout
  end.

Ltac valid_script := repeat invariant_step valid_special.

Lemma valid_call h ev : maintains submissions_valid (call h ev).
Proof. destruct h, ev as [[] ?| | |]; valid_script. Qed.

Lemma valid_fire t :
  app_timer t = true ∨ t = FadeIn → carries_valid (0, t) →
  maintains submissions_valid (fire t).
Proof. intros [Ht| ->] Hw; [destruct t; try done|]; valid_script. Qed.

Lemma valid_step_ok a st st' :
  queues_ok st → submissions_valid st → step a st = Some st' → submissions_valid st'.
Proof.
  intros Hq He Hstep. destruct a as [t b|y| |key|name v|i|dt|i|]; simpl in Hstep.
  - injection Hstep as <-. unfold dispatch.
    apply (maintains_foldl_catching submissions_valid (λ l, call l.2 _)); [done| |done].
    intros; apply valid_call.
  - injection Hstep as <-. unfold dispatch.
    apply (maintains_foldl_catching submissions_valid (λ l, call l.2 _)); [done| |done].
    intros; apply valid_call.
  - injection Hstep as <-. unfold dispatch.
    apply (maintains_foldl_catching submissions_valid (λ l, call l.2 _)); [done| |done].
    intros; apply valid_call.
  - injection Hstep as <-. unfold dispatch.
    apply (maintains_foldl_catching submissions_valid (λ l, call l.2 _)); [done| |done].
    intros; apply valid_call.
  - by injection Hstep as <-.
  - case_bool_decide; injection Hstep as <-; [|done].
    apply maintains_catching; [done| |done]. valid_script.
  - case_bool_decide as Hdt; [|done]. by injection Hstep as <-.
  - destruct (timers st !! i) as [[due t]|] eqn:Hi; [|done].
    case_bool_decide as Hdue; [|done]. injection Hstep as <-.
    destruct Hq as [Hq _]. destruct He as [He1 He2].
    assert (Ht : app_timer t = true ∧ carries_valid (0, t)).
    { rewrite Forall_forall in Hq. rewrite Forall_forall in He1.
      apply list_elem_of_lookup_2 in Hi. split; [apply (Hq _ Hi)|apply (He1 _ Hi)]. }
    destruct Ht as [Ht Hw].
    apply maintains_catching; [done|apply valid_fire; [by left|done]|].
    split; [|done]. simpl. by apply Forall_delete.
  - injection Hstep as <-. destruct Hq as [_ Hq].
    apply (maintains_foldl_catching submissions_valid fire); [done| |done].
    intros t Ht. rewrite Forall_forall in Hq. rewrite (Hq t Ht).
    apply valid_fire; [by right|done].
Qed.

Lemma valid_run tr : ∀ st st',
  queues_ok st → submissions_valid st → run tr st = Some st' → submissions_valid st'.
Proof.
  induction tr as [|a tr IH]; intros st st' Hq He Hrun; cbn [run] in Hrun.
  - by injection Hrun as <-.
  - destruct (step a st) as [st1|] eqn:Hs; [|done].
    eapply (IH st1); [by eapply queues_step_ok|by eapply valid_step_ok|done].
Qed.

Lemma boot_console hdr toggle overlay close form tst icon hero anchors n cards :
  let st := boot (load hdr toggle overlay close form tst icon hero anchors n cards) in
  timers st = [] ∧ console st = [].
Proof.
  cbv zeta. destruct (toggle && overlay && close) eqn:Hc.
  - apply andb_prop in Hc as [Hc ->]. apply andb_prop in Hc as [-> ->].
    unfold boot, catching.
    assert (∃ st, App.init (load hdr true true true form tst icon hero anchors n cards)
                  = (Ok tt, st) ∧ timers st = [] ∧ console st = []) as (st & -> & H).
    { unfold App.init. cbv [mbind M_bind]. rewrite cacheDOMElements_spec.
      erewrite bindEvents_spec by reflexivity.
      erewrite setupObservers_spec by reflexivity.
      eexists. split; [reflexivity|]. split; reflexivity. }
    exact H.
  - destruct toggle, overlay, close; try discriminate; split; reflexivity.
Qed.

(** X22: validation cannot be bypassed.  In every state the page can
    reach, whatever the visitor edits and submits and whenever the timers
    fire, every record that [console.log] has received carries the label
    of [handleFormSubmit] and the fields of a submission that was well
    formed when it was submitted: all four required fields non-empty and
    an email that matches the pattern.  Later edits of the form do not
    reach the record. *)
Theorem only_valid_submissions_logged hdr toggle overlay close form tst icon hero anchors n
    cards tr st label payload :
  run tr (boot (load hdr toggle overlay close form tst icon hero anchors n cards))
  = Some st →
  ConsoleLog label payload ∈ console st →
  label = js "Form Submitted:"
  ∧ ∃ data, payload = Str <$> data ∧ well_formed data.
Proof.
  intros Hrun Hin.
  destruct (boot_fade hdr toggle overlay close form tst icon hero anchors n cards)
    as [Hq0 _]. cbv zeta in Hq0.
  destruct (boot_console hdr toggle overlay close form tst icon hero anchors n cards)
    as [Ht0 Hc0]. cbv zeta in Ht0, Hc0.
  assert (He0 : submissions_valid
                  (boot (load hdr toggle overlay close form tst icon hero anchors n cards))).
  { split; [rewrite Ht0|rewrite Hc0]; constructor. }
  destruct (valid_run tr _ _ Hq0 He0 Hrun) as [_ Hlog].
  rewrite Forall_forall in Hlog. exact (Hlog _ Hin).
Qed.

Lemma only_valid_submissions_logged_witness :
  ∃ st payload,
    run [Submit; Input "email" (js "nobody"); Elapse 1000; Fire 0]
      (sample_ready form_good) = Some st
    ∧ console st = [ConsoleLog (js "Form Submitted:") payload]
    ∧ ∃ data, payload = Str <$> data ∧ well_formed data.
Proof.
  assert (∃ st, run [Submit; Input "email" (js "nobody"); Elapse 1000; Fire 0]
                  (sample_ready form_good) = Some st
                ∧ console st = [ConsoleLog (js "Form Submitted:")
                                  (Str <$> fromEntries (FormData form_good))])
    as (st & Hst & Hc).
  { vm_compute. eexists. split; reflexivity. }
  exists st, (Str <$> fromEntries (FormData form_good)). split; [exact Hst|].
  split; [exact Hc|].
  apply (only_valid_submissions_logged _ _ _ _ _ _ _ _ _ _ _ _ _ (js "Form Submitted:")
           _ Hst).
  rewrite Hc. by apply list_elem_of_singleton.
Defined.


(** ** One handler per event *)

Lemma event_handlers hdr form tst icon hero anchors n cards tr st t k :
  run tr (boot (load hdr true true true form tst icon hero anchors n cards)) = Some st →
  k ≠ EvClick →
  filter (λ l, l.1.1 = t ∧ l.1.2 = k) (listeners st)
  = match t, k, form with
    | TForm, EvSubmit, Some _ => [(TForm, EvSubmit, OnFormSubmit)]
    | TWindow, EvScroll, _ => [(TWindow, EvScroll, OnScroll)]
    | TDocument, EvKeydown, _ => [(TDocument, EvKeydown, OnKeydown)]
    | _, _, _ => []
    end.
Proof.
  intros Hrun Hk. apply wiring_run in Hrun. injection Hrun as -> _.
  unfold boot, catching.
  destruct (init_with_menu_controls hdr form tst icon hero anchors n cards)
    as (st0 & -> & _ & -> & _).
  rewrite !filter_app.
  rewrite !filter_fmap_none by (intros j [_ H]; by apply Hk).
  destruct k; [done| | |]; destruct t, form; reflexivity.
Qed.

(** X23: every event reaches one handler, once.  On a page that started
    with its three menu controls, in every state the page can reach: a
    submit event runs [handleFormSubmit] once when the page has the
    contact form and nothing otherwise, a key runs [handleKeyboard] once,
    and a scroll event runs the throttled scroll handler once, on the new
    position; an exception of the handler is reported and goes no
    further. *)
Theorem one_handler_per_event hdr form tst icon hero anchors n cards tr st :
  run tr (boot (load hdr true true true form tst icon hero anchors n cards)) = Some st →
  step Submit st
  = Some (match form with Some _ => catching App.handleFormSubmit st | None => st end)
  ∧ (∀ key, step (Keydown key) st = Some (catching (App.handleKeyboard key) st))
  ∧ (∀ y, step (Scroll y) st
          = Some (catching App.throttledScrollHandler (set_scrollY st y))).
Proof.
  intros Hrun.
  pose proof (λ t k, event_handlers hdr form tst icon hero anchors n cards tr st t k Hrun)
    as Hh.
  split; [|split].
  - simpl. unfold dispatch. simpl. rewrite (Hh TForm EvSubmit) by done.
    by destruct form.
  - intros key. simpl. unfold dispatch. simpl. by rewrite (Hh TDocument EvKeydown).
  - intros y. simpl. unfold dispatch. simpl.
    change (listeners (set_scrollY st y)) with (listeners st).
    by rewrite (Hh TWindow EvScroll).
Qed.

Lemma one_handler_per_event_witness :
  ∃ st, run [Scroll 60; Elapse 4] (sample_ready form_good) = Some st
        ∧ step Submit st = Some (catching App.handleFormSubmit st).
Proof.
  assert (∃ st, run [Scroll 60; Elapse 4] (sample_ready form_good) = Some st)
    as [st Hst].
  { vm_compute. eexists. reflexivity. }
  exists st. split; [exact Hst|].
  apply (one_handler_per_event _ (Some form_good) _ _ _ _ _ _ _ _ Hst).
Defined.

